(** * html-to-image: tree cloning, resource embedding and the execution governor

    A shallow embedding of [clone-node.ts], [embed-images.ts] and [index.ts].

    - DOM nodes are finite trees ([Node] for the live document, [CNode] for
      the detached clone under construction).
    - The asynchronous functions are run sequentially (a single capture has
      exactly one thread of control; every [await] is a sequencing point), in
      a state-and-exception monad [M] over a [World] that holds the shared
      mutable traversal context [options._context], the number of
      [Date.now()] calls made so far, and the trace of observable events
      (progress callbacks, yields to the host, resource fetches).
    - [Date.now()] is an oracle of the host: its k-th call returns
      [clock host k].
    - What the browser decides by parsing (CSS declarations, URLs, markup,
      selectors) is an oracle of the host as well: its [engine].
    - JavaScript numbers are modelled by [Z] (counters, milliseconds) and by
      exact decimals (the font size, see [JSNumber]). *)

From Stdlib Require Import ZArith QArith Qround List String Ascii Bool Lia.
From Stdlib Require Import DecimalString Sorted.
Import ListNotations.

Set Implicit Arguments.
Set Warnings "-register-all".

Open Scope string_scope.
Open Scope Z_scope.

(* ================================================================== *)
(** * Data model *)
(* ================================================================== *)

(** ** Raster surfaces ([HTMLCanvasElement], [OffscreenCanvas], [ImageData]) *)

(** A pixel is one packed RGBA value; [pixels] is row-major and holds
    [width * height] of them.  [context2d] tells whether
    [getContext('2d')] returns a context. *)
Record Surface : Type := mkSurface {
  width : nat;
  height : nat;
  pixels : list N;
  context2d : bool
}.

(** ** Style declarations *)

(** One declaration of a [CSSStyleDeclaration]: value and priority. *)
Definition Style : Type := list (string * (string * string)).

(** [window.getComputedStyle(node)]: the serialized [cssText] (empty in
    the engines that do not serialize computed styles), the declarations it
    stands for, [transformOrigin], and the per-property view used by
    [getPropertyValue] / [getPropertyPriority]. *)
Record ComputedStyle : Type := mkComputed {
  cssText : string;
  cssDecls : Style;
  transformOrigin : string;
  properties : Style
}.

(** ** Source nodes *)

(** The DOM interface a node implements, as probed by
    [isInstanceOfElement].  [NotElement] covers text and comment nodes. *)
Inductive Interface (N : Type) : Type :=
| NotElement
| OtherElement
| HTMLCanvasElement (surface : Surface)
| HTMLVideoElement (currentSrc poster : string) (frame : Surface)
| HTMLIFrameElement (body : option N)
| HTMLSlotElement (assigned : list N)
| HTMLImageElement
| SVGImageElement
| HTMLTextAreaElement (value : string)
| HTMLInputElement (value : string)
| HTMLSelectElement (value : string).

Arguments NotElement {N}.
Arguments OtherElement {N}.
Arguments HTMLCanvasElement {N}.
Arguments HTMLVideoElement {N}.
Arguments HTMLIFrameElement {N}.
Arguments HTMLSlotElement {N}.
Arguments HTMLImageElement {N}.
Arguments SVGImageElement {N}.
Arguments HTMLTextAreaElement {N}.
Arguments HTMLInputElement {N}.
Arguments HTMLSelectElement {N}.

(** A node of the live document.  [nid] names the node (it plays the role
    of object identity); [style] is the inline [element.style]. *)
Inductive Node : Type := mkNode {
  nid : nat;
  iface : Interface Node;
  tagName : option string;
  attributes : list (string * string);
  style : Style;
  computedStyle : ComputedStyle;
  childNodes : list Node;
  shadowRoot : option (list Node)
}.

(** ** Cloned nodes *)

(** [CNotElement] is the copy of a text or comment node of the document
    (its character data is that of its [origin]); [CText data] is a text
    node made by the HTML parser, with its character data. *)
Inductive CInterface : Type :=
| CNotElement
| COtherElement
| CHTMLImageElement
| CSVGImageElement
| CText (data : string).

(** A node of the detached clone.  [origin] is ghost state: the [nid] of
    the source node the clone was made from, [None] for nodes the library
    synthesizes.  [cstyle] is [None] when [clonedNode.style] is undefined. *)
Inductive CNode : Type := mkCNode {
  origin : option nat;
  ciface : CInterface;
  ctagName : option string;
  cattributes : list (string * string);
  cstyle : option Style;
  cchildNodes : list CNode
}.

(** ** Options ([types.ts]) *)

(** [onProgress] and [onImageErrorHandler] are callbacks of the caller:
    [onProgress] records whether one is configured (its calls are
    [Progress] events); [onImageErrorHandler] is [Some true] for a handler
    that returns and [Some false] for one that throws. *)
Record Options : Type := mkOptions {
  filter : option (Node -> bool);
  includeStyleProperties : option (list string);
  onImageErrorHandler : option bool;
  nonBlocking : bool;
  yieldEvery : option Z;
  yieldBudget : option Z;
  onProgress : bool;
  maxNodes : option Z;
  timeout : option Z;
  _startTime : option Z
}.

(** [interface CloneContext]. *)
Record CloneContext : Type := mkContext {
  nodeCount : Z;
  lastYieldTime : option Z;
  totalNodes : option Z
}.

(** ** The host *)

(** What the browser decides by parsing.
    - [parseDeclaration name value] is what the CSS parser makes of a
      non-empty [value] given to [style.setProperty(name, value)]: the
      declarations to store, as they will be read back (that of the
      property itself for a longhand, those of its longhands for a
      shorthand), or [None] when the name is not a supported property or
      the value is not valid for it.
    - [longhands name] are the declarations
      [style.removeProperty(name)] removes: the property itself for a
      longhand.
    - [resolveURL url] is what the URL parser makes of an attribute value
      relative to the document: the absolute URL, or the value itself when
      it does not parse.
    - [parseFragment text] are the children [textarea.innerHTML = text]
      creates for a text that holds a character the HTML parser does not
      take literally.
    - [matchSelector text] is [None] when [text] is not a valid selector
      ([querySelector] throws a [SyntaxError]); otherwise it tells whether
      the selector matches an element with the given tag name and
      attributes.  Selectors that look beyond the element itself are
      outside the model. *)
Record Engine : Type := mkEngine {
  parseDeclaration : string -> string -> option (list (string * string));
  longhands : string -> list string;
  resolveURL : string -> string;
  parseFragment : string -> list CNode;
  matchSelector : string -> option (option string -> list (string * string) -> bool)
}.

(** What the browser and the modules outside the core provide.
    [resourceToDataURL] is [None] when the promise rejects; [imageLoads]
    tells whether an image element given this source fires [load]
    ([true]) or [error] ([false]). *)
Record Host : Type := mkHost {
  clock : nat -> Z;
  document : list Node;
  offscreenCanvas : bool;
  encodePNG : nat -> nat -> list N -> string;
  resourceToDataURL : string -> option string;
  imageLoads : string -> bool;
  defaultStyleProperties : list string;
  hasPseudoElements : Node -> bool;
  engine : Engine
}.

(** ** Worlds, outcomes and the monad *)

Inductive AbortReason : Type := timeout_reason | max_nodes.

(** [Yield seen]: control was handed to the host scheduler, which could
    observe the traversal context [seen] while the capture was suspended. *)
Inductive Event : Type :=
| Progress (processed total : Z)
| Yield (seen : option CloneContext)
| Fetch (url : string)
| Warn.

Record World : Type := mkWorld {
  _context : option CloneContext;
  reads : nat;
  trace : list Event
}.

(** The result of running one asynchronous function to completion:
    resolved with a value, rejected with a [CaptureAbortedError], rejected
    with any other error, or still running when the fuel of the model ran
    out. *)
Inductive Outcome (A : Type) : Type :=
| Ok (a : A)
| Aborted (reason : AbortReason)
| Failed
| Diverged.

Arguments Ok {A}.
Arguments Aborted {A}.
Arguments Failed {A}.
Arguments Diverged {A}.

Definition M (A : Type) : Type := World -> Outcome A * World.

Definition ret {A} (a : A) : M A := fun w => (Ok a, w).

Definition bind {A B} (m : M A) (k : A -> M B) : M B :=
  fun w =>
    match m w with
    | (Ok a, w') => k a w'
    | (Aborted r, w') => (Aborted r, w')
    | (Failed, w') => (Failed, w')
    | (Diverged, w') => (Diverged, w')
    end.

Declare Scope js_scope.
Delimit Scope js_scope with js.
Notation "x <- m ;; k" := (bind m (fun x => k))
  (at level 61, m at next level, right associativity) : js_scope.
Notation "m ;;; k" := (bind m (fun _ => k))
  (at level 61, right associativity) : js_scope.
Open Scope js_scope.

(** [throw new CaptureAbortedError(_, reason)]. *)
Definition throwAborted {A} (reason : AbortReason) : M A :=
  fun w => (Aborted reason, w).

(** Any other rejection. *)
Definition throwError {A} : M A := fun w => (Failed, w).

Definition diverge {A} : M A := fun w => (Diverged, w).

(** [try { m } catch { handler }]: every rejection is caught, whatever its
    class; the effects [m] had on the world stay. *)
Definition tryCatch {A} (m : M A) (handler : M A) : M A :=
  fun w =>
    match m w with
    | (Ok a, w') => (Ok a, w')
    | (Aborted _, w') => handler w'
    | (Failed, w') => handler w'
    | (Diverged, w') => (Diverged, w')
    end.

Definition emit (e : Event) : M unit :=
  fun w => (Ok tt, mkWorld (_context w) (reads w) (trace w ++ [e])).

Definition getContext : M (option CloneContext) :=
  fun w => (Ok (_context w), w).

Definition setContext (c : CloneContext) : M unit :=
  fun w => (Ok tt, mkWorld (Some c) (reads w) (trace w)).

Section WithHost.

Variable host : Host.

(** [Date.now()]. *)
Definition Date_now : M Z :=
  fun w => (Ok (clock host (reads w)), mkWorld (_context w) (S (reads w)) (trace w)).

(** Modelled from the spec: [yieldToMain()] is declared in [util.d.ts]
    only.  It suspends the current step; the continuation runs on a later
    turn of the host scheduler. *)
Definition yieldToMain : M unit :=
  c <- getContext ;; emit (Yield c).

(** Modelled from the spec: the resource resolver [resourceToDataURL] of
    [dataurl.ts] is not among the sources.  It is a call of the host that
    resolves with the inline form of the resource or rejects. *)
Definition fetchResource (url : string) : M string :=
  emit (Fetch url) ;;;
  match resourceToDataURL host url with
  | Some dataURL => ret dataURL
  | None => throwError
  end.

(** Truthiness of an optional number: [undefined] and [0] are falsy. *)
Definition truthy (o : option Z) : bool :=
  match o with
  | Some z => negb (z =? 0)
  | None => false
  end.

(** [a % b === 0] on integers ([a % 0] is [NaN]). *)
Definition remIsZero (a b : Z) : bool :=
  if b =? 0 then false else Z.rem a b =? 0.

(** The part of [maybeYieldToMain] after the limit check, shared by the
    two copies of the function: progress callback, yield decision, yield. *)
Definition progressAndYield (options : Options) (context : CloneContext) : M unit :=
  (if onProgress options && truthy (totalNodes context)
   then match totalNodes context with
        | Some total => emit (Progress (nodeCount context) total)
        | None => ret tt
        end
   else ret tt) ;;;
  shouldYield <-
    (match yieldBudget options with
     | Some budget =>
         now <- Date_now ;;
         reference <-
           (match lastYieldTime context with
            | Some t => ret t
            | None => match _startTime options with
                      | Some t => ret t
                      | None => Date_now
                      end
            end) ;;
         let timeSinceLastYield := now - reference in
         ret (budget <=? timeSinceLastYield)
     | None =>
         let every := match yieldEvery options with Some n => n | None => 50 end in
         ret (remIsZero (nodeCount context) every)
     end) ;;
  if (shouldYield : bool)
  then
    now <- Date_now ;;
    setContext (mkContext (nodeCount context) (Some now) (totalNodes context)) ;;;
    yieldToMain
  else ret tt.

End WithHost.

(* ================================================================== *)
(** * Strings, attributes and style declarations *)
(* ================================================================== *)

Definition toUpperAscii (c : ascii) : ascii :=
  let n := nat_of_ascii c in
  if (97 <=? n)%nat && (n <=? 122)%nat then ascii_of_nat (n - 32) else c.

(** [String.prototype.toUpperCase] on ASCII text. *)
Fixpoint toUpperCase (s : string) : string :=
  match s with
  | EmptyString => EmptyString
  | String c r => String (toUpperAscii c) (toUpperCase r)
  end.

(** [s.endsWith(suffix)]. *)
Definition endsWith (s suffix : string) : bool :=
  (String.length suffix <=? String.length s)%nat &&
  String.eqb (substring (String.length s - String.length suffix)
                        (String.length suffix) s) suffix.

(** [s.startsWith(p)]. *)
Definition startsWith (s p : string) : bool := String.prefix p s.

Section Assoc.

Variable V : Type.

(** Lookup in an attribute list or a declaration block. *)
Fixpoint assoc (k : string) (l : list (string * V)) : option V :=
  match l with
  | [] => None
  | (k', v) :: r => if String.eqb k k' then Some v else assoc k r
  end.

(** Replace the entry of [k] in place, or append one. *)
Fixpoint upsert (k : string) (v : V) (l : list (string * V)) : list (string * V) :=
  match l with
  | [] => [(k, v)]
  | (k', v') :: r =>
      if String.eqb k k' then (k, v) :: r else (k', v') :: upsert k v r
  end.

Fixpoint remove (k : string) (l : list (string * V)) : list (string * V) :=
  match l with
  | [] => []
  | (k', v') :: r =>
      if String.eqb k k' then remove k r else (k', v') :: remove k r
  end.

End Assoc.

(** [style.getPropertyValue(name)]: the empty string when not set. *)
Definition getPropertyValue (s : Style) (name : string) : string :=
  match assoc name s with
  | Some (v, _) => v
  | None => ""
  end.

Definition getPropertyPriority (s : Style) (name : string) : string :=
  match assoc name s with
  | Some (_, p) => p
  | None => ""
  end.

(** [style.setProperty(name, value, priority)] for a value read from a
    declaration of the same name, as the engine serialized it or with its
    resource references replaced by inline ones: an empty value removes the
    declaration, any other is stored as it is. *)
Definition setProperty (s : Style) (name value priority : string) : Style :=
  if String.eqb value "" then remove name s else upsert name (value, priority) s.

(** One effect of [style.setProperty] on a declaration block: a
    declaration is stored with its value and priority, or removed. *)
Definition Write : Type := (string * option (string * string))%type.

Definition applyWrite (s : Style) (w : Write) : Style :=
  match w with
  | (name, Some declaration) => upsert name declaration s
  | (name, None) => remove name s
  end.

(** The priority [style.setProperty] stores: none, or [important] for an
    ASCII case-insensitive match of that word; any other text makes the
    call return without effect ([None]). *)
Definition storedPriority (priority : string) : option string :=
  if String.eqb priority "" then Some ""
  else if String.eqb (toUpperCase priority) "IMPORTANT" then Some "important"
  else None.

(** [element.getAttribute(name)], [None] for [null]. *)
Definition getAttribute (c : CNode) (name : string) : option string :=
  assoc name (cattributes c).

Definition setAttribute (c : CNode) (name value : string) : CNode :=
  mkCNode (origin c) (ciface c) (ctagName c)
          (upsert name value (cattributes c)) (cstyle c) (cchildNodes c).

Definition setStyle (c : CNode) (s : option Style) : CNode :=
  mkCNode (origin c) (ciface c) (ctagName c) (cattributes c) s (cchildNodes c).

Definition setChildNodes (c : CNode) (kids : list CNode) : CNode :=
  mkCNode (origin c) (ciface c) (ctagName c) (cattributes c) (cstyle c) kids.

(** [node.appendChild(child)]. *)
Definition appendChild (c child : CNode) : CNode :=
  setChildNodes c (cchildNodes c ++ [child]).

(** [isInstanceOfElement(node, Element)] on a clone. *)
Definition isElement (c : CNode) : bool :=
  match ciface c with
  | CNotElement | CText _ => false
  | _ => true
  end.

(** A JavaScript string is truthy when it is not empty. *)
Definition nonEmpty (s : string) : bool := negb (String.eqb s "").

(* ================================================================== *)
(** * [clone-node.ts] *)
(* ================================================================== *)

Module CloneNode.

Section WithHost.

Variable host : Host.

(** [function checkLimits(options)]. *)
Definition checkLimits (options : Options) : M unit :=
  context <- getContext ;;
  (match maxNodes options, context with
   | Some cap, Some c =>
       if truthy (Some cap) && (cap <=? nodeCount c)
       then throwAborted max_nodes
       else ret tt
   | _, _ => ret tt
   end) ;;;
  match timeout options, _startTime options with
  | Some cap, Some start =>
      if truthy (Some cap) && truthy (Some start)
      then
        now <- Date_now host ;;
        let elapsed := now - start in
        if cap <=? elapsed then throwAborted timeout_reason else ret tt
      else ret tt
  | _, _ => ret tt
  end.

(** [async function maybeYieldToMain(options)] of [clone-node.ts]. *)
Definition maybeYieldToMain (options : Options) : M unit :=
  context <- getContext ;;
  match nonBlocking options, context with
  | true, Some c =>
      let c' := mkContext (nodeCount c + 1) (lastYieldTime c) (totalNodes c) in
      setContext c' ;;;
      checkLimits options ;;;
      progressAndYield host options c'
  | _, _ => ret tt
  end.


(** ** Structural helpers *)

Definition cinterfaceOf (i : Interface Node) : CInterface :=
  match i with
  | NotElement => CNotElement
  | HTMLImageElement => CHTMLImageElement
  | SVGImageElement => CSVGImageElement
  | _ => COtherElement
  end.

(** [element.style] of a fresh copy: text and comment nodes have none. *)
Definition styleOfCopy (i : Interface Node) (s : Style) : option Style :=
  match i with
  | NotElement => None
  | _ => Some s
  end.

(** [node.cloneNode(false)]. *)
Definition shallowClone (node : Node) : CNode :=
  mkCNode (Some (nid node)) (cinterfaceOf (iface node)) (tagName node)
          (attributes node) (styleOfCopy (iface node) (style node)) [].

(** [node.cloneNode(true)]: the node with all its light-tree descendants
    (shadow trees and nested documents are not copied). *)
Fixpoint deepClone (node : Node) : CNode :=
  match node with
  | mkNode id i tag attrs st _ kids _ =>
      mkCNode (Some id) (cinterfaceOf i) tag attrs (styleOfCopy i st)
              (map deepClone kids)
  end.

Definition tagIs (tag : option string) (name : string) : bool :=
  match tag with
  | Some t => String.eqb (toUpperCase t) name
  | None => false
  end.

(** [const isSlotElement]. *)
Definition isSlotElement (tag : option string) : bool := tagIs tag "SLOT".

(** [const isSVGElement]. *)
Definition isSVGElement (tag : option string) : bool := tagIs tag "SVG".

(** Modelled from the spec: [createImage] of [util.ts] is not among the
    sources.  It creates an image element with the given source and
    resolves with it once it has loaded; it rejects when loading fails. *)
Definition createImage (url : string) : M CNode :=
  if imageLoads host url
  then ret (mkCNode None CHTMLImageElement (Some "IMG") [("src", url)] (Some []) [])
  else throwError.

(** Ghost: the still image stands for the source node it replaces. *)
Definition standsFor (node : Node) (c : CNode) : CNode :=
  mkCNode (Some (nid node)) (ciface c) (ctagName c) (cattributes c) (cstyle c)
          (cchildNodes c).

(** ** Raster surfaces *)

(** [canvas.toDataURL()]: ['data:,'] for a surface without pixels,
    otherwise the PNG encoding of its content. *)
Definition toDataURL (s : Surface) : string :=
  if ((width s =? 0) || (height s =? 0))%nat then "data:,"
  else ("data:image/png;base64," ++ encodePNG host (width s) (height s) (pixels s))%string.

(** [ctx.getImageData(0, sy, width, sh).data]. *)
Definition getImageData (s : Surface) (sy sh : nat) : list N :=
  firstn (sh * width s) (skipn (sy * width s) (pixels s)).

(** [offCtx.putImageData(imageData, 0, dy)] on a surface [w] pixels wide
    whose pixels are [dst]. *)
Definition putImageData (w : nat) (dst imageData : list N) (dy : nat) : list N :=
  (firstn (dy * w) dst ++ imageData ++ skipn (dy * w + List.length imageData) dst)%list.

Definition STRIP_HEIGHT : nat := 256.

(** [y] and [stripHeight] of the strip of index [i]. *)
Definition stripBounds (height i : nat) : nat * nat :=
  let y := (i * STRIP_HEIGHT)%nat in
  let stripHeight := Nat.min STRIP_HEIGHT (height - y) in
  (y, stripHeight).

(** The strip loop of [canvasToDataURLChunked]: [todo] iterations are
    left, [i] is the loop index, [off] the pixels of the offscreen surface. *)
Fixpoint stripLoop (options : Options) (sourceCanvas : Surface)
         (todo i : nat) (off : list N) : M (list N) :=
  match todo with
  | O => ret off
  | S todo' =>
      let '(y, stripHeight) := stripBounds (height sourceCanvas) i in
      let imageData := getImageData sourceCanvas y stripHeight in
      let off' := putImageData (width sourceCanvas) off imageData y in
      (if nonBlocking options && (i mod 4 =? 3)%nat then yieldToMain else ret tt) ;;;
      stripLoop options sourceCanvas todo' (S i) off'
  end.

(** [Math.ceil(height / STRIP_HEIGHT)]. *)
Definition totalStrips (height : nat) : nat :=
  ((height + (STRIP_HEIGHT - 1)) / STRIP_HEIGHT)%nat.

(** The surface assembled by the chunked path: a fresh (transparent)
    [OffscreenCanvas] of the same size, filled strip by strip. *)
Definition assembleOffscreen (sourceCanvas : Surface) (options : Options) : M Surface :=
  let width := width sourceCanvas in
  let height := height sourceCanvas in
  let offscreen := repeat 0%N (width * height) in
  off <- stripLoop options sourceCanvas (totalStrips height) 0 offscreen ;;
  ret (mkSurface width height off true).

(** [async function canvasToDataURLChunked(sourceCanvas, options)].  The
    offscreen surface always has a 2d context; [convertToBlob] followed by
    [readAsDataURL] is the PNG data URL of the assembled surface. *)
Definition canvasToDataURLChunked (sourceCanvas : Surface) (options : Options) : M string :=
  if negb (context2d sourceCanvas) then ret (toDataURL sourceCanvas)
  else
    offscreen <- assembleOffscreen sourceCanvas options ;;
    ret (toDataURL offscreen).

(** [async function cloneCanvasElement(canvas, options)].  The [return
    createImage(..)] statements are not awaited inside the [try], so only
    the chunked conversion is covered by the [catch]. *)
Definition cloneCanvasElement (node : Node) (canvas : Surface) (options : Options) : M CNode :=
  let testDataURL := toDataURL canvas in
  if String.eqb testDataURL "data:," then ret (shallowClone node)
  else
    let isLargeCanvas := (500000 <? N.of_nat (width canvas) * N.of_nat (height canvas))%N in
    if negb isLargeCanvas || negb (offscreenCanvas host)
    then img <- createImage testDataURL ;; ret (standsFor node img)
    else
      dataURL <- tryCatch (canvasToDataURLChunked canvas options)
                          (emit Warn ;;; ret (toDataURL canvas)) ;;
      img <- createImage dataURL ;;
      ret (standsFor node img).

(** [async function cloneVideoElement(video, options)]; [frame] is the
    transient canvas after [drawImage]. *)
Definition cloneVideoElement (node : Node) (currentSrc poster : string)
           (frame : Surface) (options : Options) : M CNode :=
  if nonEmpty currentSrc
  then img <- createImage (toDataURL frame) ;; ret (standsFor node img)
  else
    dataURL <- fetchResource host poster ;;
    img <- createImage dataURL ;;
    ret (standsFor node img).

(** ** Decoration *)

Definition digitValue (c : ascii) : option Z :=
  let n := nat_of_ascii c in
  if (48 <=? n)%nat && (n <=? 57)%nat then Some (Z.of_nat (n - 48)) else None.

(** The longest run of decimal digits at the head of [s]: its value (on top
    of [acc]), the number of digits read, and what follows. *)
Fixpoint readDigits (s : string) (acc : Z) (count : nat) : Z * nat * string :=
  match s with
  | EmptyString => (acc, count, s)
  | String c r =>
      match digitValue c with
      | Some d => readDigits r (10 * acc + d) (S count)
      | None => (acc, count, s)
      end
  end.

(** A JavaScript number, as the arithmetic on the font size meets it.  A
    finite number is an exact decimal. *)
Inductive JSNumber : Type :=
| NaN
| Infinite (negative : bool)
| Finite (q : Q).

(** The white space [parseFloat] skips at the head of its argument. *)
Definition isWhiteSpace (c : ascii) : bool :=
  let n := nat_of_ascii c in
  ((9 <=? n)%nat && (n <=? 13)%nat) || (n =? 32)%nat.

Fixpoint trimStart (s : string) : string :=
  match s with
  | EmptyString => s
  | String c r => if isWhiteSpace c then trimStart r else s
  end.

Definition readSign (s : string) : bool * string :=
  match s with
  | String "-" r => (true, r)
  | String "+" r => (false, r)
  | _ => (false, s)
  end.

(** A decimal literal: sign, digits before and after the point with their
    number, and exponent. *)
Record Literal : Type := mkLiteral {
  minus : bool;
  whole : Z;
  wholeDigits : nat;
  fraction : Z;
  fractionDigits : nat;
  exponent : Z
}.

(** The longest decimal literal at the head of [s]: an optional sign,
    digits with an optional fraction (one of the two may be empty), and an
    exponent when the letter [e] is followed by at least one digit. *)
Definition readLiteral (s : string) : option Literal :=
  let '(negative, s1) := readSign s in
  let '(w, nw, s2) := readDigits s1 0 0 in
  let '(f, nf, s3) :=
    match s2 with
    | String "." r => readDigits r 0 0
    | _ => (0, 0%nat, s2)
    end in
  if (nw + nf =? 0)%nat then None
  else
    let e :=
      match s3 with
      | String c r =>
          if Ascii.eqb c "e" || Ascii.eqb c "E"
          then
            let '(down, r1) := readSign r in
            let '(ev, en, _) := readDigits r1 0 0 in
            if (en =? 0)%nat then 0 else if (down : bool) then - ev else ev
          else 0
      | EmptyString => 0
      end in
    Some (mkLiteral negative w nw f nf e).

Definition literalValue (l : Literal) : Q :=
  let magnitude :=
    ((inject_Z (whole l) +
      Qmake (fraction l) (Z.to_pos (10 ^ Z.of_nat (fractionDigits l)))) *
     Qpower (inject_Z 10) (exponent l))%Q in
  if minus l then Qopp magnitude else magnitude.

(** [parseFloat(s)]: leading white space is skipped, what follows the
    literal is ignored, and a text that starts with neither a literal nor
    [Infinity] gives [NaN]. *)
Definition parseFloat (s : string) : JSNumber :=
  let s := trimStart s in
  if startsWith (snd (readSign s)) "Infinity" then Infinite (fst (readSign s))
  else
    match readLiteral s with
    | Some l => Finite (literalValue l)
    | None => NaN
    end.

Definition zToString (z : Z) : string := NilZero.string_of_int (Z.to_int z).

(** [String(x)] for [NaN], the infinities and the finite numbers with at
    most one decimal digit. *)
Definition numberToString (x : JSNumber) : string :=
  match x with
  | NaN => "NaN"
  | Infinite negative => if negative then "-Infinity" else "Infinity"
  | Finite q =>
      let tenths := Qfloor (q * inject_Z 10) in
      let whole := Z.abs tenths / 10 in
      let digit := Z.abs tenths mod 10 in
      let sign := if tenths <? 0 then "-" else "" in
      let fraction := if digit =? 0 then "" else ("." ++ zToString digit)%string in
      (sign ++ zToString whole ++ fraction)%string
  end.

(** [Math.floor(parseFloat(value.substring(0, value.length - 2))) - 0.1]. *)
Definition reducedFont (value : string) : JSNumber :=
  match parseFloat (substring 0 (String.length value - 2) value) with
  | Finite x => Finite (inject_Z (Qfloor x) - (1 # 10))%Q
  | Infinite negative => Infinite negative
  | NaN => NaN
  end.

(** Modelled from the spec: [getStyleProperties(options)] is declared in
    [util.d.ts] only.  It gives the configured allow-list of style
    properties, or the one of the host when none is configured. *)
Definition getStyleProperties (options : Options) : list string :=
  match includeStyleProperties options with
  | Some names => names
  | None => defaultStyleProperties host
  end.

Definition isIFrame (node : Node) : bool :=
  match iface node with
  | HTMLIFrameElement _ => true
  | _ => false
  end.

(** The value the [forEach] callback of [cloneCSSStyle] passes to
    [setProperty] for [name]. *)
Definition adjustedValue (nativeNode : Node) (clonedNode : CNode) (name : string) : string :=
  let sourceStyle := properties (computedStyle nativeNode) in
  let value := getPropertyValue sourceStyle name in
  let value :=
    if String.eqb name "font-size" && endsWith value "px"
    then (numberToString (reducedFont value) ++ "px")%string
    else value in
  let value :=
    if isIFrame nativeNode && String.eqb name "display" && String.eqb value "inline"
    then "block"
    else value in
  match getAttribute clonedNode "d" with
  | Some d =>
      if String.eqb name "d" && nonEmpty d then ("path(" ++ d ++ ")")%string else value
  | None => value
  end.

(** What [targetStyle.setProperty(name, value, priority)] writes for a
    value the library computed, as the CSS parser of the host decides: an
    empty value removes the declarations of the property; a priority that
    is neither empty nor [important], a name the engine does not support
    and a value that is not valid for the property write nothing. *)
Definition written (name value priority : string) : list Write :=
  if String.eqb value ""
  then map (fun k => (k, None)) (longhands (engine host) name)
  else
    match storedPriority priority, parseDeclaration (engine host) name value with
    | Some p, Some declarations =>
        map (fun d => (fst d, Some (snd d, p))) declarations
    | _, _ => []
    end.

Definition setParsedProperty (s : Style) (name value priority : string) : Style :=
  fold_left applyWrite (written name value priority) s.

(** [function cloneCSSStyle(nativeNode, clonedNode, options)].  The
    serialized text and the transform origin come from the engine and are
    stored as they are; the values of the per-property path go through the
    parser. *)
Definition cloneCSSStyle (nativeNode : Node) (clonedNode : CNode)
           (options : Options) : CNode :=
  match cstyle clonedNode with
  | None => clonedNode
  | Some targetStyle =>
      let sourceStyle := computedStyle nativeNode in
      if nonEmpty (cssText sourceStyle)
      then
        setStyle clonedNode
          (Some (setProperty (cssDecls sourceStyle) "transform-origin"
                             (transformOrigin sourceStyle) ""))
      else
        setStyle clonedNode
          (Some (fold_left
                   (fun targetStyle name =>
                      setParsedProperty targetStyle name
                        (adjustedValue nativeNode clonedNode name)
                        (getPropertyPriority (properties sourceStyle) name))
                   (getStyleProperties options) targetStyle))
  end.

(** Modelled from the spec: [clonePseudoElements] of [clone-pseudos.ts] is
    not among the sources.  For a node with generated content it attaches
    the equivalent styling to the clone, as a synthesized style element. *)
Definition clonePseudoElements (nativeNode : Node) (clonedNode : CNode)
           (options : Options) : CNode :=
  if hasPseudoElements host nativeNode
  then appendChild clonedNode
         (mkCNode None COtherElement (Some "STYLE") [] (Some []) [])
  else clonedNode.

(** A text node made by the HTML parser. *)
Definition textNode (data : string) : CNode :=
  mkCNode None (CText data) None [] None [].

(** The characters the HTML parser does not take literally in the content
    of a [textarea]: the ampersand, the less-than sign, the carriage return
    and the null character. *)
Definition isMarkup (c : ascii) : bool :=
  let n := nat_of_ascii c in
  (n =? 38)%nat || (n =? 60)%nat || (n =? 13)%nat || (n =? 0)%nat.

Fixpoint plainText (s : string) : bool :=
  match s with
  | EmptyString => true
  | String c r => negb (isMarkup c) && plainText r
  end.

(** The children [textarea.innerHTML = value] leaves: none for the empty
    string, one text node holding the text when every character is taken
    literally, and what the parser of the host makes of it otherwise. *)
Definition innerHTML (value : string) : list CNode :=
  if plainText value
  then if nonEmpty value then [textNode value] else []
  else parseFragment (engine host) value.

(** [function cloneInputValue(nativeNode, clonedNode)]. *)
Definition cloneInputValue (nativeNode : Node) (clonedNode : CNode) : CNode :=
  match iface nativeNode with
  | HTMLTextAreaElement value => setChildNodes clonedNode (innerHTML value)
  | HTMLInputElement value => setAttribute clonedNode "value" value
  | _ => clonedNode
  end.

(** Mark the first element child whose [value] attribute is [value]. *)
Fixpoint selectOption (value : string) (children : list CNode) : list CNode :=
  match children with
  | [] => []
  | child :: rest =>
      if isElement child &&
         match getAttribute child "value" with
         | Some v => String.eqb value v
         | None => false
         end
      then setAttribute child "selected" "" :: rest
      else child :: selectOption value rest
  end.

(** [function cloneSelectValue(nativeNode, clonedNode)]. *)
Definition cloneSelectValue (nativeNode : Node) (clonedNode : CNode) : CNode :=
  match iface nativeNode with
  | HTMLSelectElement value =>
      setChildNodes clonedNode (selectOption value (cchildNodes clonedNode))
  | _ => clonedNode
  end.

(** [function decorate(nativeNode, clonedNode, options)]. *)
Definition decorate (nativeNode : Node) (clonedNode : CNode)
           (options : Options) : CNode :=
  if isElement clonedNode
  then
    let clonedNode := cloneCSSStyle nativeNode clonedNode options in
    let clonedNode := clonePseudoElements nativeNode clonedNode options in
    let clonedNode := cloneInputValue nativeNode clonedNode in
    cloneSelectValue nativeNode clonedNode
  else clonedNode.

(** ** Selectors *)

(** The descendants of a clone, in document order. *)
Fixpoint descendants (c : CNode) : list CNode :=
  match c with
  | mkCNode _ _ _ _ _ kids => flat_map (fun k => k :: descendants k) kids
  end.

(** The light-tree descendants of a source node, in document order. *)
Fixpoint nodeDescendants (n : Node) : list Node :=
  match n with
  | mkNode _ _ _ _ _ _ kids _ => flat_map (fun k => k :: nodeDescendants k) kids
  end.

(** [clone.querySelectorAll('use')]. *)
Definition querySelectorAll_use (clone : CNode) : list CNode :=
  List.filter (fun c => isElement c && tagIs (ctagName c) "USE") (descendants clone).

(** [clone.querySelector(selector)]: the first descendant element the
    selector matches, a [SyntaxError] when the text is not a selector. *)
Definition querySelector (clone : CNode) (selector : string) : M (option CNode) :=
  match matchSelector (engine host) selector with
  | Some matches =>
      ret (List.find
             (fun c => isElement c && matches (ctagName c) (cattributes c))
             (descendants clone))
  | None => throwError
  end.

(** [document.querySelector(selector)]. *)
Definition document_querySelector (selector : string) : M (option Node) :=
  match matchSelector (engine host) selector with
  | Some matches =>
      ret (List.find
             (fun n => match iface n with NotElement => false | _ => true end &&
                       matches (tagName n) (attributes n))
             (flat_map (fun r => r :: nodeDescendants r) (document host)))
  | None => throwError
  end.

(** The names a JavaScript object inherits from [Object.prototype]:
    [processedDefs[id]] is truthy for them before anything is stored. *)
Definition inheritedKeys : list string :=
  ["constructor"; "__proto__"; "hasOwnProperty"; "isPrototypeOf";
   "propertyIsEnumerable"; "toLocaleString"; "toString"; "valueOf";
   "__defineGetter__"; "__defineSetter__"; "__lookupGetter__"; "__lookupSetter__"].

Definition inherited (key : string) : bool :=
  existsb (String.eqb key) inheritedKeys.

(** ** The recursive clone, by open recursion on [cloneNode] *)

Section Recursion.

Variable cloneNode : Node -> Options -> bool -> M (option CNode).

(** [async function cloneIFrameElement(iframe, options)]. *)
Definition cloneIFrameElement (node : Node) (body : option Node)
           (options : Options) : M (option CNode) :=
  r <- tryCatch
         (match body with
          | Some b => c <- cloneNode b options true ;; ret (Some c)
          | None => ret None
          end)
         (ret None) ;;
  match r with
  | Some c => ret c
  | None => ret (Some (shallowClone node))
  end.

(** [async function cloneSingleNode(node, options)]. *)
Definition cloneSingleNode (node : Node) (options : Options) : M (option CNode) :=
  match iface node with
  | HTMLCanvasElement canvas =>
      c <- cloneCanvasElement node canvas options ;; ret (Some c)
  | HTMLVideoElement currentSrc poster frame =>
      c <- cloneVideoElement node currentSrc poster frame options ;; ret (Some c)
  | HTMLIFrameElement body => cloneIFrameElement node body options
  | _ =>
      ret (Some (if isSVGElement (tagName node) then deepClone node
                 else shallowClone node))
  end.

(** The children a node contributes, as selected by [cloneChildren]. *)
Definition childrenOf (nativeNode : Node) : list Node :=
  let ownChildren :=
    match shadowRoot nativeNode with
    | Some kids => kids
    | None => childNodes nativeNode
    end in
  match iface nativeNode with
  | HTMLSlotElement assigned =>
      if isSlotElement (tagName nativeNode) then assigned else ownChildren
  | HTMLIFrameElement (Some body) => childNodes body
  | _ => ownChildren
  end.

Definition isVideo (node : Node) : bool :=
  match iface node with
  | HTMLVideoElement _ _ _ => true
  | _ => false
  end.

(** The [for (const child of children)] loop of [cloneChildren]. *)
Fixpoint cloneChildrenLoop (options : Options) (children : list Node)
         (clonedNode : CNode) : M CNode :=
  match children with
  | [] => ret clonedNode
  | child :: rest =>
      maybeYieldToMain options ;;;
      clonedChild <- cloneNode child options false ;;
      cloneChildrenLoop options rest
        (match clonedChild with
         | Some c => appendChild clonedNode c
         | None => clonedNode
         end)
  end.

(** [async function cloneChildren(nativeNode, clonedNode, options)]. *)
Definition cloneChildren (nativeNode : Node) (clonedNode : CNode)
           (options : Options) : M CNode :=
  if isSVGElement (ctagName clonedNode) then ret clonedNode
  else
    let children := childrenOf nativeNode in
    if (List.length children =? 0)%nat || isVideo nativeNode then ret clonedNode
    else cloneChildrenLoop options children clonedNode.

(** The [for] loop of [ensureSVGSymbols] over the [use] elements. *)
Fixpoint usesLoop (options : Options) (clone : CNode) (uses : list CNode)
         (processedDefs : list (string * CNode)) : M (list (string * CNode)) :=
  match uses with
  | [] => ret processedDefs
  | use :: rest =>
      maybeYieldToMain options ;;;
      processedDefs' <-
        (match getAttribute use "xlink:href" with
         | Some id =>
             if nonEmpty id
             then
               exist <- querySelector clone id ;;
               definition <- document_querySelector id ;;
               match exist, definition, assoc id processedDefs with
               | None, Some d, None =>
                   if inherited id then ret processedDefs
                   else
                     r <- cloneNode d options true ;;
                     match r with
                     | Some c => ret (upsert id c processedDefs)
                     | None => throwError
                     end
               | _, _, _ => ret processedDefs
               end
             else ret processedDefs
         | None => ret processedDefs
         end) ;;
      usesLoop options clone rest processedDefs'
  end.

(** The hidden container appended by [ensureSVGSymbols]. *)
Definition symbolContainer (nodes : list CNode) : CNode :=
  let defs := mkCNode None COtherElement (Some "DEFS") [] (Some []) nodes in
  mkCNode None COtherElement (Some "SVG")
          [("xmlns", "http://www.w3.org/1999/xhtml")]
          (Some [("position", ("absolute", "")); ("width", ("0", ""));
                 ("height", ("0", "")); ("overflow", ("hidden", ""));
                 ("display", ("none", ""))])
          [defs].

(** [async function ensureSVGSymbols(clone, options)]. *)
Definition ensureSVGSymbols (clone : CNode) (options : Options) : M CNode :=
  let uses := querySelectorAll_use clone in
  if (List.length uses =? 0)%nat then ret clone
  else
    processedDefs <- usesLoop options clone uses [] ;;
    let nodes := map snd processedDefs in
    if (List.length nodes =? 0)%nat then ret clone
    else ret (appendChild clone (symbolContainer nodes)).

End Recursion.

(** [export async function cloneNode(node, options, isRoot)].  The fuel
    bounds the depth of the recursion; [Diverged] is the outcome when it is
    exhausted. *)
Fixpoint cloneNode (fuel : nat) (node : Node) (options : Options)
         (isRoot : bool) : M (option CNode) :=
  match fuel with
  | O => diverge
  | S fuel' =>
      if negb isRoot &&
         match filter options with
         | Some f => negb (f node)
         | None => false
         end
      then ret None
      else
        clonedNode <- cloneSingleNode (cloneNode fuel') node options ;;
        match clonedNode with
        | None => throwError
        | Some clonedNode =>
            clonedNode <- cloneChildren (cloneNode fuel') node clonedNode options ;;
            let clonedNode := decorate node clonedNode options in
            clonedNode <- ensureSVGSymbols (cloneNode fuel') clonedNode options ;;
            ret (Some clonedNode)
        end
  end.

End WithHost.

End CloneNode.

(* ================================================================== *)
(** * [embed-images.ts] *)
(* ================================================================== *)

Module EmbedImages.

Section WithHost.

Variable host : Host.

(** [async function maybeYieldToMain(options)] of [embed-images.ts]: the
    same function without the limit check. *)
Definition maybeYieldToMain (options : Options) : M unit :=
  context <- getContext ;;
  match nonBlocking options, context with
  | true, Some c =>
      let c' := mkContext (nodeCount c + 1) (lastYieldTime c) (totalNodes c) in
      setContext c' ;;;
      progressAndYield host options c'
  | _, _ => ret tt
  end.


(** Modelled from the spec: [isDataUrl] of [dataurl.ts] is not among the
    sources.  It recognizes an inline reference. *)
Definition isDataUrl (url : string) : bool := startsWith url "data:".

(** ** Resource references inside a declaration text *)

(** A declaration text is a sequence of plain characters and of references
    [url(raw)]; [raw] keeps its quotes. *)
Inductive Segment : Type :=
| Literal (c : ascii)
| Reference (raw : string).

(** The text before the first closing parenthesis, and the text after it. *)
Fixpoint splitAtClose (s : string) : option (string * string) :=
  match s with
  | EmptyString => None
  | String c r =>
      if Ascii.eqb c ")" then Some (EmptyString, r)
      else match splitAtClose r with
           | Some (raw, rest) => Some (String c raw, rest)
           | None => None
           end
  end.

(** What follows the prefix [p] in [s], when [s] starts with [p]. *)
Fixpoint stripPrefix (p s : string) : option string :=
  match p, s with
  | EmptyString, _ => Some s
  | String a p', String b s' => if Ascii.eqb a b then stripPrefix p' s' else None
  | String _ _, EmptyString => None
  end.

(** The segments of a declaration text; the fuel is the length of the
    text, every step consumes at least one character. *)
Fixpoint segments (fuel : nat) (s : string) : list Segment :=
  match fuel with
  | O => []
  | S fuel' =>
      match s with
      | EmptyString => []
      | String c r =>
          match stripPrefix "url(" s with
          | Some inner =>
              match splitAtClose inner with
              | Some (raw, rest) => Reference raw :: segments fuel' rest
              | None => Literal c :: segments fuel' r
              end
          | None => Literal c :: segments fuel' r
          end
      end
  end.

Fixpoint render (segs : list Segment) : string :=
  match segs with
  | [] => ""
  | Literal c :: r => String c (render r)
  | Reference raw :: r => ("url(" ++ raw ++ ")" ++ render r)%string
  end.

(** The quote characters, ['] and the double quote (code 34). *)
Definition isQuote (c : ascii) : bool :=
  Ascii.eqb c "'" || Ascii.eqb c (ascii_of_nat 34).

(** Split [raw] into its quote (possibly empty) and the URL it holds. *)
Definition unquote (raw : string) : string * string :=
  match raw with
  | String q r =>
      if isQuote q && endsWith r (String q "")
      then (String q "", substring 0 (String.length r - 1) r)
      else ("", raw)
  | EmptyString => ("", raw)
  end.

Fixpoint embedSegments (segs : list Segment) : M (list Segment) :=
  match segs with
  | [] => ret []
  | Literal c :: r =>
      r' <- embedSegments r ;;
      ret (Literal c :: r')
  | Reference raw :: r =>
      let '(quote, url) := unquote raw in
      seg <-
        (if isDataUrl url then ret (Reference raw)
         else
           dataURL <- fetchResource host url ;;
           ret (Reference (quote ++ dataURL ++ quote)%string)) ;;
      r' <- embedSegments r ;;
      ret (seg :: r')
  end.

(** Modelled from the spec: [embedResources] of [embed-resources.ts] is
    not among the sources.  It locates every external-resource reference
    inside the declaration text, resolves each through the resource
    resolver and substitutes the resolved inline form, preserving the rest
    of the text. *)
Definition embedResources (cssText : string) (options : Options) : M string :=
  segs <- embedSegments (segments (String.length cssText) cssText) ;;
  ret (render segs).

(** ** The embedding walk *)

(** [async function embedProp(propName, node, options)]: whether the
    property was embedded, and the node after it. *)
Definition embedProp (propName : string) (node : CNode) (options : Options)
  : M (bool * CNode) :=
  match cstyle node with
  | None => ret (false, node)
  | Some st =>
      let propValue := getPropertyValue st propName in
      if nonEmpty propValue
      then
        cssString <- embedResources propValue options ;;
        ret (true,
             setStyle node
               (Some (setProperty st propName cssString
                                  (getPropertyPriority st propName))))
      else ret (false, node)
  end.

(** [(await a) || (await b)] on embedding steps. *)
Definition orElse (a : M (bool * CNode)) (b : CNode -> M (bool * CNode))
  : M (bool * CNode) :=
  r <- a ;;
  if fst r then ret r else b (snd r).

(** [async function embedBackground(clonedNode, options)]. *)
Definition embedBackground (clonedNode : CNode) (options : Options) : M CNode :=
  r <- orElse (embedProp "background" clonedNode options)
              (fun n => embedProp "background-image" n options) ;;
  r <- orElse (orElse (orElse (embedProp "mask" (snd r) options)
                              (fun n => embedProp "-webkit-mask" n options))
                      (fun n => embedProp "mask-image" n options))
              (fun n => embedProp "-webkit-mask-image" n options) ;;
  ret (snd r).

Definition attributeOr (c : CNode) (name : string) : string :=
  match getAttribute c name with
  | Some v => v
  | None => ""
  end.

(** [image.src]: the [src] attribute resolved against the document, the
    empty string without the attribute.  An inline reference is absolute
    and stays inline. *)
Definition src (clonedNode : CNode) : string :=
  match getAttribute clonedNode "src" with
  | Some url => if isDataUrl url then url else resolveURL (engine host) url
  | None => ""
  end.

(** The attribute [image.href] reflects on an SVG image: [href], or
    [xlink:href] when that is the only one present. *)
Definition hrefAttribute (clonedNode : CNode) : string :=
  match getAttribute clonedNode "href", getAttribute clonedNode "xlink:href" with
  | None, Some _ => "xlink:href"
  | _, _ => "href"
  end.

(** [image.href.baseVal]: the text of the reflected attribute. *)
Definition href_baseVal (clonedNode : CNode) : string :=
  attributeOr clonedNode (hrefAttribute clonedNode).

(** [image.loading === 'lazy']: on an HTML image the property reflects the
    attribute without regard to case; an SVG image has no such property. *)
Definition lazy (clonedNode : CNode) : bool :=
  match ciface clonedNode with
  | CHTMLImageElement =>
      String.eqb (toUpperCase (attributeOr clonedNode "loading")) "LAZY"
  | _ => false
  end.

(** [async function embedImageNode(clonedNode, options)]. *)
Definition embedImageNode (clonedNode : CNode) (options : Options) : M CNode :=
  let isImageElement :=
    match ciface clonedNode with CHTMLImageElement => true | _ => false end in
  let isSVGImage :=
    match ciface clonedNode with CSVGImageElement => true | _ => false end in
  if negb (isImageElement && negb (isDataUrl (src clonedNode))) &&
     negb (isSVGImage && negb (isDataUrl (href_baseVal clonedNode)))
  then ret clonedNode
  else
    let url := if isImageElement then src clonedNode
               else href_baseVal clonedNode in
    dataURL <- fetchResource host url ;;
    let image :=
      if lazy clonedNode
      then setAttribute clonedNode "loading" "eager"
      else clonedNode in
    let image :=
      if isImageElement
      then setAttribute (setAttribute image "srcset" "") "src" dataURL
      else setAttribute image (hrefAttribute clonedNode) dataURL in
    if imageLoads host dataURL then ret image
    else
      match onImageErrorHandler options with
      | Some true => ret image
      | Some false => throwError
      | None => throwError
      end.

Section Walk.

Variable embedImages : CNode -> M CNode.
Variable options : Options.

(** [async function embedChildren(clonedNode, options)], on the children. *)
Fixpoint embedChildren (children : list CNode) : M (list CNode) :=
  match children with
  | [] => ret []
  | child :: rest =>
      maybeYieldToMain options ;;;
      child' <- embedImages child ;;
      rest' <- embedChildren rest ;;
      ret (child' :: rest')
  end.

End Walk.

(** [export async function embedImages(clonedNode, options)].  Embedding
    a node's own properties leaves its children as they are. *)
Fixpoint embedImages (clonedNode : CNode) (options : Options) : M CNode :=
  match clonedNode with
  | mkCNode _ _ _ _ _ children =>
      if isElement clonedNode
      then
        n <- embedBackground clonedNode options ;;
        n <- embedImageNode n options ;;
        children' <- embedChildren (fun c => embedImages c options) options children ;;
        ret (setChildNodes n children')
      else ret clonedNode
  end.

End WithHost.

End EmbedImages.

(* ================================================================== *)
(** * [index.ts] *)
(* ================================================================== *)

Module Index.

Section WithHost.

Variable host : Host.

Definition isElementNode (n : Node) : bool :=
  match iface n with
  | NotElement => false
  | _ => true
  end.

(** [function estimateDOMComplexity(node)]:
    [node.querySelectorAll('*').length + 1]. *)
Definition estimateDOMComplexity (node : Node) : Z :=
  Z.of_nat (List.length (List.filter isElementNode (CloneNode.nodeDescendants node))) + 1.

Definition withStartTime (options : Options) (t : Z) : Options :=
  mkOptions (filter options) (includeStyleProperties options)
            (onImageErrorHandler options) (nonBlocking options)
            (yieldEvery options) (yieldBudget options) (onProgress options)
            (maxNodes options) (timeout options) (Some t).

(** [function initializeOptions(node, options)]; [Math.floor(n * 2.5)] is
    [5 * n / 2]. *)
Definition initializeOptions (node : Node) (options : Options) : M Options :=
  if nonBlocking options || truthy (maxNodes options) ||
     truthy (timeout options) || onProgress options
  then
    let domNodes := estimateDOMComplexity node in
    let estimatedTotalOps := (5 * domNodes) / 2 in
    t <- Date_now host ;;
    setContext (mkContext 0 (Some t) (Some estimatedTotalOps)) ;;;
    start <- Date_now host ;;
    ret (withStartTime options start)
  else ret options.

(** [function checkDOMComplexity(node, options)]. *)
Definition checkDOMComplexity (node : Node) (options : Options) : M unit :=
  match maxNodes options with
  | Some cap =>
      if truthy (Some cap)
      then
        let nodeCount := estimateDOMComplexity node in
        if cap <? nodeCount then throwAborted max_nodes else ret tt
      else ret tt
  | None => ret tt
  end.

(** [export async function toSvg(node, options)], up to the hand-off to
    the renderer: the value is the cloned and embedded tree.  The font
    embedding, [applyStyle] and the serialization to a data URL act on the
    finished clone and belong to the rendering side; they are not among
    the sources. *)
Definition toSvg (fuel : nat) (node : Node) (options : Options) : M CNode :=
  opts <- initializeOptions node options ;;
  checkDOMComplexity node opts ;;;
  clonedNode <- CloneNode.cloneNode host fuel node opts true ;;
  match clonedNode with
  | Some clonedNode => EmbedImages.embedImages host clonedNode opts
  | None => throwError
  end.

(** The world a capture starts in. *)
Definition initialWorld : World := mkWorld None 0 [].

End WithHost.

End Index.

(* ================================================================== *)
(** * Concrete documents, hosts and options *)
(* ================================================================== *)

Definition noComputedStyle : ComputedStyle := mkComputed "" [] "" [].

(** An element without attributes or styles. *)
Definition element (id : nat) (tag : string) (children : list Node) : Node :=
  mkNode id OtherElement (Some tag) [] [] noComputedStyle children None.

(** A text node. *)
Definition text (id : nat) : Node :=
  mkNode id NotElement None [] [] noComputedStyle [] None.

(** An inline frame showing the document whose body is [body]. *)
Definition iframe (id : nat) (body : option Node) : Node :=
  mkNode id (HTMLIFrameElement body) (Some "IFRAME") [] [] noComputedStyle [] None.

(** The name of the ID selector [#name]. *)
Definition idSelector (selector : string) : option string :=
  match selector with
  | String "#" name => if nonEmpty name then Some name else None
  | _ => None
  end.

(** An engine for the documents below.  Every property is a longhand and
    every value is stored as written, except a negative [font-size], which
    is not valid; relative URLs resolve against [http://localhost/]; the
    selectors are the ID selectors.  No text area below holds markup. *)
Definition plainEngine : Engine :=
  mkEngine
    (fun name value =>
       if String.eqb name "font-size" && startsWith value "-" then None
       else Some [(name, value)])
    (fun name => [name])
    (fun url => ("http://localhost/" ++ url)%string)
    (fun _ => [])
    (fun selector =>
       match idSelector selector with
       | Some name =>
           Some (fun _ attrs =>
                   match assoc "id" attrs with
                   | Some v => String.eqb v name
                   | None => false
                   end)
       | None => None
       end).

(** A host with the given clock and document: chunked processing is
    available, every image loads, no resource resolves, and the engine is
    [plainEngine]. *)
Definition hostWith (clock : nat -> Z) (document : list Node) : Host :=
  mkHost clock document true (fun _ _ _ => "") (fun _ => None)
         (fun _ => true) [] (fun _ => false) plainEngine.

(** A clock that starts at [start] and advances by [step] at every read. *)
Definition steadyClock (start step : Z) (reads : nat) : Z :=
  start + step * Z.of_nat reads.

(** The options [{}]. *)
Definition defaultOptions : Options :=
  mkOptions None None None false None None false None None None.

(** The options [{ nonBlocking: true, onProgress, maxNodes, timeout, yieldEvery }]. *)
Definition cooperativeOptions (onProgress : bool) (maxNodes timeout yieldEvery : option Z)
  : Options :=
  mkOptions None None None true yieldEvery None onProgress maxNodes timeout None.

(** [<p>Hello <b>big</b> world</p>]: two elements and three text nodes. *)
Definition paragraph : Node :=
  element 1 "P" [text 2; element 3 "B" [text 4]; text 5].

(** A raster surface of 1000 x 501 pixels (501,000 pixels, above the
    threshold), filled with one colour. *)
Definition largeSurface : Surface :=
  mkSurface 1000 501 (repeat 4278190335%N (1000 * 501)) true.

(** The same host where [OffscreenCanvas] is not available. *)
Definition withoutOffscreen (host : Host) : Host :=
  mkHost (clock host) (document host) false (encodePNG host)
         (resourceToDataURL host) (imageLoads host)
         (defaultStyleProperties host) (hasPseudoElements host) (engine host).

(** An element whose computed [font-size] is [value], in an engine that
    does not serialize computed styles. *)
Definition sized (value : string) : Node :=
  mkNode 1 OtherElement (Some "DIV") [] []
         (mkComputed "" [] "" [("font-size", (value, ""))]) [] None.

(** A clone whose inline [font-size] is [value]. *)
Definition fontSized (value : string) : CNode :=
  mkCNode (Some 1%nat) COtherElement (Some "DIV") []
          (Some [("font-size", (value, ""))]) [].

(** The options [{ includeStyleProperties: ['font-size'] }]. *)
Definition fontSizeOnly : Options :=
  mkOptions None (Some ["font-size"]) None false None None false None None None.

(** A clone that is already embedded: a [div] with an inline background
    holding an image whose source is inline, lazily loaded. *)
Definition embeddedClone : CNode :=
  mkCNode (Some 1%nat) COtherElement (Some "DIV") []
          (Some [("background",
                  ("no-repeat url('data:image/png;base64,AAAA') center", "important"))])
          [mkCNode (Some 2%nat) CHTMLImageElement (Some "IMG")
                   [("src", "data:image/png;base64,BBBB"); ("loading", "lazy")]
                   (Some []) [];
           mkCNode (Some 3%nat) CNotElement None [] None []].

(** The body of a nested document that hosts a shadow tree with one
    element and has no children of its own. *)
Definition shadowBody : Node :=
  mkNode 3 OtherElement (Some "BODY") [] [] noComputedStyle []
         (Some [element 4 "SPAN" []]).

(** [<div><iframe></iframe></div>] where the frame shows [shadowBody]. *)
Definition framed : Node := element 1 "DIV" [iframe 2 (Some shadowBody)].

(** The options [{ timeout: 100 }]. *)
Definition timeoutOnly : Options :=
  mkOptions None None None false None None false None (Some 100) None.

(** A clock that stands at 1000 ms for the first ten reads and has jumped
    a minute ahead afterwards. *)
Definition jumpClock (reads : nat) : Z :=
  if (reads <? 10)%nat then 1000 else 61000.

(** [<div><svg><g><circle/></g></svg></div>]. *)
Definition drawing : Node :=
  element 1 "DIV" [element 2 "svg" [element 3 "g" [element 4 "circle" []]]].

(** [<div><section><span/></section><p/></div>]. *)
Definition article : Node :=
  element 1 "DIV" [element 2 "SECTION" [element 3 "SPAN" []]; element 4 "P" []].

(** [<div><div><symbol id="a"/></div><use xlink:href="#a"/></div>]. *)
Definition sprite : Node :=
  element 1 "DIV"
    [element 2 "DIV"
       [mkNode 3 OtherElement (Some "symbol") [("id", "a")] [] noComputedStyle [] None];
     mkNode 4 OtherElement (Some "use") [("xlink:href", "#a")] [] noComputedStyle [] None].

(** The options [{ filter: node => node is not the node named excluded }]. *)
Definition excluding (excluded : nat) : Options :=
  mkOptions (Some (fun n => negb (nid n =? excluded)%nat)) None None false None None
            false None None None.

(* ================================================================== *)
(** * Specifications *)
(* ================================================================== *)

(** ** The governor *)

Section GovernorSpec.

Variable host : Host.

(** A node cap is configured and the processed-node counter has reached it. *)
Definition nodeLimitReached (options : Options) (w : World) : Prop :=
  exists cap c,
    maxNodes options = Some cap /\ cap <> 0 /\
    _context w = Some c /\ cap <= nodeCount c.

(** A timeout is configured and the time elapsed since the start of the
    capture, as read now, has reached it. *)
Definition timeLimitReached (options : Options) (w : World) : Prop :=
  exists cap start,
    timeout options = Some cap /\ cap <> 0 /\
    _startTime options = Some start /\ start <> 0 /\
    cap <= clock host (reads w) - start.

(** The traversal context after the counter has been incremented. *)
Definition incremented (c : CloneContext) : CloneContext :=
  mkContext (nodeCount c + 1) (lastYieldTime c) (totalNodes c).

(** The world right after the increment of a tick that started in [w]. *)
Definition counted (w : World) (c : CloneContext) : World :=
  mkWorld (Some (incremented c)) (reads w) (trace w).

(** The count-based granularity, 50 unless configured. *)
Definition granularity (options : Options) : Z :=
  match yieldEvery options with
  | Some n => n
  | None => 50
  end.

(** The time the last yield is measured from, when the clock has been read
    [r] times before the tick decides. *)
Definition referenceTime (options : Options) (c : CloneContext) (r : nat) : Z :=
  match lastYieldTime c with
  | Some t => t
  | None => match _startTime options with
            | Some t => t
            | None => clock host (S r)
            end
  end.



(** The decision of [progressAndYield], as a boolean. *)
Definition suspendsb (options : Options) (c : CloneContext) (r : nat) : bool :=
  match yieldBudget options with
  | Some budget => budget <=? clock host r - referenceTime options c r
  | None => remIsZero (nodeCount c + 1) (granularity options)
  end.

Definition progressEvents (options : Options) (c : CloneContext) : list Event :=
  match totalNodes c with
  | Some total =>
      if onProgress options && negb (total =? 0)
      then [Progress (nodeCount c + 1) total] else []
  | None => []
  end.

(** The number of clock reads made by the yield decision. *)
Definition decisionReads (options : Options) (c : CloneContext) : nat :=
  match yieldBudget options with
  | Some _ =>
      match lastYieldTime c, _startTime options with
      | None, None => 2
      | _, _ => 1
      end
  | None => 0
  end.


End GovernorSpec.

(** ** Runs *)

(** [Keeps R quiet m]: running [m] relates the world before to the world
    after by [R], and with [quiet] it raises no abort signal. *)
Definition Keeps {A : Type} (R : World -> World -> Prop) (quiet : bool)
           (m : M A) : Prop :=
  forall w,
    R w (snd (m w)) /\
    (quiet = true -> forall reason, fst (m w) <> Aborted reason).

(** [Yields m Q]: whatever [m] resolves with satisfies [Q]. *)
Definition Yields {A : Type} (m : M A) (Q : A -> Prop) : Prop :=
  forall w a w', m w = (Ok a, w') -> Q a.

(** The callbacks and yields of the governor recorded in a trace. *)
Definition governorEvents (tr : list Event) : list Event :=
  List.filter (fun e => match e with
                        | Progress _ _ | Yield _ => true
                        | _ => false
                        end) tr.

(** The traversal context is as it was and the governor did nothing. *)
Definition Undisturbed (w w' : World) : Prop :=
  _context w' = _context w /\
  governorEvents (trace w') = governorEvents (trace w).

(** The pre-flight check fails: a node cap is configured and the estimate
    of the node count exceeds it. *)
Definition preflightExceeded (node : Node) (options : Options) : Prop :=
  exists cap,
    maxNodes options = Some cap /\ cap <> 0 /\
    cap < Index.estimateDOMComplexity node.

(** The total reported to the progress callback:
    [Math.floor(2.5 * estimate)]. *)
Definition totalEstimate (node : Node) : Z :=
  (5 * Index.estimateDOMComplexity node) / 2.

(** ** Progress reports *)

(** The processed values reported to the progress callback, in order. *)
Definition processedValues (tr : list Event) : list Z :=
  flat_map (fun e => match e with Progress p _ => [p] | _ => [] end) tr.

(** The invariant of the progress reports of a capture whose total is
    [T]: the processed values are in non-decreasing order and none is above
    the counter; every report carries [T]. *)
Definition ProgressInv (T : Z) (w : World) : Prop :=
  StronglySorted Z.le (processedValues (trace w)) /\
  (forall p t, In (Progress p t) (trace w) -> t = T) /\
  match _context w with
  | Some c =>
      totalNodes c = Some T /\
      Forall (fun p => p <= nodeCount c) (processedValues (trace w))
  | None => processedValues (trace w) = []
  end.

Definition KeepsProgress (T : Z) (w w' : World) : Prop :=
  ProgressInv T w -> ProgressInv T w'.

(** ** The chunked raster-surface path *)

(** The strips visited by the loop of [canvasToDataURLChunked], as pairs
    of first row and number of rows. *)
Definition strips (height : nat) : list (nat * nat) :=
  map (CloneNode.stripBounds height) (seq 0 (CloneNode.totalStrips height)).

(** [Tiles a b l]: the strips [l] cover the rows from [a] to [b] in order,
    each starting where the previous one ends, none empty and none higher
    than a strip. *)
Inductive Tiles : nat -> nat -> list (nat * nat) -> Prop :=
| Tiles_done : forall b, Tiles b b []
| Tiles_strip : forall a b rows l,
    (0 < rows)%nat -> (rows <= CloneNode.STRIP_HEIGHT)%nat ->
    Tiles (a + rows) b l ->
    Tiles a b ((a, rows) :: l).

(** The offscreen pixels once the rows below [rows] have been copied. *)
Definition copiedUpTo (s : Surface) (rows : nat) : list N :=
  (firstn (rows * width s) (pixels s) ++
   skipn (rows * width s) (repeat 0%N (width s * height s)))%list.

(** ** Embedded trees *)

(** A reference that is already inline. *)
Definition inlineSegment (seg : EmbedImages.Segment) : bool :=
  match seg with
  | EmbedImages.Literal _ => true
  | EmbedImages.Reference raw => EmbedImages.isDataUrl (snd (EmbedImages.unquote raw))
  end.

(** A declaration text all of whose references are inline. *)
Definition inlineValue (value : string) : bool :=
  forallb inlineSegment (EmbedImages.segments (String.length value) value).

(** The properties [embedBackground] looks at. *)
Definition embeddableProperties : list string :=
  ["background"; "background-image"; "mask"; "-webkit-mask"; "mask-image";
   "-webkit-mask-image"].

Definition inlineStyle (st : option Style) : bool :=
  match st with
  | Some decls =>
      forallb (fun name => inlineValue (getPropertyValue decls name)) embeddableProperties
  | None => true
  end.

Definition inlineSource (i : CInterface) (attrs : list (string * string)) : bool :=
  match i with
  | CHTMLImageElement =>
      EmbedImages.isDataUrl (match assoc "src" attrs with Some v => v | None => "" end)
  | CSVGImageElement =>
      EmbedImages.isDataUrl (match assoc "href" attrs with Some v => v | None => "" end)
  | _ => true
  end.

(** A clone tree is fully embedded when every image source and every
    embeddable style declaration of its elements is in inline form. *)
Fixpoint fullyEmbedded (c : CNode) : bool :=
  match c with
  | mkCNode _ i _ attrs st children =>
      match i with
      | CNotElement => true
      | _ => inlineSource i attrs && inlineStyle st && forallb fullyEmbedded children
      end
  end.

(** The calls of the resource resolver recorded in a trace. *)
Definition fetchEvents (tr : list Event) : list Event :=
  List.filter (fun e => match e with Fetch _ => true | _ => false end) tr.

(** ** The filter *)

(** The source nodes a clone was made from. *)
Fixpoint origins (c : CNode) : list nat :=
  match c with
  | mkCNode o _ _ _ _ children =>
      (match o with Some i => [i] | None => [] end ++ flat_map origins children)%list
  end.

(** The predicate accepts the node (no predicate accepts every node). *)
Definition passes (options : Options) (n : Node) : bool :=
  match filter options with
  | Some f => f n
  | None => true
  end.

(** ** Worlds that only move forward *)

(** The world only moves forward: the clock is read more, events are only
    appended, and a traversal context stays in place with a counter that
    has not decreased and the same total. *)
Definition Advances (w w' : World) : Prop :=
  (reads w <= reads w')%nat /\
  (exists more, trace w' = (trace w ++ more)%list) /\
  match _context w with
  | Some c =>
      exists c', _context w' = Some c' /\
                 nodeCount c <= nodeCount c' /\
                 totalNodes c' = totalNodes c
  | None => _context w' = None
  end.


(** ** Plain trees and their copies *)

(** The interfaces that [cloneSingleNode] copies with [node.cloneNode] and
    whose decoration keeps the children that were cloned. *)
Definition copiedAsIs (i : Interface Node) : bool :=
  match i with
  | NotElement | OtherElement | HTMLImageElement | SVGImageElement
  | HTMLInputElement _ | HTMLSelectElement _ => true
  | _ => false
  end.

(** A plain tree: every node is copied as it is, none is an [svg] or a
    [use] element and none hosts a shadow tree. *)
Fixpoint plain (n : Node) : bool :=
  match n with
  | mkNode _ i tag _ _ _ kids shadow =>
      copiedAsIs i &&
      negb (CloneNode.isSVGElement tag) && negb (CloneNode.tagIs tag "USE") &&
      match shadow with None => true | Some _ => false end &&
      forallb plain kids
  end.

(** The number of levels of the light tree of a node. *)
Fixpoint depth (n : Node) : nat :=
  match n with
  | mkNode _ _ _ _ _ _ kids _ =>
      S (fold_right (fun k m => Nat.max (depth k) m) 0%nat kids)
  end.

(** The copy of a plain tree, by structural recursion: the decorated
    shallow copy of the node over the copies of the children the predicate
    accepts. *)
Fixpoint mirror (host : Host) (options : Options) (n : Node) : CNode :=
  match n with
  | mkNode id i tag attrs st _ kids _ =>
      CloneNode.decorate host n
        (mkCNode (Some id) (CloneNode.cinterfaceOf i) tag attrs
                 (CloneNode.styleOfCopy i st)
                 (flat_map (fun k => if passes options k
                                     then [mirror host options k] else [])
                           kids))
        options
  end.

(** The nodes of a tree reached from its root through children the
    predicate accepts, in document order. *)
Fixpoint keptIds (options : Options) (n : Node) : list nat :=
  match n with
  | mkNode id _ _ _ _ _ kids _ =>
      id :: flat_map (fun k => if passes options k then keptIds options k else []) kids
  end.

(** The content of the node, if it is a text area, holds no character the
    HTML parser does not take literally. *)
Definition literalContent (n : Node) : Prop :=
  forall value, iface n = HTMLTextAreaElement value -> CloneNode.plainText value = true.

(** What [querySelectorAll('use')] selects. *)
Definition isUse (c : CNode) : bool :=
  isElement c && CloneNode.tagIs (ctagName c) "USE".

(** The nodes [cloneSingleNode] copies with [node.cloneNode(false)]. *)
Definition copiedShallow (n : Node) : bool :=
  match iface n with
  | HTMLCanvasElement _ | HTMLVideoElement _ _ _ | HTMLIFrameElement _ => false
  | _ => true
  end && negb (CloneNode.isSVGElement (tagName n)).


(** A slot to which a paragraph and a text are assigned; its own child is
    the fallback content. *)
Definition slotted : Node :=
  mkNode 1 (HTMLSlotElement [element 5 "P" []; text 6]) (Some "slot") [] []
         noComputedStyle [text 2] None.

(** A frame showing a document whose body holds a paragraph and a text. *)
Definition framedArticle : Node :=
  iframe 1 (Some (element 2 "BODY" [element 3 "P" []; text 4])).

(** [<svg><g><circle/></g></svg>]. *)
Definition picture : Node :=
  element 2 "svg" [element 3 "g" [element 4 "circle" []]].

(** A playing video of 2 x 1 pixels with a [source] child. *)
Definition clip : Node :=
  mkNode 1 (HTMLVideoElement "movie.mp4" "" (mkSurface 2 1 [1%N; 2%N] true))
         (Some "VIDEO") [] [] noComputedStyle [element 2 "SOURCE" []] None.

(** No light-tree descendant of the node is a [use] element. *)
Definition noUseBelow (n : Node) : bool :=
  forallb (fun d => negb (Index.isElementNode d && CloneNode.tagIs (tagName d) "USE"))
          (CloneNode.nodeDescendants n).

(** Options of a cooperative capture that would be aborted by its first
    tick: a node cap of 1, a progress callback and a granularity of 1. *)
Definition strictOptions : Options :=
  mkOptions (Some (fun n => negb (nid n =? 3)%nat)) None None true (Some 1) None true
            (Some 1) None None.


(** ** Decoration and form controls *)

(** The last write to the declaration [k] among [ws], if any. *)
Definition lastWrite (k : string) (ws : list Write) : option (option (string * string)) :=
  assoc k (rev ws).

(** What the [forEach] callback of [cloneCSSStyle] writes for the property
    [name]. *)
Definition propertyWrites (host : Host) (nativeNode : Node) (clonedNode : CNode)
           (name : string) : list Write :=
  CloneNode.written host name
    (CloneNode.adjustedValue nativeNode clonedNode name)
    (getPropertyPriority (properties (computedStyle nativeNode)) name).

(** The writes of the per-property path of [cloneCSSStyle], in order. *)
Definition styleWrites (host : Host) (nativeNode : Node) (clonedNode : CNode)
           (options : Options) : list Write :=
  flat_map (propertyWrites host nativeNode clonedNode)
           (CloneNode.getStyleProperties host options).

(** The numeric texts on which the doubles of JavaScript agree with exact
    decimals through [Math.floor(parseFloat(text)) - 0.1] and its
    conversion to a string: a literal of at most fifteen digits whose
    floor is not negative and below [10^14]. *)
Definition exactLiteral (text : string) : bool :=
  match CloneNode.readLiteral (CloneNode.trimStart text) with
  | Some l =>
      (CloneNode.wholeDigits l + CloneNode.fractionDigits l <=? 15)%nat &&
      (0 <=? Qfloor (CloneNode.literalValue l)) &&
      (Qfloor (CloneNode.literalValue l) <? 10 ^ 14)
  | None => false
  end.

(** The computed font size of the node, when it ends in [px] and its
    numeric part is a finite number, is within [exactLiteral]. *)
Definition exactFontSize (n : Node) : bool :=
  let value := getPropertyValue (properties (computedStyle n)) "font-size" in
  let text := substring 0 (String.length value - 2) value in
  if endsWith value "px"
  then match CloneNode.parseFloat text with
       | CloneNode.Finite _ => exactLiteral text
       | _ => true
       end
  else true.

(** The text of [n - 0.1] for a whole number [n] that is not negative. *)
Definition lessATenth (n : Z) : string :=
  if 1 <=? n then (CloneNode.zToString (n - 1) ++ ".9")%string else "-0.1".

(** The test of [cloneSelectValue] on a child of the cloned [select]: an
    element whose [value] attribute is the value of the source. *)
Definition optionMatches (value : string) (child : CNode) : bool :=
  isElement child &&
  match getAttribute child "value" with
  | Some v => String.eqb value v
  | None => false
  end.

(** An element whose computed style is serialized by the engine. *)
Definition serialized : Node :=
  mkNode 1 OtherElement (Some "DIV") [] [("color", ("red", ""))]
         (mkComputed "color: blue; font-size: 16px;"
                     [("color", ("blue", "")); ("font-size", ("16px", ""))]
                     "50% 50%" [("color", ("blue", "")); ("font-size", ("16px", ""))])
         [] None.

(** A frame displayed inline, in an engine that does not serialize
    computed styles. *)
Definition inlineFrame : Node :=
  mkNode 1 (HTMLIFrameElement None) (Some "IFRAME") [] [("color", ("red", ""))]
         (mkComputed "" [] "" [("display", ("inline", "")); ("width", ("300px", "important"))])
         [] None.

(** The options [{ includeStyleProperties: ['display', 'width'] }]. *)
Definition displayAndWidth : Options :=
  mkOptions None (Some ["display"; "width"]) None false None None false None None None.

(** A text field holding [hello], with a stale [value] attribute. *)
Definition textField : Node :=
  mkNode 1 (HTMLInputElement "hello") (Some "INPUT") [("value", "initial")] []
         noComputedStyle [] None.

(** A text area holding [hello]. *)
Definition textArea : Node :=
  mkNode 1 (HTMLTextAreaElement "hello") (Some "TEXTAREA") [] [] noComputedStyle
         [text 2] None.

(** An [option] element of a cloned [select]. *)
Definition optionClone (id : nat) (attrs : list (string * string)) : CNode :=
  mkCNode (Some id) COtherElement (Some "OPTION") attrs (Some []) [].

(** A [select] whose value is [b]. *)
Definition chooser : Node :=
  mkNode 1 (HTMLSelectElement "b") (Some "SELECT") [] [] noComputedStyle [] None.


(** ** What embedding leaves alone *)

(** The shape of a clone: its nodes with their origin, interface and tag,
    and the attributes of the nodes that are not images. *)
Inductive Shape : Type :=
| shape (from : option nat) (i : CInterface) (tag : option string)
        (kept : list (string * string)) (kids : list Shape).

Definition keptAttributes (i : CInterface) (attrs : list (string * string))
  : list (string * string) :=
  match i with
  | CHTMLImageElement | CSVGImageElement => []
  | _ => attrs
  end.

Fixpoint skeleton (c : CNode) : Shape :=
  match c with
  | mkCNode o i tag attrs _ kids =>
      shape o i tag (keptAttributes i attrs) (map skeleton kids)
  end.

(** The ticks of the embedding walk over a clone: one for every child of
    every element it reaches. *)
Fixpoint embedTicks (c : CNode) : nat :=
  match c with
  | mkCNode _ i _ _ _ kids =>
      match i with
      | CNotElement | CText _ => 0%nat
      | _ => fold_right (fun k m => S (embedTicks k + m)) 0%nat kids
      end
  end.

(** An image with an external source, loaded lazily, inside a [div] with a
    text. *)
Definition gallery : CNode :=
  mkCNode (Some 1%nat) COtherElement (Some "DIV") [("class", "g")] (Some [])
          [mkCNode (Some 2%nat) CHTMLImageElement (Some "IMG")
                   [("src", "cat.png"); ("loading", "lazy"); ("alt", "a cat")]
                   (Some []) [];
           mkCNode (Some 3%nat) CNotElement None [] None []].

(** A host that resolves [cat.png] and on which the resolved image loads
    or not. *)
Definition galleryHost (loads : bool) : Host :=
  mkHost (steadyClock 0 1) [] true (fun _ _ _ => "")
         (fun url => if String.eqb url "http://localhost/cat.png"
                     then Some "data:image/png;base64,CAT"
                     else None)
         (fun _ => loads) [] (fun _ => false) plainEngine.

(** The options [{ onImageErrorHandler }] with a handler that returns. *)
Definition forgiving : Options :=
  mkOptions None None (Some true) false None None false None None None.


(** Two nodes that differ in their style at most. *)
Definition sameButStyle (c' c : CNode) : Prop :=
  origin c' = origin c /\ ciface c' = ciface c /\ ctagName c' = ctagName c /\
  cattributes c' = cattributes c /\ cchildNodes c' = cchildNodes c.

(** The context is left as it is. *)
Definition sameContext (w w' : World) : Prop := _context w' = _context w.


(* ================================================================== *)
(** * Induction on trees *)
(* ================================================================== *)

Section NodeInduction.

Variable P : Node -> Prop.
Hypothesis P_node :
  forall id i tag attrs st computed children shadow,
    Forall P children -> P (mkNode id i tag attrs st computed children shadow).

(** Induction over the light tree of a source node. *)
Fixpoint Node_children_ind (n : Node) : P n :=
  match n with
  | mkNode id i tag attrs st computed children shadow =>
      P_node id i tag attrs st computed shadow
        ((fix all (l : list Node) : Forall P l :=
            match l with
            | [] => Forall_nil P
            | k :: r => Forall_cons k (Node_children_ind k) (all r)
            end) children)
  end.

End NodeInduction.

Section CNodeInduction.

Variable P : CNode -> Prop.
Hypothesis P_node :
  forall o i tag attrs st children,
    Forall P children -> P (mkCNode o i tag attrs st children).

Fixpoint CNode_tree_ind (c : CNode) : P c :=
  match c with
  | mkCNode o i tag attrs st children =>
      P_node o i tag attrs st
        ((fix all (l : list CNode) : Forall P l :=
            match l with
            | [] => Forall_nil P
            | k :: r => Forall_cons k (CNode_tree_ind k) (all r)
            end) children)
  end.

End CNodeInduction.

(* ================================================================== *)
(** * Properties of the execution governor *)
(* ================================================================== *)

Ltac case_bool :=
  repeat match goal with
         | |- context [ Z.eqb ?a ?b ] => destruct (Z.eqb_spec a b)
         | |- context [ Z.leb ?a ?b ] => destruct (Z.leb_spec a b)
         | |- context [ Z.ltb ?a ?b ] => destruct (Z.ltb_spec a b)
         end.

Section GovernorProperties.

Variable host : Host.

(** C6. [checkLimits] raises [max_nodes] exactly when a node cap is
    configured and the counter has reached it; it raises [timeout] exactly
    when a timeout is configured, the elapsed time has reached it and the
    node cap has not been reached; when both limits are reached it raises
    [max_nodes], the check made first. *)
Theorem checkLimits_raises (options : Options) (w : World) :
  (fst (CloneNode.checkLimits host options w) = Aborted max_nodes
   <-> nodeLimitReached options w) /\
  (fst (CloneNode.checkLimits host options w) = Aborted timeout_reason
   <-> ~ nodeLimitReached options w /\ timeLimitReached host options w) /\
  (nodeLimitReached options w /\ timeLimitReached host options w ->
   fst (CloneNode.checkLimits host options w) = Aborted max_nodes).
Proof.
  assert (Hnode : fst (CloneNode.checkLimits host options w) = Aborted max_nodes
                  <-> nodeLimitReached options w).
  { unfold CloneNode.checkLimits, nodeLimitReached, bind, getContext, truthy,
      throwAborted, ret, Date_now.
    destruct (maxNodes options) as [cap|] eqn:Hm;
      destruct (_context w) as [c|] eqn:Hc;
      destruct (timeout options) as [tcap|] eqn:Ht;
      destruct (_startTime options) as [start|] eqn:Hs;
      simpl; case_bool; simpl; case_bool; simpl;
      split; intros Hyp;
      try discriminate; try reflexivity;
      try (destruct Hyp as (cap' & c' & E1 & E2 & E3 & E4);
           try discriminate; inversion E1; inversion E3; subst; lia);
      try (exists cap, c; repeat split; auto; lia). }
  split; [exact Hnode|].
  split; [|intros [Hyp _]; apply Hnode; exact Hyp].
  rewrite <- Hnode.
  unfold CloneNode.checkLimits, timeLimitReached, bind, getContext, truthy,
    throwAborted, ret, Date_now.
  destruct (maxNodes options) as [cap|] eqn:Hm;
    destruct (_context w) as [c|] eqn:Hc;
    destruct (timeout options) as [tcap|] eqn:Ht;
    destruct (_startTime options) as [start|] eqn:Hs;
    simpl; case_bool; simpl; case_bool; simpl;
    split; intros Hyp;
    try discriminate; try reflexivity;
    try (destruct Hyp as (Hn & tcap' & start' & E1 & E2 & E3 & E4 & E5);
         try discriminate; try (exfalso; apply Hn; reflexivity);
         inversion E1; inversion E3; subst; try lia; try reflexivity);
    try (split; [discriminate|]; exists tcap, start; repeat split; auto; lia).
Qed.


Lemma progressAndYield_run (options : Options) (c : CloneContext) (w1 : World) :
  progressAndYield host options (incremented c) w1 =
  (Ok tt,
   let r := (decisionReads options c + reads w1)%nat in
   if suspendsb host options c (reads w1)
   then
     let c' := mkContext (nodeCount c + 1) (Some (clock host r)) (totalNodes c) in
     mkWorld (Some c') (S r)
             (trace w1 ++ progressEvents options c ++ [Yield (Some c')])
   else
     mkWorld (_context w1) r (trace w1 ++ progressEvents options c)).
Proof.
  destruct w1 as [ctx r tr]. destruct c as [n ly total].
  unfold progressAndYield, suspendsb, progressEvents, decisionReads,
    referenceTime, granularity, incremented.
  unfold bind, emit, ret, Date_now, setContext, yieldToMain, getContext, truthy.
  simpl.
  destruct (onProgress options); simpl;
    destruct total as [t|]; simpl;
    try destruct (Z.eqb_spec t 0); simpl;
    (destruct (yieldBudget options) as [b|]; simpl;
     [ destruct ly as [l|]; [| destruct (_startTime options) as [st|] ]; simpl;
       match goal with |- context [ Z.leb ?x ?y ] => destruct (Z.leb x y) end
     | match goal with |- context [ remIsZero ?x ?y ] => destruct (remIsZero x y) end ]);
    simpl; unfold bind, emit, ret, getContext; simpl;
    rewrite ?app_nil_r, <- ?app_assoc; reflexivity.
Qed.



Lemma checkLimits_frame (options : Options) (w : World) :
  _context (snd (CloneNode.checkLimits host options w)) = _context w /\
  trace (snd (CloneNode.checkLimits host options w)) = trace w.
Proof.
  unfold CloneNode.checkLimits, bind, getContext, throwAborted, ret, Date_now.
  destruct w as [ctx r tr]. simpl.
  destruct (maxNodes options); destruct ctx;
    destruct (timeout options); destruct (_startTime options); simpl;
    repeat match goal with
           | |- context [ if ?b then _ else _ ] => destruct b; simpl
           end; split; reflexivity.
Qed.

Lemma cloneTick_run (options : Options) (w : World) (c : CloneContext) :
  nonBlocking options = true ->
  _context w = Some c ->
  CloneNode.maybeYieldToMain host options w =
  match CloneNode.checkLimits host options (counted w c) with
  | (Ok _, checked) => progressAndYield host options (incremented c) checked
  | (Aborted reason, checked) => (Aborted reason, checked)
  | (Failed, checked) => (Failed, checked)
  | (Diverged, checked) => (Diverged, checked)
  end.
Proof.
  intros Hnb Hctx.
  unfold CloneNode.maybeYieldToMain.
  unfold bind at 1. unfold getContext at 1. rewrite Hnb, Hctx.
  unfold bind at 1. unfold setContext at 1.
  unfold bind at 1. reflexivity.
Qed.

Lemma embedTick_run (options : Options) (w : World) (c : CloneContext) :
  nonBlocking options = true ->
  _context w = Some c ->
  EmbedImages.maybeYieldToMain host options w =
  progressAndYield host options (incremented c) (counted w c).
Proof.
  intros Hnb Hctx.
  unfold EmbedImages.maybeYieldToMain.
  unfold bind at 1. unfold getContext at 1. rewrite Hnb, Hctx.
  reflexivity.
Qed.


(** The tick when cooperative mode is off or there is no context. *)
Lemma tick_disabled (options : Options) (w : World) :
  nonBlocking options = false \/ _context w = None ->
  CloneNode.maybeYieldToMain host options w = (Ok tt, w) /\
  EmbedImages.maybeYieldToMain host options w = (Ok tt, w).
Proof.
  intros H.
  unfold CloneNode.maybeYieldToMain, EmbedImages.maybeYieldToMain, bind, getContext, ret.
  destruct H as [H | H]; rewrite H.
  - split; reflexivity.
  - destruct (nonBlocking options); split; reflexivity.
Qed.

End GovernorProperties.



(* ================================================================== *)
(** * Reasoning about runs: what every step keeps *)
(* ================================================================== *)

(** A relation between the world before and after a computation that the
    governor ticks and the host events respect is respected by the whole
    traversal; with [quiet], no step raises an abort signal either. *)
Section Keeps.

Variable host : Host.
Variable options : Options.
Variable R : World -> World -> Prop.
Variable quiet : bool.

Hypothesis R_refl : forall w, R w w.
Hypothesis R_trans : forall a b c, R a b -> R b c -> R a c.
Hypothesis R_emit :
  forall e, match e with Fetch _ | Warn => True | _ => False end -> Keeps R quiet (emit e).
Hypothesis R_stripYield :
  forall b : bool, Keeps R quiet (if nonBlocking options && b then yieldToMain else ret tt).
Hypothesis R_cloneTick : Keeps R quiet (CloneNode.maybeYieldToMain host options).
Hypothesis R_embedTick : Keeps R quiet (EmbedImages.maybeYieldToMain host options).

Lemma Keeps_ret {A} (a : A) : Keeps R quiet (ret a).
Proof. intros w. split; [apply R_refl | intros _ r; discriminate]. Qed.

Lemma Keeps_throwError {A} : Keeps R quiet (@throwError A).
Proof. intros w. split; [apply R_refl | intros _ r; discriminate]. Qed.

Lemma Keeps_diverge {A} : Keeps R quiet (@diverge A).
Proof. intros w. split; [apply R_refl | intros _ r; discriminate]. Qed.

Lemma Keeps_bind {A B} (m : M A) (k : A -> M B) :
  Keeps R quiet m -> (forall a, Keeps R quiet (k a)) -> Keeps R quiet (bind m k).
Proof.
  intros Hm Hk w. unfold bind.
  destruct (Hm w) as [Hr Hq].
  destruct (m w) as [[a | r | | ] w1]; simpl in *.
  - destruct (Hk a w1) as [Hr' Hq']. split; eauto.
  - split; [exact Hr|]. intros Hquiet reason Heq.
    apply (Hq Hquiet r). reflexivity.
  - split; [exact Hr | intros _ r; discriminate].
  - split; [exact Hr | intros _ r; discriminate].
Qed.

Lemma Keeps_tryCatch {A} (m handler : M A) :
  Keeps R quiet m -> Keeps R quiet handler -> Keeps R quiet (tryCatch m handler).
Proof.
  intros Hm Hh w. unfold tryCatch.
  destruct (Hm w) as [Hr Hq].
  destruct (m w) as [[a | r | | ] w1]; simpl in *.
  - split; [exact Hr | intros _ r; discriminate].
  - destruct (Hh w1) as [Hr' Hq']. split; eauto.
  - destruct (Hh w1) as [Hr' Hq']. split; eauto.
  - split; [exact Hr | intros _ r; discriminate].
Qed.

Lemma Keeps_getContext : Keeps R quiet getContext.
Proof. intros w. split; [apply R_refl | intros _ r; discriminate]. Qed.

Lemma Keeps_fetchResource (url : string) : Keeps R quiet (fetchResource host url).
Proof.
  unfold fetchResource. apply Keeps_bind; [apply R_emit; exact I|].
  intros _. destruct (resourceToDataURL host url);
    [apply Keeps_ret | apply Keeps_throwError].
Qed.

(** One step of a structural proof that a computation keeps [R]. *)
Ltac keeps_step :=
  first
    [ apply Keeps_ret
    | apply Keeps_throwError
    | apply Keeps_diverge
    | apply Keeps_getContext
    | apply Keeps_fetchResource
    | apply R_cloneTick
    | apply R_embedTick
    | apply R_emit; exact I
    | apply Keeps_tryCatch
    | apply Keeps_bind; [| intro]
    | match goal with
      | |- Keeps R quiet (if ?b then _ else _) => destruct b
      | |- Keeps R quiet (match ?x with _ => _ end) => destruct x
      | |- Keeps R quiet (let '(_, _) := ?x in _) => destruct x
      end ].

Ltac keeps := repeat keeps_step.

Lemma Keeps_createImage (url : string) : Keeps R quiet (CloneNode.createImage host url).
Proof. unfold CloneNode.createImage. keeps. Qed.

Lemma Keeps_stripLoop (sourceCanvas : Surface) (todo i : nat) (off : list N) :
  Keeps R quiet (CloneNode.stripLoop options sourceCanvas todo i off).
Proof.
  revert i off. induction todo as [|todo IH]; intros i off; simpl.
  - apply Keeps_ret.
  - destruct (CloneNode.stripBounds (height sourceCanvas) i) as [y stripHeight].
    apply Keeps_bind; [apply R_stripYield|]. intros _. apply IH.
Qed.

Lemma Keeps_canvasToDataURLChunked (sourceCanvas : Surface) :
  Keeps R quiet (CloneNode.canvasToDataURLChunked host sourceCanvas options).
Proof.
  unfold CloneNode.canvasToDataURLChunked, CloneNode.assembleOffscreen.
  destruct (context2d sourceCanvas); simpl; [|apply Keeps_ret].
  apply Keeps_bind; [|intros; apply Keeps_ret].
  apply Keeps_bind; [apply Keeps_stripLoop | intros; apply Keeps_ret].
Qed.

Lemma Keeps_cloneCanvasElement (node : Node) (canvas : Surface) :
  Keeps R quiet (CloneNode.cloneCanvasElement host node canvas options).
Proof.
  unfold CloneNode.cloneCanvasElement.
  destruct (String.eqb _ _); [apply Keeps_ret|].
  destruct (_ || _).
  - apply Keeps_bind; [apply Keeps_createImage | intros; apply Keeps_ret].
  - apply Keeps_bind.
    + apply Keeps_tryCatch; [apply Keeps_canvasToDataURLChunked | keeps].
    + intros url. apply Keeps_bind; [apply Keeps_createImage | intros; apply Keeps_ret].
Qed.

Lemma Keeps_cloneVideoElement (node : Node) (currentSrc poster : string) (frame : Surface) :
  Keeps R quiet (CloneNode.cloneVideoElement host node currentSrc poster frame options).
Proof.
  unfold CloneNode.cloneVideoElement.
  destruct (nonEmpty currentSrc).
  - apply Keeps_bind; [apply Keeps_createImage | intros; apply Keeps_ret].
  - apply Keeps_bind; [apply Keeps_fetchResource|]. intros url.
    apply Keeps_bind; [apply Keeps_createImage | intros; apply Keeps_ret].
Qed.

Section KeepsRecursion.

Variable cloneNode : Node -> Options -> bool -> M (option CNode).
Hypothesis Keeps_rec : forall node isRoot, Keeps R quiet (cloneNode node options isRoot).

Lemma Keeps_cloneSingleNode (node : Node) :
  Keeps R quiet (CloneNode.cloneSingleNode host cloneNode node options).
Proof.
  unfold CloneNode.cloneSingleNode, CloneNode.cloneIFrameElement.
  destruct (iface node); try apply Keeps_ret.
  - apply Keeps_bind; [apply Keeps_cloneCanvasElement | intros; apply Keeps_ret].
  - apply Keeps_bind; [apply Keeps_cloneVideoElement | intros; apply Keeps_ret].
  - apply Keeps_bind.
    + apply Keeps_tryCatch; [|apply Keeps_ret].
      destruct body; [|apply Keeps_ret].
      apply Keeps_bind; [apply Keeps_rec | intros; apply Keeps_ret].
    + intros r. destruct r; apply Keeps_ret.
Qed.

Lemma Keeps_cloneChildrenLoop (children : list Node) (clonedNode : CNode) :
  Keeps R quiet (CloneNode.cloneChildrenLoop host cloneNode options children clonedNode).
Proof.
  revert clonedNode. induction children as [|child rest IH]; intros clonedNode; simpl.
  - apply Keeps_ret.
  - apply Keeps_bind; [apply R_cloneTick|]. intros _.
    apply Keeps_bind; [apply Keeps_rec|]. intros clonedChild. apply IH.
Qed.

Lemma Keeps_cloneChildren (nativeNode : Node) (clonedNode : CNode) :
  Keeps R quiet (CloneNode.cloneChildren host cloneNode nativeNode clonedNode options).
Proof.
  unfold CloneNode.cloneChildren.
  destruct (CloneNode.isSVGElement _); [apply Keeps_ret|].
  destruct (_ || _); [apply Keeps_ret | apply Keeps_cloneChildrenLoop].
Qed.

Lemma Keeps_querySelector (clone : CNode) (selector : string) :
  Keeps R quiet (CloneNode.querySelector host clone selector).
Proof. unfold CloneNode.querySelector. keeps. Qed.

Lemma Keeps_document_querySelector (selector : string) :
  Keeps R quiet (CloneNode.document_querySelector host selector).
Proof. unfold CloneNode.document_querySelector. keeps. Qed.

Lemma Keeps_usesLoop (clone : CNode) (uses : list CNode)
      (processedDefs : list (string * CNode)) :
  Keeps R quiet (CloneNode.usesLoop host cloneNode options clone uses processedDefs).
Proof.
  revert processedDefs. induction uses as [|use rest IH]; intros processedDefs; simpl.
  - apply Keeps_ret.
  - apply Keeps_bind; [apply R_cloneTick|]. intros _.
    apply Keeps_bind; [|intros; apply IH].
    destruct (getAttribute use "xlink:href") as [id|]; [|apply Keeps_ret].
    destruct (nonEmpty id); [|apply Keeps_ret].
    apply Keeps_bind; [apply Keeps_querySelector|]. intros exist.
    apply Keeps_bind; [apply Keeps_document_querySelector|]. intros definition.
    destruct exist; [apply Keeps_ret|].
    destruct definition; [|apply Keeps_ret].
    destruct (assoc id processedDefs); [apply Keeps_ret|].
    destruct (CloneNode.inherited id); [apply Keeps_ret|].
    apply Keeps_bind; [apply Keeps_rec|]. intros r.
    destruct r; [apply Keeps_ret | apply Keeps_throwError].
Qed.

Lemma Keeps_ensureSVGSymbols (clone : CNode) :
  Keeps R quiet (CloneNode.ensureSVGSymbols host cloneNode clone options).
Proof.
  unfold CloneNode.ensureSVGSymbols.
  destruct (_ =? _)%nat; [apply Keeps_ret|].
  apply Keeps_bind; [apply Keeps_usesLoop|]. intros defs.
  destruct (_ =? _)%nat; apply Keeps_ret.
Qed.

End KeepsRecursion.

Lemma Keeps_cloneNode (fuel : nat) :
  forall node isRoot, Keeps R quiet (CloneNode.cloneNode host fuel node options isRoot).
Proof.
  induction fuel as [|fuel IH]; intros node isRoot; simpl.
  - apply Keeps_diverge.
  - destruct (_ && _); [apply Keeps_ret|].
    apply Keeps_bind; [apply Keeps_cloneSingleNode; exact IH|].
    intros [clonedNode|]; [|apply Keeps_throwError].
    apply Keeps_bind; [apply Keeps_cloneChildren; exact IH|]. intros c.
    apply Keeps_bind; [apply Keeps_ensureSVGSymbols; exact IH|]. intros c'.
    apply Keeps_ret.
Qed.

Lemma Keeps_embedSegments (segs : list EmbedImages.Segment) :
  Keeps R quiet (EmbedImages.embedSegments host segs).
Proof.
  induction segs as [|[c | raw] rest IH]; simpl.
  - apply Keeps_ret.
  - apply Keeps_bind; [exact IH | intros; apply Keeps_ret].
  - destruct (EmbedImages.unquote raw) as [quote url].
    apply Keeps_bind.
    + destruct (EmbedImages.isDataUrl url); [apply Keeps_ret|].
      apply Keeps_bind; [apply Keeps_fetchResource | intros; apply Keeps_ret].
    + intros seg. apply Keeps_bind; [exact IH | intros; apply Keeps_ret].
Qed.

Lemma Keeps_embedProp (propName : string) (node : CNode) :
  Keeps R quiet (EmbedImages.embedProp host propName node options).
Proof.
  unfold EmbedImages.embedProp, EmbedImages.embedResources.
  destruct (cstyle node); [|apply Keeps_ret].
  destruct (nonEmpty _); [|apply Keeps_ret].
  apply Keeps_bind; [|intros; apply Keeps_ret].
  apply Keeps_bind; [apply Keeps_embedSegments | intros; apply Keeps_ret].
Qed.

Lemma Keeps_orElse (a : M (bool * CNode)) (b : CNode -> M (bool * CNode)) :
  Keeps R quiet a -> (forall n, Keeps R quiet (b n)) -> Keeps R quiet (EmbedImages.orElse a b).
Proof.
  intros Ha Hb. unfold EmbedImages.orElse.
  apply Keeps_bind; [exact Ha|]. intros r.
  destruct (fst r); [apply Keeps_ret | apply Hb].
Qed.

Lemma Keeps_embedBackground (clonedNode : CNode) :
  Keeps R quiet (EmbedImages.embedBackground host clonedNode options).
Proof.
  unfold EmbedImages.embedBackground.
  apply Keeps_bind.
  - apply Keeps_orElse; [apply Keeps_embedProp | intros; apply Keeps_embedProp].
  - intros r. apply Keeps_bind; [|intros; apply Keeps_ret].
    repeat (apply Keeps_orElse; [| intros; apply Keeps_embedProp]).
    apply Keeps_embedProp.
Qed.

Lemma Keeps_embedImageNode (clonedNode : CNode) :
  Keeps R quiet (EmbedImages.embedImageNode host clonedNode options).
Proof.
  unfold EmbedImages.embedImageNode.
  destruct (_ && _); [apply Keeps_ret|].
  apply Keeps_bind; [apply Keeps_fetchResource|]. intros dataURL.
  destruct (imageLoads host dataURL); [apply Keeps_ret|].
  destruct (onImageErrorHandler options) as [[|]|];
    [apply Keeps_ret | apply Keeps_throwError | apply Keeps_throwError].
Qed.

Lemma Keeps_embedChildren (embedImages : CNode -> M CNode) (children : list CNode) :
  Forall (fun c => Keeps R quiet (embedImages c)) children ->
  Keeps R quiet (EmbedImages.embedChildren host embedImages options children).
Proof.
  induction 1 as [|child rest Hchild _ IH]; simpl.
  - apply Keeps_ret.
  - apply Keeps_bind; [apply R_embedTick|]. intros _.
    apply Keeps_bind; [exact Hchild|]. intros child'.
    apply Keeps_bind; [exact IH | intros; apply Keeps_ret].
Qed.

Lemma Keeps_embedImages (clonedNode : CNode) :
  Keeps R quiet (EmbedImages.embedImages host clonedNode options).
Proof.
  induction clonedNode as [o i tag attrs st children IH] using CNode_tree_ind.
  simpl. destruct (isElement _); [|apply Keeps_ret].
  apply Keeps_bind; [apply Keeps_embedBackground|]. intros n.
  apply Keeps_bind; [apply Keeps_embedImageNode|]. intros n'.
  apply Keeps_bind; [|intros; apply Keeps_ret].
  apply Keeps_embedChildren. exact IH.
Qed.

End Keeps.

(* ================================================================== *)
(** * Properties of a whole capture *)
(* ================================================================== *)

Section CaptureRuns.

Variable host : Host.

Lemma initializeOptions_run (node : Node) (options : Options) (w : World) :
  exists opts w1,
    Index.initializeOptions host node options w = (Ok opts, w1) /\
    nonBlocking opts = nonBlocking options /\
    maxNodes opts = maxNodes options /\
    onProgress opts = onProgress options /\
    trace w1 = trace w /\
    (_context w1 = _context w \/
     _context w1 =
       Some (mkContext 0 (Some (clock host (reads w))) (Some (totalEstimate node)))).
Proof.
  unfold Index.initializeOptions.
  destruct (_ || _).
  - eexists; eexists. split; [reflexivity|]. simpl. repeat split. right. reflexivity.
  - exists options, w. repeat split. left. reflexivity.
Qed.

Lemma checkDOMComplexity_run (node : Node) (options : Options) (w : World) :
  (preflightExceeded node options /\
   Index.checkDOMComplexity node options w = (Aborted max_nodes, w)) \/
  (~ preflightExceeded node options /\
   Index.checkDOMComplexity node options w = (Ok tt, w)).
Proof.
  unfold Index.checkDOMComplexity, preflightExceeded, truthy.
  destruct (maxNodes options) as [cap|].
  - destruct (Z.eqb_spec cap 0) as [Hz | Hz]; simpl.
    + right. split; [|reflexivity].
      intros (cap' & E & Hnz & _). inversion E; subst. contradiction.
    + destruct (Z.ltb_spec cap (Index.estimateDOMComplexity node)).
      * left. split; [|reflexivity]. exists cap. auto.
      * right. split; [|reflexivity].
        intros (cap' & E & _ & Hlt). inversion E; subst. lia.
  - right. split; [|reflexivity]. intros (cap' & E & _). discriminate.
Qed.

End CaptureRuns.

Lemma governorEvents_app (a b : list Event) :
  governorEvents (a ++ b) = (governorEvents a ++ governorEvents b)%list.
Proof. apply filter_app. Qed.

Section GovernorDisabled.

Variable host : Host.
Variable options : Options.
Hypothesis disabled : nonBlocking options = false.

Lemma Undisturbed_refl (w : World) : Undisturbed w w.
Proof. split; reflexivity. Qed.

Lemma Undisturbed_trans (a b c : World) :
  Undisturbed a b -> Undisturbed b c -> Undisturbed a c.
Proof. intros [H1 H2] [H3 H4]. split; congruence. Qed.

Lemma Undisturbed_emit (e : Event) :
  match e with Fetch _ | Warn => True | _ => False end ->
  Keeps Undisturbed true (emit e).
Proof.
  intros He w. split; [|intros _ r; discriminate].
  split; [reflexivity|]. simpl. rewrite governorEvents_app.
  destruct e; try contradiction; simpl; apply app_nil_r.
Qed.

Lemma Undisturbed_stripYield (b : bool) :
  Keeps Undisturbed true (if nonBlocking options && b then yieldToMain else ret tt).
Proof.
  rewrite disabled. simpl. intros w.
  split; [apply Undisturbed_refl | intros _ r; discriminate].
Qed.

Lemma Undisturbed_cloneTick :
  Keeps Undisturbed true (CloneNode.maybeYieldToMain host options).
Proof.
  intros w.
  destruct (tick_disabled host options w (or_introl disabled)) as [H _].
  rewrite H. split; [apply Undisturbed_refl | intros _ r; discriminate].
Qed.

Lemma Undisturbed_embedTick :
  Keeps Undisturbed true (EmbedImages.maybeYieldToMain host options).
Proof.
  intros w.
  destruct (tick_disabled host options w (or_introl disabled)) as [_ H].
  rewrite H. split; [apply Undisturbed_refl | intros _ r; discriminate].
Qed.

Lemma cloneNode_undisturbed (fuel : nat) (node : Node) (isRoot : bool) :
  Keeps Undisturbed true (CloneNode.cloneNode host fuel node options isRoot).
Proof.
  apply Keeps_cloneNode.
  - exact Undisturbed_refl.
  - exact Undisturbed_trans.
  - exact Undisturbed_emit.
  - exact Undisturbed_stripYield.
  - exact Undisturbed_cloneTick.
Qed.

Lemma embedImages_undisturbed (clonedNode : CNode) :
  Keeps Undisturbed true (EmbedImages.embedImages host clonedNode options).
Proof.
  apply Keeps_embedImages.
  - exact Undisturbed_refl.
  - exact Undisturbed_trans.
  - exact Undisturbed_emit.
  - exact Undisturbed_embedTick.
Qed.

End GovernorDisabled.

Lemma preflightExceeded_maxNodes (node : Node) (options opts : Options) :
  maxNodes opts = maxNodes options ->
  preflightExceeded node opts <-> preflightExceeded node options.
Proof. intros H. unfold preflightExceeded. rewrite H. reflexivity. Qed.

(** A capture with cooperative mode off: it is aborted exactly when the
    pre-flight check fails, and the traversal leaves the context as it was
    initialized and calls nothing of the governor. *)
Lemma toSvg_governor_disabled (host : Host) (options : Options)
      (fuel : nat) (node : Node) :
  nonBlocking options = false ->
  let final := Index.toSvg host fuel node options Index.initialWorld in
  (forall reason,
      fst final = Aborted reason <->
      reason = max_nodes /\ preflightExceeded node options) /\
  governorEvents (trace (snd final)) = [] /\
  (forall c, _context (snd final) = Some c ->
             nodeCount c = 0 /\ totalNodes c = Some (totalEstimate node)).
Proof.
  intros Hnb. cbv zeta. unfold Index.toSvg.
  destruct (initializeOptions_run host node options Index.initialWorld)
    as (opts & w1 & Hinit & Hnb' & Hmax & _ & Htr & Hctx).
  rewrite <- Hnb' in Hnb.
  assert (Hc1 : forall c, _context w1 = Some c ->
                          nodeCount c = 0 /\ totalNodes c = Some (totalEstimate node)).
  { intros c Hc. destruct Hctx as [Hctx | Hctx]; rewrite Hctx in Hc.
    - discriminate.
    - inversion Hc; subst. split; reflexivity. }
  assert (Hg1 : governorEvents (trace w1) = []) by (rewrite Htr; reflexivity).
  unfold bind. rewrite Hinit. cbv iota beta.
  destruct (checkDOMComplexity_run node opts w1) as [[Hex Hrun] | [Hno Hrun]];
    rewrite Hrun; cbv iota beta.
  - simpl. split; [|split; assumption].
    intros reason. split.
    + intros E. inversion E; subst. split; [reflexivity|].
      apply (proj1 (@preflightExceeded_maxNodes node options opts Hmax)). exact Hex.
    + intros [-> _]. reflexivity.
  - assert (Hno' : ~ preflightExceeded node options).
    { intros H. apply Hno.
      apply (proj2 (@preflightExceeded_maxNodes node options opts Hmax)). exact H. }
    destruct (@cloneNode_undisturbed host opts Hnb fuel node true w1) as [[Hc Hg] Hq].
    destruct (CloneNode.cloneNode host fuel node opts true w1)
      as [[[clonedNode|] | r | | ] w2]; simpl in *;
      try (split; [|split]; [ intros reason; split;
                                [ intros E; try discriminate | intros [_ H]; contradiction ]
                            | congruence
                            | intros c E; apply Hc1; congruence ]).
    + destruct (@embedImages_undisturbed host opts Hnb clonedNode w2) as [[Hc' Hg'] Hq'].
      destruct (EmbedImages.embedImages host clonedNode opts w2) as [out w3];
        simpl in *.
      split; [|split].
      * intros reason. split.
        -- intros E. exfalso. exact (Hq' eq_refl reason E).
        -- intros [_ H]. contradiction.
      * congruence.
      * intros c E. apply Hc1. congruence.
    + exfalso. exact (Hq eq_refl r eq_refl).
Qed.

(** C10. With cooperative mode off, or without a traversal context, the
    tick of either phase returns at once and leaves the world as it is: no
    field of the context changes, no callback is called, no limit is
    checked and the tick never yields.  Consequently, with cooperative
    mode off, a capture is aborted exactly when the pre-flight estimate
    exceeds the node cap, whatever [maxNodes] and [timeout] are, and it
    ends with the counter at 0 and no call or yield of the governor. *)
Theorem governor_disabled (host : Host) (options : Options) :
  (forall w,
      nonBlocking options = false \/ _context w = None ->
      CloneNode.maybeYieldToMain host options w = (Ok tt, w) /\
      EmbedImages.maybeYieldToMain host options w = (Ok tt, w)) /\
  (nonBlocking options = false ->
   forall fuel node,
     (forall reason,
         fst (Index.toSvg host fuel node options Index.initialWorld) = Aborted reason <->
         reason = max_nodes /\ preflightExceeded node options) /\
     governorEvents
       (trace (snd (Index.toSvg host fuel node options Index.initialWorld))) = [] /\
     (forall c,
         _context (snd (Index.toSvg host fuel node options Index.initialWorld)) = Some c ->
         nodeCount c = 0 /\ totalNodes c = Some (totalEstimate node))).
Proof.
  split.
  - intros w H. apply tick_disabled. exact H.
  - intros Hnb fuel node. apply (@toSvg_governor_disabled host options fuel node Hnb).
Qed.

(** ** Progress reports *)

Lemma processedValues_app (a b : list Event) :
  processedValues (a ++ b) = (processedValues a ++ processedValues b)%list.
Proof. apply flat_map_app. Qed.

Lemma StronglySorted_snoc (l : list Z) (x : Z) :
  StronglySorted Z.le l -> Forall (fun p => p <= x) l ->
  StronglySorted Z.le (l ++ [x]).
Proof.
  induction 1 as [|a l Hs IH Ha]; intros Hle; simpl.
  - constructor; constructor.
  - inversion Hle; subst. constructor.
    + apply IH. assumption.
    + apply Forall_app. split; [assumption | constructor; [assumption | constructor]].
Qed.

Lemma ProgressInv_ext (T : Z) (w w' : World) :
  _context w' = _context w -> trace w' = trace w ->
  ProgressInv T w -> ProgressInv T w'.
Proof. unfold ProgressInv. intros -> ->. auto. Qed.

Lemma ProgressInv_quiet_event (T : Z) (w : World) (e : Event) :
  match e with Progress _ _ => False | _ => True end ->
  ProgressInv T w ->
  ProgressInv T (mkWorld (_context w) (reads w) (trace w ++ [e])).
Proof.
  intros He (Hs & Ht & Hc). unfold ProgressInv. simpl.
  assert (E : processedValues (trace w ++ [e]) = processedValues (trace w)).
  { rewrite processedValues_app. destruct e; try contradiction; simpl; apply app_nil_r. }
  rewrite E. split; [exact Hs|]. split; [|exact Hc].
  intros p t Hin. apply in_app_or in Hin. destruct Hin as [Hin | [Hin | []]].
  - eapply Ht; eauto.
  - subst e. contradiction.
Qed.

Section ProgressReports.

Variable host : Host.
Variable options : Options.
Variable T : Z.

Lemma progressAndYield_keeps (c : CloneContext) (w1 : World) :
  _context w1 = Some (incremented c) ->
  ProgressInv T w1 ->
  ProgressInv T (snd (progressAndYield host options (incremented c) w1)).
Proof.
  intros Hctx (Hs & Ht & Hc). rewrite Hctx in Hc. destruct Hc as [Htot Hle].
  simpl in Htot, Hle.
  rewrite progressAndYield_run. cbv zeta. simpl snd.
  set (pv := processedValues (trace w1)) in *.
  assert (Hp : (progressEvents options c = [] \/
                progressEvents options c = [Progress (nodeCount c + 1) T])).
  { unfold progressEvents. rewrite Htot.
    destruct (onProgress options && negb (T =? 0)); auto. }
  assert (Hinv : StronglySorted Z.le (pv ++ processedValues (progressEvents options c)) /\
                 Forall (fun p => p <= nodeCount c + 1)
                        (pv ++ processedValues (progressEvents options c)) /\
                 (forall p t, In (Progress p t) (trace w1 ++ progressEvents options c) ->
                              t = T)).
  { destruct Hp as [-> | ->]; simpl.
    - rewrite app_nil_r. split; [exact Hs|]. split; [exact Hle|].
      intros p t Hin. rewrite app_nil_r in Hin. eapply Ht; eauto.
    - split; [apply StronglySorted_snoc; assumption|].
      split.
      + apply Forall_app. split; [exact Hle|]. constructor; [lia | constructor].
      + intros p t Hin. apply in_app_or in Hin. destruct Hin as [Hin | [Hin | []]].
        * eapply Ht; eauto.
        * inversion Hin; reflexivity. }
  destruct Hinv as (Hs' & Hle' & Ht').
  destruct (suspendsb host options c (reads w1)); unfold ProgressInv; simpl.
  - rewrite app_assoc, processedValues_app. simpl. rewrite app_nil_r.
    rewrite processedValues_app.
    split; [exact Hs'|]. split; [|split; [exact Htot | exact Hle']].
    intros p t Hin.
    apply in_app_or in Hin. destruct Hin as [Hin | [Hin | []]].
    + apply (Ht' p t Hin).
    + discriminate Hin.
  - rewrite Hctx. simpl. rewrite processedValues_app.
    split; [exact Hs'|]. split; [exact Ht'|]. split; [exact Htot | exact Hle'].
Qed.

Lemma counted_keeps (w : World) (c : CloneContext) :
  _context w = Some c -> ProgressInv T w -> ProgressInv T (counted w c).
Proof.
  intros Hctx (Hs & Ht & Hc). rewrite Hctx in Hc. destruct Hc as [Htot Hle].
  unfold ProgressInv, counted. simpl.
  split; [exact Hs|]. split; [exact Ht|]. split; [exact Htot|].
  eapply Forall_impl; [|exact Hle]. simpl. intros p Hp. lia.
Qed.

Lemma KeepsProgress_embedTick :
  Keeps (KeepsProgress T) false (EmbedImages.maybeYieldToMain host options).
Proof.
  intros w. split; [|discriminate]. intros Hinv.
  destruct (nonBlocking options) eqn:Hnb.
  - destruct (_context w) as [c|] eqn:Hctx.
    + rewrite (embedTick_run host options w Hnb Hctx).
      apply progressAndYield_keeps; [reflexivity|].
      apply counted_keeps; assumption.
    + destruct (tick_disabled host options w (or_intror Hctx)) as [_ H].
      rewrite H. exact Hinv.
  - destruct (tick_disabled host options w (or_introl Hnb)) as [_ H].
    rewrite H. exact Hinv.
Qed.

Lemma KeepsProgress_cloneTick :
  Keeps (KeepsProgress T) false (CloneNode.maybeYieldToMain host options).
Proof.
  intros w. split; [|discriminate]. intros Hinv.
  destruct (nonBlocking options) eqn:Hnb.
  - destruct (_context w) as [c|] eqn:Hctx.
    + rewrite (cloneTick_run host options w Hnb Hctx).
      pose proof (checkLimits_frame host options (counted w c)) as [Hc Ht].
      assert (Hchecked : ProgressInv T (snd (CloneNode.checkLimits host options (counted w c)))).
      { eapply ProgressInv_ext; [exact Hc | exact Ht |].
        apply counted_keeps; assumption. }
      destruct (CloneNode.checkLimits host options (counted w c))
        as [[[] | r | | ] checked]; simpl in *; try exact Hchecked.
      apply progressAndYield_keeps; [exact Hc | exact Hchecked].
    + destruct (tick_disabled host options w (or_intror Hctx)) as [H _].
      rewrite H. exact Hinv.
  - destruct (tick_disabled host options w (or_introl Hnb)) as [H _].
    rewrite H. exact Hinv.
Qed.

Lemma KeepsProgress_emit (e : Event) :
  match e with Fetch _ | Warn => True | _ => False end ->
  Keeps (KeepsProgress T) false (emit e).
Proof.
  intros He w. split; [|discriminate]. intros Hinv.
  apply ProgressInv_quiet_event; [|exact Hinv].
  destruct e; try contradiction; exact I.
Qed.

Lemma KeepsProgress_stripYield (b : bool) :
  Keeps (KeepsProgress T) false
        (if nonBlocking options && b then yieldToMain else ret tt).
Proof.
  intros w. split; [|discriminate]. intros Hinv.
  destruct (nonBlocking options && b); [|exact Hinv].
  apply (ProgressInv_quiet_event (Yield (_context w)) I Hinv).
Qed.

Lemma KeepsProgress_refl (w : World) : KeepsProgress T w w.
Proof. intros H. exact H. Qed.

Lemma KeepsProgress_trans (a b c : World) :
  KeepsProgress T a b -> KeepsProgress T b c -> KeepsProgress T a c.
Proof. unfold KeepsProgress. auto. Qed.

Lemma cloneNode_keeps_progress (fuel : nat) (node : Node) (isRoot : bool) (w : World) :
  ProgressInv T w ->
  ProgressInv T (snd (CloneNode.cloneNode host fuel node options isRoot w)).
Proof.
  apply (Keeps_cloneNode KeepsProgress_refl KeepsProgress_trans KeepsProgress_emit
                         KeepsProgress_stripYield KeepsProgress_cloneTick).
Qed.

Lemma embedImages_keeps_progress (clonedNode : CNode) (w : World) :
  ProgressInv T w ->
  ProgressInv T (snd (EmbedImages.embedImages host clonedNode options w)).
Proof.
  apply (Keeps_embedImages KeepsProgress_refl KeepsProgress_trans KeepsProgress_emit
                           KeepsProgress_embedTick).
Qed.

End ProgressReports.

(** C4 (amended). In every capture the processed values reported to the
    progress callback are in non-decreasing order, and every report carries
    the same total, the floor of 2.5 times the pre-flight node count.  (The
    total is an estimate: the processed value may exceed it.) *)
Theorem progress_reports_monotone (host : Host) (fuel : nat) (node : Node)
        (options : Options) :
  StronglySorted Z.le
    (processedValues
       (trace (snd (Index.toSvg host fuel node options Index.initialWorld)))) /\
  (forall processed total,
      In (Progress processed total)
         (trace (snd (Index.toSvg host fuel node options Index.initialWorld))) ->
      total = totalEstimate node).
Proof.
  assert (Hinv : ProgressInv (totalEstimate node)
                   (snd (Index.toSvg host fuel node options Index.initialWorld))).
  { unfold Index.toSvg.
    destruct (initializeOptions_run host node options Index.initialWorld)
      as (opts & w1 & Hinit & _ & _ & _ & Htr & Hctx).
    assert (H1 : ProgressInv (totalEstimate node) w1).
    { unfold ProgressInv. rewrite Htr. simpl.
      split; [constructor|]. split; [intros p t []|].
      destruct Hctx as [-> | ->]; simpl; [reflexivity|].
      split; [reflexivity | constructor]. }
    unfold bind. rewrite Hinit. cbv iota beta.
    destruct (checkDOMComplexity_run node opts w1) as [[_ Hrun] | [_ Hrun]];
      rewrite Hrun; cbv iota beta; [exact H1|].
    pose proof (cloneNode_keeps_progress host opts fuel node true H1) as H2.
    destruct (CloneNode.cloneNode host fuel node opts true w1)
      as [[[clonedNode|] | r | | ] w2]; simpl in *; try exact H2.
    apply embedImages_keeps_progress. exact H2. }
  destruct Hinv as (Hs & Ht & _). split; [exact Hs | exact Ht].
Qed.

(** C4 as stated fails: capturing [<p>Hello <b>big</b> world</p>] with a
    progress callback reports the total 5 (two elements), and the last
    report is (8, 5): each phase ticks once per child node, text nodes
    included, 4 times in the cloning phase and 4 times in the embedding
    phase. *)
Lemma progress_exceeds_total :
  let final :=
    Index.toSvg (hostWith (steadyClock 1000 1) [paragraph]) 10 paragraph
                (cooperativeOptions true None None None) Index.initialWorld in
  totalEstimate paragraph = 5 /\
  (exists clone, fst final = Ok clone) /\
  last (trace (snd final)) Warn = Progress 8 5 /\
  ~ (8 <= totalEstimate paragraph).
Proof.
  cbv zeta. split; [reflexivity|]. split; [eexists; vm_compute; reflexivity|].
  split; [vm_compute; reflexivity|]. vm_compute. intros H. apply H. reflexivity.
Qed.

(* ================================================================== *)
(** * The chunked raster-surface path *)
(* ================================================================== *)

Lemma totalStrips_covers (h : nat) :
  (h <= CloneNode.totalStrips h * CloneNode.STRIP_HEIGHT)%nat.
Proof.
  unfold CloneNode.totalStrips, CloneNode.STRIP_HEIGHT.
  pose proof (Nat.div_mod_eq (h + (256 - 1)) 256).
  pose proof (Nat.mod_upper_bound (h + (256 - 1)) 256).
  lia.
Qed.

Lemma totalStrips_tight (h i : nat) :
  (i < CloneNode.totalStrips h)%nat -> (i * CloneNode.STRIP_HEIGHT < h)%nat.
Proof.
  unfold CloneNode.totalStrips, CloneNode.STRIP_HEIGHT.
  pose proof (Nat.div_mod_eq (h + (256 - 1)) 256).
  pose proof (Nat.mod_upper_bound (h + (256 - 1)) 256).
  lia.
Qed.

Section ChunkedSurface.

Variable host : Host.
Variable options : Options.
Variable s : Surface.
Hypothesis wellFormed : List.length (pixels s) = (width s * height s)%nat.

Lemma copiedUpTo_length (rows : nat) :
  (rows <= height s)%nat -> List.length (copiedUpTo s rows) = (width s * height s)%nat.
Proof.
  intros H. unfold copiedUpTo.
  rewrite length_app, length_firstn, length_skipn, repeat_length, wellFormed.
  nia.
Qed.

Lemma strip_step (i : nat) :
  let '(y, stripHeight) := CloneNode.stripBounds (height s) i in
  CloneNode.putImageData (width s)
    (copiedUpTo s (Nat.min (i * CloneNode.STRIP_HEIGHT) (height s)))
    (CloneNode.getImageData s y stripHeight) y =
  copiedUpTo s (Nat.min (S i * CloneNode.STRIP_HEIGHT) (height s)).
Proof.
  unfold CloneNode.stripBounds, CloneNode.putImageData, CloneNode.getImageData.
  set (y := (i * CloneNode.STRIP_HEIGHT)%nat).
  set (sh := Nat.min CloneNode.STRIP_HEIGHT (height s - y)).
  assert (Hnext : Nat.min (S i * CloneNode.STRIP_HEIGHT) (height s)
                  = (Nat.min y (height s) + sh)%nat).
  { unfold sh, y, CloneNode.STRIP_HEIGHT. lia. }
  rewrite Hnext. clear Hnext.
  destruct (Nat.le_gt_cases (height s) y) as [Hout | Hin].
  - (* past the last row: an empty strip *)
    assert (Hsh : sh = 0%nat) by (unfold sh, CloneNode.STRIP_HEIGHT; lia).
    rewrite Hsh. simpl. rewrite !Nat.add_0_r.
    rewrite Nat.min_r by exact Hout.
    assert (Hlen : List.length (copiedUpTo s (height s)) = (width s * height s)%nat)
      by (apply copiedUpTo_length; lia).
    rewrite firstn_all2 by (rewrite Hlen; nia).
    rewrite skipn_all2 by (rewrite Hlen; nia).
    apply app_nil_r.
  - rewrite Nat.min_l by lia.
    assert (Hsh : (y + sh <= height s)%nat) by (unfold sh, CloneNode.STRIP_HEIGHT; lia).
    assert (Himg : List.length (firstn (sh * width s) (skipn (y * width s) (pixels s)))
                   = (sh * width s)%nat).
    { rewrite length_firstn, length_skipn, wellFormed. nia. }
    rewrite Himg. unfold copiedUpTo.
    assert (Hfirst : List.length (firstn (y * width s) (pixels s)) = (y * width s)%nat).
    { rewrite length_firstn, wellFormed. nia. }
    rewrite firstn_app, Hfirst, Nat.sub_diag, firstn_O, app_nil_r.
    rewrite firstn_firstn, Nat.min_id.
    rewrite skipn_app, Hfirst.
    rewrite (skipn_all2 (firstn (y * width s) (pixels s))) by (rewrite Hfirst; lia).
    simpl app.
    replace (y * width s + sh * width s - y * width s)%nat with (sh * width s)%nat by lia.
    rewrite skipn_skipn.
    replace (sh * width s + y * width s)%nat with ((y + sh) * width s)%nat by lia.
    rewrite app_assoc. f_equal.
    replace ((y + sh) * width s)%nat with (y * width s + sh * width s)%nat by lia.
    rewrite <- (firstn_skipn (y * width s) (firstn (y * width s + sh * width s) (pixels s))).
    rewrite firstn_firstn.
    replace (Nat.min (y * width s) (y * width s + sh * width s)) with (y * width s)%nat by lia.
    f_equal.
    rewrite skipn_firstn_comm.
    f_equal. lia.
Qed.

Lemma stripLoop_step (todo i : nat) (off : list N) :
  CloneNode.stripLoop options s (S todo) i off =
  let '(y, stripHeight) := CloneNode.stripBounds (height s) i in
  ((if nonBlocking options && (i mod 4 =? 3)%nat then yieldToMain else ret tt) ;;;
   CloneNode.stripLoop options s todo (S i)
     (CloneNode.putImageData (width s) off
        (CloneNode.getImageData s y stripHeight) y)).
Proof. reflexivity. Qed.

Lemma stripLoop_copies (todo i : nat) (w : World) :
  exists w',
    CloneNode.stripLoop options s todo i
      (copiedUpTo s (Nat.min (i * CloneNode.STRIP_HEIGHT) (height s))) w =
    (Ok (copiedUpTo s (Nat.min ((i + todo) * CloneNode.STRIP_HEIGHT) (height s))), w').
Proof.
  revert i w. induction todo as [|todo IH]; intros i w.
  - rewrite Nat.add_0_r. eexists. reflexivity.
  - rewrite stripLoop_step.
    pose proof (strip_step i) as Hstep.
    destruct (CloneNode.stripBounds (height s) i) as [y stripHeight].
    rewrite Hstep.
    unfold bind.
    assert (Hy : exists w1,
               (if nonBlocking options && (i mod 4 =? 3)%nat
                then yieldToMain else ret tt) w = (Ok tt, w1)).
    { destruct (nonBlocking options && (i mod 4 =? 3)%nat); eexists; reflexivity. }
    destruct Hy as [w1 ->].
    replace (i + S todo)%nat with (S i + todo)%nat by lia.
    apply IH.
Qed.

Lemma assembleOffscreen_copy (w : World) :
  exists w',
    CloneNode.assembleOffscreen s options w =
    (Ok (mkSurface (width s) (height s) (pixels s) true), w').
Proof.
  unfold CloneNode.assembleOffscreen.
  destruct (stripLoop_copies (CloneNode.totalStrips (height s)) 0 w) as [w' Hloop].
  simpl in Hloop. unfold copiedUpTo in Hloop at 1. simpl in Hloop.
  unfold bind. rewrite Hloop. exists w'. unfold ret. f_equal. f_equal.
  rewrite Nat.min_r by apply totalStrips_covers.
  unfold copiedUpTo.
  rewrite firstn_all2 by (rewrite wellFormed; lia).
  rewrite skipn_all2 by (rewrite repeat_length; lia).
  rewrite app_nil_r. reflexivity.
Qed.

End ChunkedSurface.

Lemma strips_tile_from (h n i : nat) :
  (i + n = CloneNode.totalStrips h)%nat ->
  Tiles (Nat.min (i * CloneNode.STRIP_HEIGHT) h) h
        (map (CloneNode.stripBounds h) (seq i n)).
Proof.
  revert i. induction n as [|n IH]; intros i Hsum; simpl.
  - rewrite Nat.add_0_r in Hsum. subst i.
    rewrite Nat.min_r by apply totalStrips_covers. constructor.
  - assert (Hin : (i * CloneNode.STRIP_HEIGHT < h)%nat)
      by (apply totalStrips_tight; lia).
    unfold CloneNode.stripBounds at 1.
    rewrite Nat.min_l by lia.
    apply Tiles_strip;
      [unfold CloneNode.STRIP_HEIGHT in *; lia
      |unfold CloneNode.STRIP_HEIGHT in *; lia |].
    replace (i * CloneNode.STRIP_HEIGHT +
             Nat.min CloneNode.STRIP_HEIGHT (h - i * CloneNode.STRIP_HEIGHT))%nat
      with (Nat.min (S i * CloneNode.STRIP_HEIGHT) h)
      by (unfold CloneNode.STRIP_HEIGHT in *; lia).
    apply IH. lia.
Qed.

Section ChunkedEquivalence.

Variable host : Host.
Variable options : Options.

Lemma canvasToDataURLChunked_value (s : Surface) (w : World) :
  List.length (pixels s) = (width s * height s)%nat ->
  exists w',
    CloneNode.canvasToDataURLChunked host s options w =
    (Ok (CloneNode.toDataURL host s), w').
Proof.
  intros Hwf. unfold CloneNode.canvasToDataURLChunked.
  destruct (context2d s); simpl.
  - destruct (assembleOffscreen_copy options s Hwf w) as [w' Hcopy].
    unfold bind. rewrite Hcopy. exists w'. reflexivity.
  - exists w. reflexivity.
Qed.

Lemma cloneCanvasElement_paths (node : Node) (s : Surface) (w : World) :
  List.length (pixels s) = (width s * height s)%nat ->
  fst (CloneNode.cloneCanvasElement host node s options w) =
  fst (CloneNode.cloneCanvasElement (withoutOffscreen host) node s options w).
Proof.
  intros Hwf. unfold CloneNode.cloneCanvasElement.
  change (CloneNode.toDataURL (withoutOffscreen host) s)
    with (CloneNode.toDataURL host s).
  destruct (String.eqb (CloneNode.toDataURL host s) "data:,"); [reflexivity|].
  change (offscreenCanvas (withoutOffscreen host)) with false.
  rewrite orb_true_r.
  change (CloneNode.createImage (withoutOffscreen host))
    with (CloneNode.createImage host).
  destruct (negb _ || negb (offscreenCanvas host)); [reflexivity|].
  destruct (canvasToDataURLChunked_value s w Hwf) as [w' Hchunk].
  unfold bind at 1. unfold tryCatch. rewrite Hchunk.
  unfold bind, CloneNode.createImage.
  destruct (imageLoads host (CloneNode.toDataURL host s)); reflexivity.
Qed.

(** C8. For every raster surface holding [width * height] pixels (so in
    particular for every non-empty surface of more than 500,000 pixels),
    the chunked path copies the surface in strips of at most 256 rows that
    tile the full height with no gap or overlap; the auxiliary surface it
    assembles has the dimensions and the pixels of the source, its encoding
    is the synchronous encoding of the source, and cloning the canvas gives
    the same result with and without chunked processing. *)
Theorem chunked_matches_synchronous (node : Node) (s : Surface) (w : World) :
  List.length (pixels s) = (width s * height s)%nat ->
  Tiles 0 (height s) (strips (height s)) /\
  (exists w',
      CloneNode.assembleOffscreen s options w =
      (Ok (mkSurface (width s) (height s) (pixels s) true), w')) /\
  fst (CloneNode.canvasToDataURLChunked host s options w) =
    Ok (CloneNode.toDataURL host s) /\
  fst (CloneNode.cloneCanvasElement host node s options w) =
    fst (CloneNode.cloneCanvasElement (withoutOffscreen host) node s options w).
Proof.
  intros Hwf. split; [|split; [|split]].
  - apply (strips_tile_from (height s) (CloneNode.totalStrips (height s)) 0).
    reflexivity.
  - apply assembleOffscreen_copy. exact Hwf.
  - destruct (canvasToDataURLChunked_value s w Hwf) as [w' ->]. reflexivity.
  - apply cloneCanvasElement_paths. exact Hwf.
Qed.

End ChunkedEquivalence.

(** C8, a witness: a surface of 1000 x 501 pixels, above the threshold of
    500,000 pixels, in cooperative mode. *)
Lemma chunked_matches_synchronous_witness :
  (500000 < N.of_nat (width largeSurface) * N.of_nat (height largeSurface))%N /\
  Tiles 0 501 (strips 501) /\
  (exists w',
      CloneNode.assembleOffscreen largeSurface
        (cooperativeOptions false None None None) Index.initialWorld =
      (Ok (mkSurface 1000 501 (pixels largeSurface) true), w')) /\
  fst (CloneNode.canvasToDataURLChunked (hostWith (steadyClock 0 1) []) largeSurface
         (cooperativeOptions false None None None) Index.initialWorld) =
    Ok (CloneNode.toDataURL (hostWith (steadyClock 0 1) []) largeSurface) /\
  fst (CloneNode.cloneCanvasElement (hostWith (steadyClock 0 1) [])
         (element 1 "CANVAS" []) largeSurface
         (cooperativeOptions false None None None) Index.initialWorld) =
    fst (CloneNode.cloneCanvasElement (withoutOffscreen (hostWith (steadyClock 0 1) []))
           (element 1 "CANVAS" []) largeSurface
           (cooperativeOptions false None None None) Index.initialWorld).
Proof.
  split; [reflexivity|].
  apply (chunked_matches_synchronous (hostWith (steadyClock 0 1) [])
           (cooperativeOptions false None None None)
           (element 1 "CANVAS" []) largeSurface Index.initialWorld).
  apply repeat_length.
Defined.

(* ================================================================== *)
(** * Decoration: the font size *)
(* ================================================================== *)

Lemma append_assoc (a b c : string) : ((a ++ b) ++ c = a ++ (b ++ c))%string.
Proof. induction a as [|x a IH]; simpl; [reflexivity | rewrite IH; reflexivity]. Qed.

Section AssocFacts.

Variable V : Type.

Lemma assoc_upsert_same (k : string) (v : V) (l : list (string * V)) :
  assoc k (upsert k v l) = Some v.
Proof.
  induction l as [|[k' v'] l IH]; simpl.
  - rewrite String.eqb_refl. reflexivity.
  - destruct (String.eqb k k') eqn:E; simpl.
    + rewrite String.eqb_refl. reflexivity.
    + rewrite E. exact IH.
Qed.

Lemma assoc_upsert_other (k k0 : string) (v : V) (l : list (string * V)) :
  k <> k0 -> assoc k (upsert k0 v l) = assoc k l.
Proof.
  intros Hne. apply String.eqb_neq in Hne.
  induction l as [|[k' v'] l IH]; simpl.
  - rewrite Hne. reflexivity.
  - destruct (String.eqb k0 k') eqn:E; simpl.
    + apply String.eqb_eq in E. subst k'. rewrite Hne. reflexivity.
    + rewrite IH. reflexivity.
Qed.

Lemma assoc_remove_other (k k0 : string) (l : list (string * V)) :
  k <> k0 -> assoc k (remove k0 l) = assoc k l.
Proof.
  intros Hne. apply String.eqb_neq in Hne.
  induction l as [|[k' v'] l IH]; simpl.
  - reflexivity.
  - destruct (String.eqb k0 k') eqn:E; simpl.
    + apply String.eqb_eq in E. subst k'. rewrite Hne. exact IH.
    + rewrite IH. reflexivity.
Qed.

Lemma assoc_remove_same (k : string) (l : list (string * V)) :
  assoc k (remove k l) = None.
Proof.
  induction l as [|[k' v'] l IH]; simpl; [reflexivity|].
  destruct (String.eqb k k') eqn:E; simpl; [exact IH|].
  rewrite E. exact IH.
Qed.

Lemma upsert_same (k : string) (v : V) (l : list (string * V)) :
  assoc k l = Some v -> upsert k v l = l.
Proof.
  induction l as [|[k' v'] l IH]; simpl; [discriminate|].
  destruct (String.eqb k k') eqn:E.
  - intros H. inversion H; subst. apply String.eqb_eq in E. subst. reflexivity.
  - intros H. rewrite IH by exact H. reflexivity.
Qed.

End AssocFacts.

Lemma getPropertyValue_set_same (st : Style) (name value priority : string) :
  value <> "" ->
  getPropertyValue (setProperty st name value priority) name = value.
Proof.
  intros Hne. unfold getPropertyValue, setProperty.
  apply String.eqb_neq in Hne. rewrite Hne.
  rewrite assoc_upsert_same. reflexivity.
Qed.

Lemma getPropertyValue_set_other (st : Style) (name name0 value priority : string) :
  name <> name0 ->
  getPropertyValue (setProperty st name0 value priority) name = getPropertyValue st name.
Proof.
  intros Hne. unfold getPropertyValue, setProperty.
  destruct (String.eqb value "").
  - rewrite assoc_remove_other by exact Hne. reflexivity.
  - rewrite assoc_upsert_other by exact Hne. reflexivity.
Qed.

(** ** Writes to a declaration block *)

Lemma assoc_applyWrite (k : string) (w : Write) (s : Style) :
  assoc k (applyWrite s w) = if String.eqb k (fst w) then snd w else assoc k s.
Proof.
  destruct w as [name [d|]]; simpl; destruct (String.eqb k name) eqn:E.
  - apply String.eqb_eq in E. subst. apply assoc_upsert_same.
  - apply assoc_upsert_other. apply String.eqb_neq. exact E.
  - apply String.eqb_eq in E. subst. apply assoc_remove_same.
  - apply assoc_remove_other. apply String.eqb_neq. exact E.
Qed.

Lemma lastWrite_app (k : string) (a b : list Write) :
  lastWrite k (a ++ b) =
  match lastWrite k b with
  | Some d => Some d
  | None => lastWrite k a
  end.
Proof.
  unfold lastWrite. rewrite rev_app_distr.
  induction (rev b) as [|[k' d] l IH]; simpl; [reflexivity|].
  destruct (String.eqb k k'); [reflexivity | exact IH].
Qed.

Lemma lastWrite_absent (k : string) (ws : list Write) :
  ~ In k (map fst ws) -> lastWrite k ws = None.
Proof.
  unfold lastWrite. intros Hk.
  assert (H : ~ In k (map fst (rev ws))).
  { intros H. apply Hk. rewrite map_rev in H. apply in_rev in H. exact H. }
  induction (rev ws) as [|[k' d] l IH]; simpl; [reflexivity|].
  destruct (String.eqb k k') eqn:E.
  - apply String.eqb_eq in E. subst. exfalso. apply H. left. reflexivity.
  - apply IH. intros Hin. apply H. right. exact Hin.
Qed.

(** A declaration block after a sequence of writes: every declaration is
    what was last written to it, or what it was. *)
Lemma assoc_writes (k : string) (ws : list Write) (s : Style) :
  assoc k (fold_left applyWrite ws s) =
  match lastWrite k ws with
  | Some d => d
  | None => assoc k s
  end.
Proof.
  revert s. induction ws as [|w ws IH] using rev_ind; intros s; [reflexivity|].
  rewrite fold_left_app. simpl. rewrite assoc_applyWrite.
  rewrite lastWrite_app. unfold lastWrite at 1. simpl.
  destruct w as [k' d]. simpl. destruct (String.eqb k k'); [reflexivity | apply IH].
Qed.

Section WritesOfAList.

Variable W : string -> list Write.
Variable k : string.

Lemma lastWrite_nobody (names : list string) :
  (forall m, In m names -> ~ In k (map fst (W m))) ->
  lastWrite k (flat_map W names) = None.
Proof.
  induction names as [|n names IH]; intros H; [reflexivity|].
  simpl. rewrite lastWrite_app. rewrite IH by (intros m Hm; apply H; right; exact Hm).
  apply lastWrite_absent. apply H. left. reflexivity.
Qed.

Lemma lastWrite_only (name : string) (names : list string) :
  In name names ->
  (forall m, In m names -> m <> name -> ~ In k (map fst (W m))) ->
  lastWrite k (flat_map W names) = lastWrite k (W name).
Proof.
  induction names as [|n names IH]; intros Hin H; [destruct Hin|].
  simpl. rewrite lastWrite_app.
  assert (Hrest : forall m, In m names -> m <> name -> ~ In k (map fst (W m)))
    by (intros m Hm; apply H; right; exact Hm).
  destruct (string_dec n name) as [-> | Hn].
  - destruct (in_dec string_dec name names) as [Hlater | Hlast].
    + rewrite (IH Hlater Hrest). destruct (lastWrite k (W name)); reflexivity.
    + rewrite lastWrite_nobody; [reflexivity|].
      intros m Hm. apply Hrest; [exact Hm|]. intros ->. contradiction.
  - destruct Hin as [Heq | Hlater]; [contradiction|].
    rewrite (IH Hlater Hrest). destruct (lastWrite k (W name)) eqn:E; [reflexivity|].
    apply lastWrite_absent. apply H; [left; reflexivity | exact Hn].
Qed.

End WritesOfAList.

Lemma fold_left_writes (W : string -> list Write) (names : list string) (s : Style) :
  fold_left (fun st name => fold_left applyWrite (W name) st) names s =
  fold_left applyWrite (flat_map W names) s.
Proof.
  revert s. induction names as [|n names IH]; intros s; [reflexivity|].
  simpl. rewrite fold_left_app. apply IH.
Qed.

(** The per-property path of [cloneCSSStyle] applies its writes, in order,
    to the inline style of the clone. *)
Lemma cloneCSSStyle_writes (host : Host) (options : Options) (nativeNode : Node)
      (clonedNode : CNode) (targetStyle : Style) :
  cstyle clonedNode = Some targetStyle ->
  cssText (computedStyle nativeNode) = "" ->
  cstyle (CloneNode.cloneCSSStyle host nativeNode clonedNode options) =
  Some (fold_left applyWrite (styleWrites host nativeNode clonedNode options) targetStyle).
Proof.
  intros Hst Hcss. unfold CloneNode.cloneCSSStyle. rewrite Hst, Hcss.
  simpl nonEmpty. cbv iota. simpl cstyle. f_equal.
  apply (fold_left_writes (propertyWrites host nativeNode clonedNode)).
Qed.

(** A property the engine stores as written. *)
Lemma written_stored (host : Host) (name value priority p : string) :
  value <> "" ->
  storedPriority priority = Some p ->
  parseDeclaration (engine host) name value = Some [(name, value)] ->
  lastWrite name (CloneNode.written host name value priority) = Some (Some (value, p)).
Proof.
  intros Hne Hp Hparse. unfold CloneNode.written.
  apply String.eqb_neq in Hne. rewrite Hne, Hp, Hparse.
  unfold lastWrite. simpl. rewrite String.eqb_refl. reflexivity.
Qed.

(** A value the engine refuses writes nothing. *)
Lemma written_refused (host : Host) (name value priority : string) :
  value <> "" ->
  parseDeclaration (engine host) name value = None ->
  CloneNode.written host name value priority = [].
Proof.
  intros Hne Hparse. unfold CloneNode.written.
  apply String.eqb_neq in Hne. rewrite Hne, Hparse.
  destruct (storedPriority priority); reflexivity.
Qed.

(** ** The reduced font size *)

Lemma Qfloor_tenths (k : Z) :
  Qfloor ((inject_Z k - (1 # 10)) * inject_Z 10) = 10 * k - 1.
Proof.
  unfold Qfloor, Qmult, Qminus, Qplus, Qopp, inject_Z. simpl.
  replace ((k * 10 + -1) * 10) with ((10 * k - 1) * 10) by lia.
  apply Z.div_mul. discriminate.
Qed.

Lemma numberToString_reduced (k : Z) :
  0 <= k ->
  CloneNode.numberToString (CloneNode.Finite (inject_Z k - (1 # 10))%Q) = lessATenth k.
Proof.
  intros Hk. unfold CloneNode.numberToString, lessATenth. rewrite Qfloor_tenths.
  destruct (Z.leb_spec 1 k).
  - destruct (Z.ltb_spec (10 * k - 1) 0); [lia|].
    replace (Z.abs (10 * k - 1)) with (9 + (k - 1) * 10) by lia.
    rewrite Z.div_add by discriminate. rewrite Z.mod_add by discriminate.
    reflexivity.
  - assert (k = 0) by lia. subst k. reflexivity.
Qed.

Lemma adjustedValue_font_size (nativeNode : Node) (clonedNode : CNode) :
  endsWith (getPropertyValue (properties (computedStyle nativeNode)) "font-size") "px" = true ->
  CloneNode.adjustedValue nativeNode clonedNode "font-size" =
  (CloneNode.numberToString
     (CloneNode.reducedFont
        (getPropertyValue (properties (computedStyle nativeNode)) "font-size")) ++ "px")%string.
Proof.
  intros Hpx. unfold CloneNode.adjustedValue. rewrite Hpx. simpl.
  rewrite andb_false_r. simpl.
  destruct (getAttribute clonedNode "d"); reflexivity.
Qed.

Lemma append_px_nonempty (a : string) : (a ++ "px")%string <> "".
Proof. destruct a; discriminate. Qed.

Lemma exactLiteral_floor (text : string) (x : Q) :
  exactLiteral text = true ->
  CloneNode.parseFloat text = CloneNode.Finite x ->
  0 <= Qfloor x.
Proof.
  unfold exactLiteral, CloneNode.parseFloat. intros Hexact Hparse.
  destruct (startsWith _ "Infinity"); [discriminate Hparse|].
  destruct (CloneNode.readLiteral (CloneNode.trimStart text)) as [l|];
    [|discriminate Hexact].
  injection Hparse as <-.
  apply andb_prop in Hexact. destruct Hexact as [Hexact _].
  apply andb_prop in Hexact. destruct Hexact as [_ Hfloor].
  apply Z.leb_le. exact Hfloor.
Qed.

(** C5 (amended).  On the per-property path of [cloneCSSStyle], for a
    computed [font-size] ending in [px] whose numeric part is [x], the
    value passed to [setProperty] is the floor of [x] less a tenth of a
    pixel (0.1px, not 0.01px): [floor x - 1] followed by [.9px] for a size
    of at least one pixel, and [-0.1px] below.  When no other property of
    the allow-list writes the font size, the clone holds that value, with
    the priority, if the CSS parser of the host stores it; if the parser
    refuses it, as it does the negative length, the font size of the clone
    is left as it was. *)
Theorem font_size_reduced (host : Host) (options : Options)
        (nativeNode : Node) (clonedNode : CNode) (targetStyle : Style)
        (value : string) (x : Q) :
  cstyle clonedNode = Some targetStyle ->
  cssText (computedStyle nativeNode) = "" ->
  In "font-size" (CloneNode.getStyleProperties host options) ->
  (forall name,
      In name (CloneNode.getStyleProperties host options) -> name <> "font-size" ->
      ~ In "font-size" (map fst (propertyWrites host nativeNode clonedNode name))) ->
  getPropertyValue (properties (computedStyle nativeNode)) "font-size" = value ->
  endsWith value "px" = true ->
  exactLiteral (substring 0 (String.length value - 2) value) = true ->
  CloneNode.parseFloat (substring 0 (String.length value - 2) value) = CloneNode.Finite x ->
  let reduced := (lessATenth (Qfloor x) ++ "px")%string in
  CloneNode.adjustedValue nativeNode clonedNode "font-size" = reduced /\
  exists st,
    cstyle (CloneNode.cloneCSSStyle host nativeNode clonedNode options) = Some st /\
    (forall p,
        storedPriority
          (getPropertyPriority (properties (computedStyle nativeNode)) "font-size") = Some p ->
        parseDeclaration (engine host) "font-size" reduced = Some [("font-size", reduced)] ->
        getPropertyValue st "font-size" = reduced /\
        getPropertyPriority st "font-size" = p) /\
    (parseDeclaration (engine host) "font-size" reduced = None ->
     getPropertyValue st "font-size" = getPropertyValue targetStyle "font-size" /\
     getPropertyPriority st "font-size" = getPropertyPriority targetStyle "font-size").
Proof.
  intros Hst Hcss Hin Hothers Hval Hpx Hexact Hparse reduced.
  assert (Hadj : CloneNode.adjustedValue nativeNode clonedNode "font-size" = reduced).
  { rewrite adjustedValue_font_size by (rewrite Hval; exact Hpx).
    rewrite Hval. unfold CloneNode.reducedFont. rewrite Hparse.
    rewrite numberToString_reduced by (exact (exactLiteral_floor _ Hexact Hparse)).
    reflexivity. }
  split; [exact Hadj|].
  eexists. split; [apply (cloneCSSStyle_writes host options _ _ Hst Hcss)|].
  assert (Hlast : lastWrite "font-size" (styleWrites host nativeNode clonedNode options) =
                  lastWrite "font-size" (propertyWrites host nativeNode clonedNode "font-size"))
    by (apply lastWrite_only; assumption).
  assert (Hne : reduced <> "") by apply append_px_nonempty.
  unfold propertyWrites in Hlast. rewrite Hadj in Hlast.
  split.
  - intros p Hp Hstore. rewrite (written_stored host _ Hne Hp Hstore) in Hlast.
    unfold getPropertyValue, getPropertyPriority.
    rewrite assoc_writes, Hlast. split; reflexivity.
  - intros Hrefused. rewrite (written_refused host _ _ Hne Hrefused) in Hlast.
    unfold getPropertyValue, getPropertyPriority.
    rewrite assoc_writes, Hlast. split; reflexivity.
Qed.

(** C5, a witness: a computed font size of 16.5px is stored as 15.9px;
    for one of 0.5px the value is -0.1px, which the parser refuses, and a
    clone with an inline font size of 12px keeps it. *)
Lemma font_size_reduced_witness :
  (exists st,
      cstyle (CloneNode.cloneCSSStyle (hostWith (steadyClock 0 1) []) (sized "16.5px")
                (CloneNode.shallowClone (sized "16.5px")) fontSizeOnly) = Some st /\
      getPropertyValue st "font-size" = "15.9px" /\
      getPropertyPriority st "font-size" = "") /\
  (CloneNode.adjustedValue (sized "0.5px") (fontSized "12px") "font-size" = "-0.1px" /\
   exists st,
     cstyle (CloneNode.cloneCSSStyle (hostWith (steadyClock 0 1) []) (sized "0.5px")
               (fontSized "12px") fontSizeOnly) = Some st /\
     getPropertyValue st "font-size" = "12px").
Proof.
  split.
  - destruct (@font_size_reduced (hostWith (steadyClock 0 1) []) fontSizeOnly
                (sized "16.5px") (CloneNode.shallowClone (sized "16.5px")) []
                "16.5px" (165 # 10)) as (_ & st & Hst & Hstored & _);
      try reflexivity.
    + simpl. left. reflexivity.
    + intros name [<- | []] Hne. contradiction.
    + exists st. split; [exact Hst|]. apply Hstored; reflexivity.
  - destruct (@font_size_reduced (hostWith (steadyClock 0 1) []) fontSizeOnly
                (sized "0.5px") (fontSized "12px") [("font-size", ("12px", ""))]
                "0.5px" (5 # 10)) as (Hvalue & st & Hst & _ & Hrefused);
      try reflexivity.
    + simpl. left. reflexivity.
    + intros name [<- | []] Hne. contradiction.
    + split; [exact Hvalue|]. exists st. split; [exact Hst|].
      apply Hrefused. reflexivity.
Defined.

(** C5 as stated fails: a computed font size of 16px is stored as 15.9px,
    sixteen pixels less a tenth, and not as 15.99px, sixteen pixels less a
    hundredth. *)
Lemma font_size_not_a_hundredth :
  let clone := CloneNode.cloneCSSStyle (hostWith (steadyClock 0 1) []) (sized "16px")
                 (CloneNode.shallowClone (sized "16px")) fontSizeOnly in
  option_map (fun st => getPropertyValue st "font-size") (cstyle clone) = Some "15.9px" /\
  option_map (fun st => getPropertyValue st "font-size") (cstyle clone) <> Some "15.99px" /\
  (exists q, CloneNode.reducedFont "16px" = CloneNode.Finite q /\
             (q == 16 - (1 # 10))%Q /\ ~ (q == 16 - (1 # 100))%Q).
Proof.
  cbv zeta. split; [reflexivity|]. split; [discriminate|].
  eexists. split; [reflexivity|]. split; [reflexivity|].
  intros H. vm_compute in H. discriminate H.
Qed.

(* ================================================================== *)
(** * Embedding an embedded tree *)
(* ================================================================== *)

Lemma stripPrefix_spec (p s r : string) :
  EmbedImages.stripPrefix p s = Some r -> s = (p ++ r)%string.
Proof.
  revert s. induction p as [|a p IH]; intros s H; simpl in *.
  - inversion H. reflexivity.
  - destruct s as [|b s]; [discriminate|].
    destruct (Ascii.eqb_spec a b); [|discriminate].
    subst b. rewrite (IH s H). reflexivity.
Qed.

Lemma splitAtClose_spec (s raw rest : string) :
  EmbedImages.splitAtClose s = Some (raw, rest) ->
  s = (raw ++ ")" ++ rest)%string /\ (String.length rest < String.length s)%nat.
Proof.
  revert raw rest. induction s as [|c s IH]; intros raw rest H; simpl in *.
  - discriminate.
  - destruct (Ascii.eqb_spec c ")").
    + inversion H; subst. simpl. split; [reflexivity | lia].
    + destruct (EmbedImages.splitAtClose s) as [[raw' rest']|]; [|discriminate].
      inversion H; subst. destruct (IH raw' rest eq_refl) as [-> Hlen].
      simpl. split; [reflexivity | lia].
Qed.

Lemma length_append (a b : string) :
  String.length (a ++ b)%string = (String.length a + String.length b)%nat.
Proof. induction a; simpl; [reflexivity | rewrite IHa; reflexivity]. Qed.

(** Rendering the segments of a text gives the text back. *)
Lemma render_segments (fuel : nat) (s : string) :
  (String.length s <= fuel)%nat ->
  EmbedImages.render (EmbedImages.segments fuel s) = s.
Proof.
  revert s. induction fuel as [|fuel IH]; intros s Hlen.
  - destruct s; [reflexivity | simpl in Hlen; lia].
  - destruct s as [|c r]; [reflexivity|].
    assert (Hlit : EmbedImages.render
                     (EmbedImages.Literal c :: EmbedImages.segments fuel r) = String c r).
    { simpl. rewrite IH; [reflexivity | simpl in Hlen; lia]. }
    cbn [EmbedImages.segments].
    destruct (EmbedImages.stripPrefix "url(" (String c r)) as [inner|] eqn:Hpre;
      [|exact Hlit].
    destruct (EmbedImages.splitAtClose inner) as [[raw rest]|] eqn:Hsplit;
      [|exact Hlit].
    apply stripPrefix_spec in Hpre.
    apply splitAtClose_spec in Hsplit. destruct Hsplit as [Hinner Hshort].
    rewrite Hpre, Hinner.
    cbn [EmbedImages.render]. rewrite IH; [reflexivity|].
    rewrite Hpre in Hlen. rewrite length_append in Hlen. simpl in Hlen. lia.
Qed.

Section EmbedEmbedded.

Variable host : Host.
Variable options : Options.

Lemma embedSegments_inline (segs : list EmbedImages.Segment) (w : World) :
  forallb inlineSegment segs = true ->
  EmbedImages.embedSegments host segs w = (Ok segs, w).
Proof.
  induction segs as [|[c | raw] segs IH]; simpl; intros H.
  - reflexivity.
  - unfold bind. rewrite IH by exact H. reflexivity.
  - apply andb_prop in H. destruct H as [Hraw Hrest].
    destruct (EmbedImages.unquote raw) as [quote url]. simpl in Hraw.
    rewrite Hraw. unfold bind. simpl. rewrite IH by exact Hrest. reflexivity.
Qed.

Lemma embedResources_inline (value : string) (w : World) :
  inlineValue value = true ->
  EmbedImages.embedResources host value options w = (Ok value, w).
Proof.
  intros H. unfold EmbedImages.embedResources, bind.
  rewrite embedSegments_inline by exact H.
  unfold ret. rewrite render_segments by lia. reflexivity.
Qed.

Lemma setProperty_same (st : Style) (name : string) :
  nonEmpty (getPropertyValue st name) = true ->
  setProperty st name (getPropertyValue st name) (getPropertyPriority st name) = st.
Proof.
  unfold nonEmpty, setProperty, getPropertyValue, getPropertyPriority.
  destruct (assoc name st) as [[v pr]|] eqn:E.
  - intros H. apply negb_true_iff in H. rewrite H. apply upsert_same. exact E.
  - simpl. discriminate.
Qed.

Lemma setStyle_same (c : CNode) (st : Style) :
  cstyle c = Some st -> setStyle c (Some st) = c.
Proof. destruct c. simpl. intros ->. reflexivity. Qed.

Lemma embedProp_inline (name : string) (c : CNode) (w : World) :
  In name embeddableProperties ->
  inlineStyle (cstyle c) = true ->
  exists done, EmbedImages.embedProp host name c options w = (Ok (done, c), w).
Proof.
  intros Hin Hst. unfold EmbedImages.embedProp.
  destruct (cstyle c) as [st|] eqn:E; [|eexists; reflexivity].
  destruct (nonEmpty (getPropertyValue st name)) eqn:Hne; [|eexists; reflexivity].
  unfold inlineStyle in Hst. rewrite forallb_forall in Hst.
  unfold bind. rewrite embedResources_inline by (apply Hst; exact Hin).
  rewrite setProperty_same by exact Hne.
  rewrite setStyle_same by exact E. eexists. reflexivity.
Qed.

Lemma embedBackground_inline (c : CNode) (w : World) :
  inlineStyle (cstyle c) = true ->
  EmbedImages.embedBackground host c options w = (Ok c, w).
Proof.
  intros Hst. unfold EmbedImages.embedBackground, EmbedImages.orElse, bind.
  repeat match goal with
         | |- context [ EmbedImages.embedProp host ?name c options w ] =>
             let done := fresh "done" in
             let E := fresh "E" in
             destruct (@embedProp_inline name c w) as [done E];
             [ simpl; tauto | exact Hst | rewrite E; simpl; destruct done; simpl ]
         end; reflexivity.
Qed.

Lemma embedImageNode_inline (c : CNode) (w : World) :
  inlineSource (ciface c) (cattributes c) = true ->
  EmbedImages.embedImageNode host c options w = (Ok c, w).
Proof.
  intros H. unfold EmbedImages.embedImageNode.
  unfold inlineSource in H.
  destruct (ciface c); try reflexivity.
  - unfold EmbedImages.src, getAttribute.
    destruct (assoc "src" (cattributes c)) as [url|]; [|discriminate H].
    rewrite H, H. reflexivity.
  - unfold EmbedImages.href_baseVal, EmbedImages.hrefAttribute,
      EmbedImages.attributeOr, getAttribute.
    destruct (assoc "href" (cattributes c)) as [url|] eqn:E; [|discriminate H].
    rewrite E, H. reflexivity.
Qed.

Lemma fetchEvents_app (a b : list Event) :
  fetchEvents (a ++ b) = (fetchEvents a ++ fetchEvents b)%list.
Proof. apply filter_app. Qed.

Lemma embedTick_no_fetch (w : World) :
  exists w',
    EmbedImages.maybeYieldToMain host options w = (Ok tt, w') /\
    fetchEvents (trace w') = fetchEvents (trace w).
Proof.
  destruct (nonBlocking options) eqn:Hnb.
  - destruct (_context w) as [c|] eqn:Hctx.
    + rewrite (embedTick_run host options w Hnb Hctx), progressAndYield_run.
      eexists. split; [reflexivity|]. cbv zeta.
      assert (Hp : fetchEvents (progressEvents options c) = []).
      { unfold progressEvents. destruct (totalNodes c); [|reflexivity].
        destruct (_ && _); reflexivity. }
      destruct (suspendsb host options c (reads (counted w c))); simpl;
        rewrite !fetchEvents_app, Hp; simpl; rewrite ?app_nil_r; reflexivity.
    + destruct (tick_disabled host options w (or_intror Hctx)) as [_ H].
      exists w. split; [exact H | reflexivity].
  - destruct (tick_disabled host options w (or_introl Hnb)) as [_ H].
    exists w. split; [exact H | reflexivity].
Qed.

Lemma embedChildren_embedded (children : list CNode) :
  Forall (fun c => fullyEmbedded c = true ->
                   forall w, exists w',
                     EmbedImages.embedImages host c options w = (Ok c, w') /\
                     fetchEvents (trace w') = fetchEvents (trace w)) children ->
  forallb fullyEmbedded children = true ->
  forall w, exists w',
    EmbedImages.embedChildren host
      (fun c => EmbedImages.embedImages host c options) options children w =
    (Ok children, w') /\
    fetchEvents (trace w') = fetchEvents (trace w).
Proof.
  induction 1 as [|child rest Hchild _ IH]; intros Hall w; simpl.
  - exists w. split; reflexivity.
  - simpl in Hall. apply andb_prop in Hall. destruct Hall as [Hc Hrest].
    destruct (embedTick_no_fetch w) as (w1 & Htick & Hf1).
    destruct (Hchild Hc w1) as (w2 & Hrun & Hf2).
    destruct (IH Hrest w2) as (w3 & Hloop & Hf3).
    unfold bind. rewrite Htick, Hrun, Hloop.
    exists w3. split; [reflexivity | congruence].
Qed.

End EmbedEmbedded.

(** C9. Embedding is idempotent on embedded trees: for every clone tree
    that is already fully embedded, the resource embedder returns the tree
    as it is and calls the resource resolver for nothing. *)
Theorem embedding_idempotent (host : Host) (options : Options) (c : CNode) :
  fullyEmbedded c = true ->
  forall w, exists w',
    EmbedImages.embedImages host c options w = (Ok c, w') /\
    fetchEvents (trace w') = fetchEvents (trace w).
Proof.
  induction c as [o i tag attrs st children IH] using CNode_tree_ind.
  intros Hfull w.
  cbn [EmbedImages.embedImages].
  destruct (isElement (mkCNode o i tag attrs st children)) eqn:Hel.
  - assert (Hparts : inlineSource i attrs = true /\ inlineStyle st = true /\
                     forallb fullyEmbedded children = true).
    { simpl in Hfull. destruct i; try discriminate Hel;
        apply andb_prop in Hfull; destruct Hfull as [Hfull Hkids];
        apply andb_prop in Hfull; destruct Hfull as [Hsrc Hst]; auto. }
    destruct Hparts as (Hsrc & Hst & Hkids).
    unfold bind.
    rewrite embedBackground_inline by exact Hst.
    rewrite embedImageNode_inline by exact Hsrc.
    destruct (embedChildren_embedded host options IH Hkids w) as (w' & Hloop & Hf).
    rewrite Hloop. exists w'. split; [reflexivity | exact Hf].
  - exists w. split; reflexivity.
Qed.

(** C9, a witness: an embedded [div] with an inline background and an
    inline image, embedded again in cooperative mode. *)
Lemma embedding_idempotent_witness :
  exists w',
    EmbedImages.embedImages (hostWith (steadyClock 0 1) []) embeddedClone
      (cooperativeOptions true None None (Some 1))
      (mkWorld (Some (mkContext 0 (Some 0) (Some 5))) 2 []) = (Ok embeddedClone, w') /\
    fetchEvents (trace w') = [].
Proof.
  apply (@embedding_idempotent (hostWith (steadyClock 0 1) [])
           (cooperativeOptions true None None (Some 1)) embeddedClone).
  reflexivity.
Defined.

(* ================================================================== *)
(** * Abort signals that do not fail the capture *)
(* ================================================================== *)

(** C1, the failing input.  Capturing [<div><iframe/></div>] with
    [nonBlocking] and [maxNodes = 2], where the body of the nested document
    hosts a shadow tree: the tick before the shadow child raises
    [max_nodes] inside the clone of the body; [cloneIFrameElement] catches
    it and returns a shallow copy of the frame; the frame contributes no
    children (the body has none of its own), no further tick of the cloning
    phase follows, and the clone of the root, and with it the capture,
    resolves with a tree from which the content of the nested document is
    missing. *)
Lemma abort_swallowed_in_nested_document :
  let host := hostWith (steadyClock 1000 1) [framed] in
  let options := cooperativeOptions false (Some 2) None None in
  let opts := Index.withStartTime options 1001 in
  (* the state in which the body is cloned: one node counted *)
  let entering := mkWorld (Some (mkContext 1 (Some 1000) (Some 5))) 2 [] in
  fst (CloneNode.cloneNode host 9 shadowBody opts true entering) = Aborted max_nodes /\
  fst (CloneNode.cloneIFrameElement (CloneNode.cloneNode host 9) (iframe 2 (Some shadowBody))
         (Some shadowBody) opts entering)
    = Ok (Some (CloneNode.shallowClone (iframe 2 (Some shadowBody)))) /\
  fst (CloneNode.cloneNode host 10 framed opts true
         (mkWorld (Some (mkContext 0 (Some 1000) (Some 5))) 2 []))
    = Ok (Some (mkCNode (Some 1%nat) COtherElement (Some "DIV") [] (Some [])
                  [mkCNode (Some 2%nat) COtherElement (Some "IFRAME") [] (Some []) []])) /\
  fst (Index.toSvg host 10 framed options Index.initialWorld)
    = Ok (mkCNode (Some 1%nat) COtherElement (Some "DIV") [] (Some [])
            [mkCNode (Some 2%nat) COtherElement (Some "IFRAME") [] (Some []) []]) /\
  option_map nodeCount
    (_context (snd (Index.toSvg host 10 framed options Index.initialWorld))) = Some 3.
Proof.
  cbv zeta. repeat split; vm_compute; reflexivity.
Qed.

(** C2, the failing inputs.  [types.ts] documents [timeout] as the
    maximum time to spend on a capture: if exceeded, the capture is aborted
    and the promise rejects.  With [{ timeout: 100 }] alone the capture of
    [<p>Hello <b>big</b> world</p>] resolves whatever the clock says, as it
    does without a timeout: the limits are only checked by the tick of the
    cloning phase, which returns at once when [nonBlocking] is off.  With
    [nonBlocking] as well, the tick of the embedding phase does not check
    the limits: on a clock that jumps a minute ahead after the cloning
    phase the capture resolves, having read the clock 60 s after its
    start. *)
Lemma timeout_not_enforced :
  (forall clock,
      fst (Index.toSvg (hostWith clock [paragraph]) 10 paragraph timeoutOnly
             Index.initialWorld)
      = fst (Index.toSvg (hostWith clock [paragraph]) 10 paragraph defaultOptions
               Index.initialWorld) /\
      exists clone,
        fst (Index.toSvg (hostWith clock [paragraph]) 10 paragraph timeoutOnly
               Index.initialWorld) = Ok clone) /\
  (let final :=
     Index.toSvg (hostWith jumpClock [paragraph]) 10 paragraph
                 (cooperativeOptions false None (Some 100) (Some 1))
                 Index.initialWorld in
   (exists clone, fst final = Ok clone) /\
   option_map lastYieldTime (_context (snd final)) = Some (Some 61000) /\
   100 <= 61000 - jumpClock 1).
Proof.
  split.
  - intros clock. split; [vm_compute; reflexivity|].
    eexists. vm_compute. reflexivity.
  - cbv zeta. split; [eexists; vm_compute; reflexivity|].
    split; [vm_compute; reflexivity|]. vm_compute. discriminate.
Qed.

(* ================================================================== *)
(** * The filter *)
(* ================================================================== *)

(** ** What a computation returns *)

Lemma Yields_ret {A} (a : A) (Q : A -> Prop) : Q a -> Yields (ret a) Q.
Proof. intros H w a' w' E. inversion E; subst. exact H. Qed.

Lemma Yields_throwError {A} (Q : A -> Prop) : Yields throwError Q.
Proof. intros w a w' E. discriminate E. Qed.

Lemma Yields_diverge {A} (Q : A -> Prop) : Yields diverge Q.
Proof. intros w a w' E. discriminate E. Qed.

Lemma Yields_bind {A B} (m : M A) (k : A -> M B) (P : A -> Prop) (Q : B -> Prop) :
  Yields m P -> (forall a, P a -> Yields (k a) Q) -> Yields (bind m k) Q.
Proof.
  intros Hm Hk w b w' E. unfold bind in E.
  destruct (m w) as [[a | r | | ] w1] eqn:Em; try discriminate E.
  exact (Hk a (Hm w a w1 Em) w1 b w' E).
Qed.

Lemma Yields_tryCatch {A} (m handler : M A) (Q : A -> Prop) :
  Yields m Q -> Yields handler Q -> Yields (tryCatch m handler) Q.
Proof.
  intros Hm Hh w a w' E. unfold tryCatch in E.
  destruct (m w) as [[a0 | r | | ] w1] eqn:Em; try discriminate E.
  - inversion E; subst. exact (Hm w a w' Em).
  - exact (Hh w1 a w' E).
  - exact (Hh w1 a w' E).
Qed.

Lemma Yields_any {A} (m : M A) : Yields m (fun _ => True).
Proof. intros w a w' _. exact I. Qed.

(** ** Origins of copies *)

Lemma origins_shallowClone (n : Node) : origins (CloneNode.shallowClone n) = [nid n].
Proof. reflexivity. Qed.

Lemma flat_map_map {A B C} (f : A -> B) (g : B -> list C) (l : list A) :
  flat_map g (map f l) = flat_map (fun x => g (f x)) l.
Proof. induction l; simpl; [reflexivity | rewrite IHl; reflexivity]. Qed.

Lemma map_flat_map {A B C} (f : B -> C) (g : A -> list B) (l : list A) :
  map f (flat_map g l) = flat_map (fun x => map f (g x)) l.
Proof.
  induction l; simpl; [reflexivity | rewrite map_app, IHl; reflexivity].
Qed.

Lemma flat_map_ext_Forall {A B} (f g : A -> list B) (l : list A) :
  Forall (fun x => f x = g x) l -> flat_map f l = flat_map g l.
Proof. induction 1; simpl; [reflexivity | congruence]. Qed.

Lemma origins_deepClone (n : Node) :
  origins (CloneNode.deepClone n) = map nid (n :: CloneNode.nodeDescendants n).
Proof.
  induction n as [id i tag attrs st computed shadow children IH]
    using Node_children_ind.
  cbn [CloneNode.deepClone origins CloneNode.nodeDescendants map nid app].
  f_equal. rewrite flat_map_map, map_flat_map.
  apply flat_map_ext_Forall. exact IH.
Qed.

Lemma origins_appendChild (c k : CNode) :
  origins (appendChild c k) = (origins c ++ origins k)%list.
Proof.
  destruct c as [o i tag attrs st children]. unfold appendChild, setChildNodes. simpl.
  rewrite flat_map_app. simpl. rewrite app_nil_r, app_assoc. reflexivity.
Qed.

Lemma origins_setAttribute (c : CNode) (name value : string) :
  origins (setAttribute c name value) = origins c.
Proof. destruct c. reflexivity. Qed.

Lemma origins_setStyle (c : CNode) (st : option Style) :
  origins (setStyle c st) = origins c.
Proof. destruct c. reflexivity. Qed.

Lemma origins_selectOption (value : string) (children : list CNode) :
  flat_map origins (CloneNode.selectOption value children) = flat_map origins children.
Proof.
  induction children as [|child rest IH]; [reflexivity|].
  cbn [CloneNode.selectOption].
  destruct (isElement child && _); cbn [flat_map].
  - rewrite origins_setAttribute. reflexivity.
  - rewrite IH. reflexivity.
Qed.

Lemma origins_cloneCSSStyle (host : Host) (n : Node) (c : CNode) (options : Options) :
  origins (CloneNode.cloneCSSStyle host n c options) = origins c.
Proof.
  unfold CloneNode.cloneCSSStyle.
  destruct (cstyle c); [|reflexivity].
  destruct (nonEmpty _); apply origins_setStyle.
Qed.

Lemma origins_clonePseudoElements (host : Host) (n : Node) (c : CNode) (options : Options) :
  origins (CloneNode.clonePseudoElements host n c options) = origins c.
Proof.
  unfold CloneNode.clonePseudoElements.
  destruct (hasPseudoElements host n); [|reflexivity].
  rewrite origins_appendChild. simpl. apply app_nil_r.
Qed.

Lemma origins_cloneSelectValue (n : Node) (c : CNode) :
  origins (CloneNode.cloneSelectValue n c) = origins c.
Proof.
  unfold CloneNode.cloneSelectValue.
  destruct (iface n); try reflexivity.
  destruct c as [o i tag attrs st children]. unfold setChildNodes. simpl.
  rewrite origins_selectOption. reflexivity.
Qed.

(** C3, the failing input.  [types.ts] documents [filter] as returning
    [true] for the nodes to include in the output, and excluding a node as
    excluding its children as well.  In
    [<div><svg><g><circle/></g></svg></div>] with the [g] rejected by the
    predicate, the [svg] is copied as a unit, the predicate is never
    applied below it, and the clone, like the tree the capture resolves
    with, holds the copies of the [g] and of its [circle]. *)
Lemma filter_bypassed_below_svg :
  let host := hostWith (steadyClock 0 1) [drawing] in
  let g := element 3 "g" [element 4 "circle" []] in
  passes (excluding 3) g = false /\
  In g (CloneNode.nodeDescendants drawing) /\
  (exists clone w',
      CloneNode.cloneNode host 10 drawing (excluding 3) true Index.initialWorld
      = (Ok (Some clone), w') /\
      In 3%nat (origins clone) /\ In 4%nat (origins clone)) /\
  (exists result w',
      Index.toSvg host 10 drawing (excluding 3) Index.initialWorld = (Ok result, w') /\
      origins result = [1; 2; 3; 4]%nat).
Proof.
  cbv zeta. split; [reflexivity|]. split; [simpl; auto|]. split.
  - eexists; eexists. split; [vm_compute; reflexivity|].
    split; simpl; auto.
  - eexists; eexists. split; vm_compute; reflexivity.
Qed.

(* ================================================================== *)
(** * The timeout *)
(* ================================================================== *)

Lemma checkLimits_overdue (host : Host) (options : Options) (w : World)
      (T start : Z) :
  timeout options = Some T -> T <> 0 ->
  _startTime options = Some start -> start <> 0 ->
  T <= clock host (reads w) - start ->
  exists reason w',
    CloneNode.checkLimits host options w = (Aborted reason, w') /\
    (reason = timeout_reason <-> ~ nodeLimitReached options w).
Proof.
  intros Ht HT Hs Hstart Hover.
  assert (HTz : (T =? 0) = false) by (apply Z.eqb_neq; exact HT).
  assert (Hsz : (start =? 0) = false) by (apply Z.eqb_neq; exact Hstart).
  destruct w as [ctx r tr]. simpl in Hover.
  assert (Hleb : (T <=? clock host r - start) = true)
    by (apply Z.leb_le; exact Hover).
  unfold CloneNode.checkLimits, nodeLimitReached, bind, getContext, truthy,
    throwAborted, ret, Date_now.
  rewrite Ht, Hs, HTz, Hsz. simpl.
  destruct (maxNodes options) as [cap|]; destruct ctx as [c|]; simpl;
    try (rewrite Hleb;
         eexists; eexists; (split; [reflexivity|]); (split; [|reflexivity]);
         intros _ (cap' & c' & E1 & _ & E2 & _); discriminate).
  destruct (Z.eqb_spec cap 0) as [Hz|Hz]; simpl.
  - rewrite Hleb.
    eexists; eexists. split; [reflexivity|]. split; [|reflexivity].
    intros _ (cap' & c' & E & Hnz & _). inversion E; subst. contradiction.
  - destruct (Z.leb_spec cap (nodeCount c)); simpl.
    + eexists; eexists. split; [reflexivity|]. split; [discriminate|].
      intros Hno. exfalso. apply Hno. exists cap, c. auto.
    + rewrite Hleb.
      eexists; eexists. split; [reflexivity|]. split; [|reflexivity].
      intros _ (cap' & c' & E & _ & E' & Hle). inversion E; inversion E'; subst. lia.
Qed.

Lemma timeout_tick_aborts (host : Host) (options : Options)
      (w : World) (c : CloneContext) (T start : Z) :
  nonBlocking options = true ->
  _context w = Some c ->
  timeout options = Some T -> T <> 0 ->
  _startTime options = Some start -> start <> 0 ->
  T <= clock host (reads w) - start ->
  exists reason w',
    CloneNode.maybeYieldToMain host options w = (Aborted reason, w').
Proof.
  intros Hnb Hctx Ht HT Hs Hstart Hover.
  destruct (@checkLimits_overdue host options (counted w c) T start Ht HT Hs Hstart Hover)
    as (reason & w' & Hcheck & _).
  exists reason, w'.
  rewrite (cloneTick_run host options w Hnb Hctx), Hcheck. reflexivity.
Qed.

(** X7. A capture in cooperative mode that is over time when its root is about
    to clone its first child is rejected. *)
Lemma overdue_capture_rejected (host : Host) (fuel : nat) (root : Node)
      (options : Options) (child : Node) (rest : list Node) (T : Z) :
  nonBlocking options = true ->
  timeout options = Some T -> T <> 0 ->
  ~ preflightExceeded root options ->
  iface root = OtherElement ->
  CloneNode.isSVGElement (tagName root) = false ->
  CloneNode.childrenOf root = child :: rest ->
  clock host 1 <> 0 ->
  T <= clock host 2 - clock host 1 ->
  exists reason,
    fst (Index.toSvg host (S fuel) root options Index.initialWorld) = Aborted reason.
Proof.
  intros Hnb Ht HT Hpre Hiface Hsvg Hkids Hstart Hover.
  unfold Index.toSvg, Index.initializeOptions. rewrite Hnb. simpl orb. cbv iota.
  unfold bind at 1. unfold bind at 1. unfold Date_now at 1.
  unfold bind at 1. unfold setContext at 1.
  unfold bind at 1. unfold Date_now at 1. unfold ret at 1.
  cbn [reads _context trace Index.initialWorld].
  set (opts := Index.withStartTime options (clock host 1)).
  set (w1 := mkWorld _ 2 []).
  unfold bind at 1.
  destruct (checkDOMComplexity_run root opts w1) as [[Hex _] | [_ Hrun]].
  { exfalso. apply Hpre. destruct Hex as (cap & E & Hc). exists cap. exact (conj E Hc). }
  rewrite Hrun.
  assert (Hclone : exists reason w',
             CloneNode.cloneNode host (S fuel) root opts true w1 = (Aborted reason, w')).
  { cbn [CloneNode.cloneNode negb andb].
    unfold CloneNode.cloneSingleNode. rewrite Hiface. rewrite Hsvg.
    unfold bind at 1. unfold ret at 1.
    unfold bind at 1. unfold CloneNode.cloneChildren.
    change (ctagName (CloneNode.shallowClone root)) with (tagName root).
    rewrite Hsvg, Hkids.
    assert (Hvideo : CloneNode.isVideo root = false)
      by (unfold CloneNode.isVideo; rewrite Hiface; reflexivity).
    rewrite Hvideo. cbn [List.length Nat.eqb orb CloneNode.cloneChildrenLoop].
    destruct (@timeout_tick_aborts host opts w1
                (mkContext 0 (Some (clock host 0)) (Some ((5 * Index.estimateDOMComplexity root) / 2)))
                T (clock host 1))
      as (reason & w' & Htick); try assumption; try reflexivity.
    exists reason, w'.
    unfold bind. rewrite Htick. reflexivity. }
  destruct Hclone as (reason & w' & Hclone).
  exists reason. unfold bind. rewrite Hclone. reflexivity.
Qed.

(** Sub-roots are not filtered either: in
    [<div><div><symbol id="a"/></div><use xlink:href="#a"/></div>] with the
    inner [div] rejected, the [symbol] is found in the document by the
    reference of the [use], cloned as a sub-root and appended to the clone
    in a hidden container, although its parent was excluded. *)
Lemma filter_bypassed_by_symbol_reference :
  let host := hostWith (steadyClock 0 1) [sprite] in
  passes (excluding 2) (element 2 "DIV"
       [mkNode 3 OtherElement (Some "symbol") [("id", "a")] [] noComputedStyle [] None])
  = false /\
  exists clone w',
    CloneNode.cloneNode host 10 sprite (excluding 2) true Index.initialWorld
    = (Ok (Some clone), w') /\
    origins clone = [1; 4; 3]%nat.
Proof.
  cbv zeta. split; [reflexivity|].
  eexists; eexists. split; vm_compute; reflexivity.
Qed.

(* ================================================================== *)
(** * The pre-flight check and the limits *)
(* ================================================================== *)

(** X1. A capture whose pre-flight estimate exceeds the node cap is
    rejected with [max_nodes] before anything is cloned, in blocking and in
    cooperative mode alike: the context has just been initialized (counter
    0), the clock has been read twice and no event has happened. *)
Theorem preflight_rejects_before_cloning (host : Host) (fuel : nat) (node : Node)
        (options : Options) (w : World) :
  preflightExceeded node options ->
  Index.toSvg host fuel node options w =
  (Aborted max_nodes,
   mkWorld (Some (mkContext 0 (Some (clock host (reads w))) (Some (totalEstimate node))))
           (S (S (reads w))) (trace w)).
Proof.
  intros (cap & Hcap & Hnz & Hlt).
  assert (Htruthy : truthy (maxNodes options) = true).
  { rewrite Hcap. simpl. apply negb_true_iff, Z.eqb_neq. exact Hnz. }
  unfold Index.toSvg, Index.initializeOptions.
  rewrite Htruthy, orb_true_r. cbn [orb].
  unfold Index.checkDOMComplexity, bind, Date_now, setContext, ret, throwAborted.
  cbn [maxNodes Index.withStartTime reads _context trace].
  rewrite Hcap. rewrite Hcap in Htruthy. rewrite Htruthy.
  apply Z.ltb_lt in Hlt. rewrite Hlt. reflexivity.
Qed.

Lemma preflight_rejects_before_cloning_witness :
  Index.toSvg (hostWith (steadyClock 1000 1) [article]) 0 article
              (cooperativeOptions false (Some 3) None None) Index.initialWorld =
  (Aborted max_nodes,
   mkWorld (Some (mkContext 0 (Some 1000) (Some 10))) 2 []).
Proof.
  apply (@preflight_rejects_before_cloning (hostWith (steadyClock 1000 1) [article]) 0
           article (cooperativeOptions false (Some 3) None None) Index.initialWorld).
  exists 3. split; [reflexivity|]. split; [discriminate | reflexivity].
Defined.

Lemma checkLimits_disabled (host : Host) (options : Options) (w : World) :
  truthy (maxNodes options) = false -> truthy (timeout options) = false ->
  CloneNode.checkLimits host options w = (Ok tt, w).
Proof.
  intros Hm Ht. unfold CloneNode.checkLimits, bind, getContext.
  destruct (maxNodes options) as [cap|]; destruct (_context w) as [c|];
    destruct (timeout options) as [tcap|]; destruct (_startTime options) as [start|];
    try rewrite Hm; try rewrite Ht; reflexivity.
Qed.

Lemma progressAndYield_resolves (host : Host) (options : Options) (c : CloneContext)
      (w : World) :
  exists w', progressAndYield host options (incremented c) w = (Ok tt, w').
Proof. rewrite progressAndYield_run. eexists. reflexivity. Qed.

Lemma embedTick_resolves (host : Host) (options : Options) (w : World) :
  exists w', EmbedImages.maybeYieldToMain host options w = (Ok tt, w').
Proof.
  destruct (nonBlocking options) eqn:Hnb.
  - destruct (_context w) as [c|] eqn:Hctx.
    + rewrite (embedTick_run host options w Hnb Hctx). apply progressAndYield_resolves.
    + exists w. apply (tick_disabled host options w (or_intror Hctx)).
  - exists w. apply (tick_disabled host options w (or_introl Hnb)).
Qed.

Section NoLimits.

Variable host : Host.
Variable options : Options.
Hypothesis no_cap : truthy (maxNodes options) = false.
Hypothesis no_timeout : truthy (timeout options) = false.

Let anything (_ _ : World) : Prop := True.

Lemma anything_emit (e : Event) :
  match e with Fetch _ | Warn => True | _ => False end ->
  Keeps anything true (emit e).
Proof. intros _ w. split; [exact I | intros _ r; discriminate]. Qed.

Lemma anything_stripYield (b : bool) :
  Keeps anything true (if nonBlocking options && b then yieldToMain else ret tt).
Proof.
  intros w. split; [exact I|]. intros _ r.
  destruct (nonBlocking options && b); discriminate.
Qed.

Lemma anything_embedTick :
  Keeps anything true (EmbedImages.maybeYieldToMain host options).
Proof.
  intros w. split; [exact I|]. intros _ r.
  destruct (embedTick_resolves host options w) as [w' ->]. discriminate.
Qed.

Lemma anything_cloneTick :
  Keeps anything true (CloneNode.maybeYieldToMain host options).
Proof.
  intros w. split; [exact I|]. intros _ r.
  destruct (nonBlocking options) eqn:Hnb.
  - destruct (_context w) as [c|] eqn:Hctx.
    + rewrite (cloneTick_run host options w Hnb Hctx).
      rewrite (checkLimits_disabled host options (counted w c) no_cap no_timeout).
      destruct (progressAndYield_resolves host options c (counted w c)) as [w' ->].
      discriminate.
    + destruct (tick_disabled host options w (or_intror Hctx)) as [-> _]. discriminate.
  - destruct (tick_disabled host options w (or_introl Hnb)) as [-> _]. discriminate.
Qed.

Lemma cloneNode_never_aborts (fuel : nat) (node : Node) (isRoot : bool) (w : World)
      (reason : AbortReason) :
  fst (CloneNode.cloneNode host fuel node options isRoot w) <> Aborted reason.
Proof.
  refine (proj2 (@Keeps_cloneNode host options anything true _ _ anything_emit
                   anything_stripYield anything_cloneTick fuel node isRoot w)
                eq_refl reason); unfold anything; auto.
Qed.

Lemma embedImages_never_aborts (clonedNode : CNode) (w : World) (reason : AbortReason) :
  fst (EmbedImages.embedImages host clonedNode options w) <> Aborted reason.
Proof.
  refine (proj2 (@Keeps_embedImages host options anything true _ _ anything_emit
                   anything_embedTick clonedNode w)
                eq_refl reason); unfold anything; auto.
Qed.

End NoLimits.

Lemma initializeOptions_limits (host : Host) (node : Node) (options : Options) (w : World) :
  exists opts w1,
    Index.initializeOptions host node options w = (Ok opts, w1) /\
    maxNodes opts = maxNodes options /\ timeout opts = timeout options.
Proof.
  unfold Index.initializeOptions.
  destruct (_ || _).
  - eexists; eexists. split; [reflexivity|]. split; reflexivity.
  - exists options, w. split; [reflexivity|]. split; reflexivity.
Qed.

(** X2. Limits that are [undefined] or [0] are disabled: a capture with no
    node cap and no timeout (or with either set to 0) is never rejected
    with a [CaptureAbortedError], in blocking and in cooperative mode. *)
Theorem disabled_limits_never_abort (host : Host) (options : Options) (fuel : nat)
        (node : Node) (w : World) :
  truthy (maxNodes options) = false ->
  truthy (timeout options) = false ->
  forall reason, fst (Index.toSvg host fuel node options w) <> Aborted reason.
Proof.
  intros Hm Ht reason. unfold Index.toSvg.
  destruct (initializeOptions_limits host node options w)
    as (opts & w1 & Hinit & Hm' & Ht').
  rewrite <- Hm' in Hm. rewrite <- Ht' in Ht.
  unfold bind. rewrite Hinit. cbv iota beta.
  assert (Hpre : Index.checkDOMComplexity node opts w1 = (Ok tt, w1)).
  { unfold Index.checkDOMComplexity. destruct (maxNodes opts); [|reflexivity].
    rewrite Hm. reflexivity. }
  rewrite Hpre. cbv iota beta.
  pose proof (fun r => @cloneNode_never_aborts host opts Hm Ht fuel node true w1 r)
    as Hclone.
  destruct (CloneNode.cloneNode host fuel node opts true w1)
    as [[[clonedNode|] | r | | ] w2]; simpl in *; try discriminate.
  - apply embedImages_never_aborts.
  - intros E. apply (Hclone r). reflexivity.
Qed.

Lemma disabled_limits_never_abort_witness :
  fst (Index.toSvg (hostWith (steadyClock 1000 1000) [paragraph]) 10 paragraph
         (cooperativeOptions true (Some 0) (Some 0) (Some 1)) Index.initialWorld)
    <> Aborted max_nodes /\
  fst (Index.toSvg (hostWith (steadyClock 1000 1000) [paragraph]) 10 paragraph
         (cooperativeOptions true (Some 0) (Some 0) (Some 1)) Index.initialWorld)
    <> Aborted timeout_reason.
Proof.
  split;
    apply (@disabled_limits_never_abort (hostWith (steadyClock 1000 1000) [paragraph])
             (cooperativeOptions true (Some 0) (Some 0) (Some 1)) 10 paragraph
             Index.initialWorld); reflexivity.
Defined.

(** X3. The embedding phase enforces no limit: whatever the node cap, the
    timeout, the counter and the clock are, [embedImages] is never rejected
    with a [CaptureAbortedError]. *)
Theorem embedding_never_aborts (host : Host) (options : Options) (clonedNode : CNode)
        (w : World) :
  forall reason,
    fst (EmbedImages.embedImages host clonedNode options w) <> Aborted reason.
Proof. intros reason. apply embedImages_never_aborts. Qed.

(* ================================================================== *)
(** * Aborts persist *)
(* ================================================================== *)

Lemma cloneTick_aborted (host : Host) (options : Options) (w : World) (c : CloneContext)
      (reason : AbortReason) :
  nonBlocking options = true ->
  _context w = Some c ->
  fst (CloneNode.maybeYieldToMain host options w) = Aborted reason <->
  fst (CloneNode.checkLimits host options (counted w c)) = Aborted reason.
Proof.
  intros Hnb Hctx. rewrite (cloneTick_run host options w Hnb Hctx).
  destruct (CloneNode.checkLimits host options (counted w c)) as [[[] | r | | ] checked];
    simpl; try tauto.
  destruct (progressAndYield_resolves host options c checked) as [w' ->].
  simpl. split; discriminate.
Qed.

(** X4. Aborts persist.  On a clock that never runs backwards, once a tick
    of the cloning phase has been aborted, every later tick of the cloning
    phase (the counter is not smaller, the clock has not been read less) is
    aborted as well, and with [max_nodes] if the first one was. *)
Theorem abort_persists (host : Host) (options : Options) (w1 w2 : World)
        (c1 c2 : CloneContext) (reason : AbortReason) :
  (forall a b : nat, (a <= b)%nat -> clock host a <= clock host b) ->
  nonBlocking options = true ->
  _context w1 = Some c1 -> _context w2 = Some c2 ->
  nodeCount c1 <= nodeCount c2 -> (reads w1 <= reads w2)%nat ->
  fst (CloneNode.maybeYieldToMain host options w1) = Aborted reason ->
  exists reason',
    fst (CloneNode.maybeYieldToMain host options w2) = Aborted reason' /\
    (reason = max_nodes -> reason' = max_nodes).
Proof.
  intros Hmono Hnb H1 H2 Hcount Hreads Habort.
  apply (cloneTick_aborted host options w1 reason Hnb H1) in Habort.
  assert (Hgoal : exists reason',
             fst (CloneNode.checkLimits host options (counted w2 c2)) = Aborted reason' /\
             (reason = max_nodes -> reason' = max_nodes)).
  { pose proof (Hmono _ _ Hreads) as Hclock.
    revert Habort.
    unfold CloneNode.checkLimits, bind, getContext, throwAborted, ret, Date_now, truthy,
      counted, incremented.
    cbn [_context reads trace nodeCount].
    destruct (maxNodes options) as [cap|];
      destruct (timeout options) as [tcap|];
      destruct (_startTime options) as [start|];
      simpl;
      repeat match goal with
             | |- context [ Z.eqb ?a ?b ] => destruct (Z.eqb_spec a b); simpl
             | |- context [ Z.leb ?a ?b ] => destruct (Z.leb_spec a b); simpl
             end;
      intros Habort;
      try discriminate Habort; try lia;
      try (exists max_nodes; split; [reflexivity | auto; fail]);
      try (exists timeout_reason; split; [reflexivity|];
           intros ->; discriminate Habort). }
  destruct Hgoal as (reason' & Hcheck & Hkind).
  exists reason'. split; [|exact Hkind].
  apply (cloneTick_aborted host options w2 reason' Hnb H2). exact Hcheck.
Qed.

Lemma abort_persists_witness :
  exists reason',
    fst (CloneNode.maybeYieldToMain (hostWith (steadyClock 1000 1) [])
           (cooperativeOptions false (Some 2) None None)
           (mkWorld (Some (mkContext 5 (Some 1000) (Some 5))) 7 [])) = Aborted reason' /\
    (max_nodes = max_nodes -> reason' = max_nodes).
Proof.
  apply (@abort_persists (hostWith (steadyClock 1000 1) [])
           (cooperativeOptions false (Some 2) None None)
           (mkWorld (Some (mkContext 1 (Some 1000) (Some 5))) 2 [])
           (mkWorld (Some (mkContext 5 (Some 1000) (Some 5))) 7 [])
           (mkContext 1 (Some 1000) (Some 5)) (mkContext 5 (Some 1000) (Some 5))
           max_nodes).
  - intros a b Hab. cbn [clock hostWith]. unfold steadyClock. lia.
  - reflexivity.
  - reflexivity.
  - reflexivity.
  - simpl. lia.
  - simpl. lia.
  - reflexivity.
Defined.

(* ================================================================== *)
(** * The world only moves forward *)
(* ================================================================== *)

Lemma Advances_refl (w : World) : Advances w w.
Proof.
  split; [lia|]. split; [exists []; symmetry; apply app_nil_r|].
  destruct (_context w) as [c|]; [|reflexivity].
  exists c. split; [reflexivity|]. split; [lia | reflexivity].
Qed.

Lemma Advances_trans (a b c : World) : Advances a b -> Advances b c -> Advances a c.
Proof.
  intros (Hr1 & [m1 Ht1] & Hc1) (Hr2 & [m2 Ht2] & Hc2).
  split; [lia|]. split.
  - exists (m1 ++ m2)%list. rewrite Ht2, Ht1, app_assoc. reflexivity.
  - destruct (_context a) as [ca|].
    + destruct Hc1 as (cb & Hb & Hn1 & Htot1). rewrite Hb in Hc2.
      destruct Hc2 as (cc & Hc & Hn2 & Htot2).
      exists cc. split; [exact Hc|]. split; [lia | congruence].
    + rewrite Hc1 in Hc2. exact Hc2.
Qed.

(** A step that reads the clock, appends events and replaces the context
    by one with a counter that is not smaller. *)
Lemma Advances_step (w : World) (ctx : option CloneContext) (k : nat) (more : list Event) :
  match _context w with
  | Some c => exists c', ctx = Some c' /\ nodeCount c <= nodeCount c' /\
                         totalNodes c' = totalNodes c
  | None => ctx = None
  end ->
  Advances w (mkWorld ctx (k + reads w) (trace w ++ more)).
Proof.
  intros H. split; [simpl; lia|]. split; [exists more; reflexivity | exact H].
Qed.

Lemma Advances_same_context (w : World) (k : nat) (more : list Event) :
  Advances w (mkWorld (_context w) (k + reads w) (trace w ++ more)).
Proof.
  apply Advances_step. destruct (_context w) as [c|]; [|reflexivity].
  exists c. split; [reflexivity|]. split; [lia | reflexivity].
Qed.

Lemma checkLimits_world (host : Host) (options : Options) (w : World) :
  exists k, snd (CloneNode.checkLimits host options w) =
            mkWorld (_context w) (k + reads w) (trace w).
Proof.
  unfold CloneNode.checkLimits, bind, getContext, throwAborted, ret, Date_now.
  destruct w as [ctx r tr]. cbn [_context reads trace].
  destruct (maxNodes options); destruct ctx;
    destruct (timeout options); destruct (_startTime options); cbn [fst snd];
    repeat match goal with
           | |- context [ if ?b then _ else _ ] => destruct b; cbn [fst snd]
           end;
    first [ exists 0%nat; reflexivity | exists 1%nat; reflexivity ].
Qed.

Section WorldAdvances.

Variable host : Host.
Variable options : Options.

Lemma Advances_emit (e : Event) :
  match e with Fetch _ | Warn => True | _ => False end ->
  Keeps Advances false (emit e).
Proof.
  intros _ w. split; [|discriminate].
  apply (Advances_same_context w 0 [e]).
Qed.

Lemma Advances_stripYield (b : bool) :
  Keeps Advances false (if nonBlocking options && b then yieldToMain else ret tt).
Proof.
  intros w. split; [|discriminate].
  destruct (nonBlocking options && b).
  - apply (Advances_same_context w 0 [Yield (_context w)]).
  - apply Advances_refl.
Qed.

Lemma progressAndYield_advances (c : CloneContext) (w : World) :
  _context w = Some (incremented c) ->
  Advances w (snd (progressAndYield host options (incremented c) w)).
Proof.
  intros Hctx. rewrite progressAndYield_run. cbv zeta. cbn [snd].
  destruct (suspendsb host options c (reads w)).
  - rewrite app_assoc.
    replace (S (decisionReads options c + reads w))
      with (S (decisionReads options c) + reads w)%nat by reflexivity.
    rewrite <- app_assoc. apply Advances_step. rewrite Hctx.
    eexists. split; [reflexivity|]. simpl. split; [lia | reflexivity].
  - apply Advances_same_context.
Qed.

Lemma counted_advances (w : World) (c : CloneContext) :
  _context w = Some c -> Advances w (counted w c).
Proof.
  intros Hctx. split; [simpl; lia|].
  split; [exists []; simpl; symmetry; apply app_nil_r|].
  rewrite Hctx. exists (incremented c). simpl.
  split; [reflexivity|]. split; [lia | reflexivity].
Qed.

Lemma Advances_embedTick :
  Keeps Advances false (EmbedImages.maybeYieldToMain host options).
Proof.
  intros w. split; [|discriminate].
  destruct (nonBlocking options) eqn:Hnb.
  - destruct (_context w) as [c|] eqn:Hctx.
    + rewrite (embedTick_run host options w Hnb Hctx).
      eapply Advances_trans; [apply counted_advances; exact Hctx|].
      apply progressAndYield_advances. reflexivity.
    + destruct (tick_disabled host options w (or_intror Hctx)) as [_ ->].
      apply Advances_refl.
  - destruct (tick_disabled host options w (or_introl Hnb)) as [_ ->].
    apply Advances_refl.
Qed.

Lemma Advances_cloneTick :
  Keeps Advances false (CloneNode.maybeYieldToMain host options).
Proof.
  intros w. split; [|discriminate].
  destruct (nonBlocking options) eqn:Hnb.
  - destruct (_context w) as [c|] eqn:Hctx.
    + rewrite (cloneTick_run host options w Hnb Hctx).
      eapply Advances_trans; [apply counted_advances; exact Hctx|].
      destruct (checkLimits_world host options (counted w c)) as [k Hk].
      assert (Hchecked : Advances (counted w c)
                           (snd (CloneNode.checkLimits host options (counted w c)))).
      { rewrite Hk.
        rewrite <- (app_nil_r (trace (counted w c))).
        apply Advances_same_context. }
      destruct (CloneNode.checkLimits host options (counted w c))
        as [[[] | r | | ] checked]; cbn [snd] in *; try exact Hchecked.
      eapply Advances_trans; [exact Hchecked|].
      apply progressAndYield_advances. rewrite Hk. reflexivity.
    + destruct (tick_disabled host options w (or_intror Hctx)) as [-> _].
      apply Advances_refl.
  - destruct (tick_disabled host options w (or_introl Hnb)) as [-> _].
    apply Advances_refl.
Qed.

End WorldAdvances.

(** X5. The traversal only moves the world forward.  Whatever the options
    and however a run ends (resolved, aborted, failed), cloning a tree or
    embedding a clone never removes the traversal context, never lowers the
    processed-node counter, never changes the total, and only appends to
    the events recorded so far. *)
Theorem traversal_only_advances (host : Host) (options : Options) :
  (forall fuel node isRoot w,
      Advances w (snd (CloneNode.cloneNode host fuel node options isRoot w))) /\
  (forall clonedNode w,
      Advances w (snd (EmbedImages.embedImages host clonedNode options w))).
Proof.
  split.
  - intros fuel node isRoot w.
    apply (Keeps_cloneNode Advances_refl Advances_trans Advances_emit
             (Advances_stripYield options) (Advances_cloneTick host options)).
  - intros clonedNode w.
    apply (Keeps_embedImages Advances_refl Advances_trans Advances_emit
             (Advances_embedTick host options)).
Qed.

(* ================================================================== *)
(** * Yields of the chunked conversion *)
(* ================================================================== *)

Lemma quarter_step (i : nat) :
  (S i / 4 = i / 4 + (if (i mod 4 =? 3) then 1 else 0))%nat.
Proof.
  pose proof (Nat.div_mod_eq i 4) as Hi.
  pose proof (Nat.mod_upper_bound i 4) as Hlt.
  symmetry. destruct (Nat.eqb_spec (i mod 4) 3) as [E | E].
  - apply Nat.div_unique with (r := 0%nat); lia.
  - apply Nat.div_unique with (r := S (i mod 4)); lia.
Qed.

Lemma quarters (i todo : nat) :
  ((i + S todo) / 4 - i / 4 =
   (if i mod 4 =? 3 then 1 else 0) + ((S i + todo) / 4 - S i / 4))%nat.
Proof.
  replace (i + S todo)%nat with (S i + todo)%nat by lia.
  pose proof (Nat.Div0.div_le_mono (S i) (S i + todo) 4) as Hmono.
  rewrite (quarter_step i) in *. lia.
Qed.

Lemma stripLoop_world (options : Options) (s : Surface) (todo i : nat) (off : list N)
      (w : World) :
  exists off',
    CloneNode.stripLoop options s todo i off w =
    (Ok off',
     mkWorld (_context w) (reads w)
       (trace w ++ repeat (Yield (_context w))
                     (if nonBlocking options then (i + todo) / 4 - i / 4 else 0))).
Proof.
  revert i off w. induction todo as [|todo IH]; intros i off w.
  - exists off. cbn [CloneNode.stripLoop]. unfold ret.
    rewrite Nat.add_0_r, Nat.sub_diag.
    destruct (nonBlocking options); cbn [repeat]; rewrite app_nil_r;
      destruct w; reflexivity.
  - rewrite stripLoop_step.
    destruct (CloneNode.stripBounds (height s) i) as [y stripHeight].
    unfold bind.
    destruct (nonBlocking options) eqn:Hnb; cbn [andb].
    + rewrite quarters.
      destruct (i mod 4 =? 3)%nat.
      * unfold yieldToMain, bind, getContext, emit. cbn [_context reads trace].
        match goal with
        | |- context [ CloneNode.stripLoop options s todo (S i) ?o ?w1 ] =>
            destruct (IH (S i) o w1) as [off' ->]
        end.
        exists off'. cbn [_context reads trace]. rewrite ?Hnb.
        rewrite <- app_assoc. reflexivity.
      * destruct (IH (S i) (CloneNode.putImageData (width s) off
                              (CloneNode.getImageData s y stripHeight) y) w)
          as [off' Hrun].
        unfold ret. rewrite Hrun. exists off'. rewrite ?Hnb. reflexivity.
    + destruct (IH (S i) (CloneNode.putImageData (width s) off
                            (CloneNode.getImageData s y stripHeight) y) w)
        as [off' Hrun].
      unfold ret. rewrite Hrun. exists off'. rewrite ?Hnb. reflexivity.
Qed.

(** X6. The chunked conversion of a canvas hands control back to the host
    once every four strips: in cooperative mode it yields exactly
    [floor (ceil (height / 256) / 4)] times, and never otherwise or when the
    canvas has no 2d context.  These yields are not governor ticks: the
    traversal context (counter, last-yield time) is left as it is, the
    clock is not read, and so no limit is checked during the conversion. *)
Theorem chunked_conversion_yields (host : Host) (options : Options) (s : Surface)
        (w : World) :
  snd (CloneNode.canvasToDataURLChunked host s options w) =
  mkWorld (_context w) (reads w)
    (trace w ++
     repeat (Yield (_context w))
       (if nonBlocking options && context2d s
        then CloneNode.totalStrips (height s) / 4 else 0)).
Proof.
  unfold CloneNode.canvasToDataURLChunked.
  destruct (context2d s); cbn [negb].
  - unfold CloneNode.assembleOffscreen, bind.
    destruct (stripLoop_world options s (CloneNode.totalStrips (height s)) 0
                (repeat 0%N (width s * height s)) w) as [off' ->].
    unfold ret. cbn [snd]. rewrite andb_true_r.
    rewrite Nat.add_0_l.
    replace (0 / 4)%nat with 0%nat by reflexivity. rewrite Nat.sub_0_r. reflexivity.
  - rewrite andb_false_r. unfold ret. cbn [snd repeat]. rewrite app_nil_r.
    destruct w; reflexivity.
Qed.

(** X7, a witness for [overdue_capture_rejected]: capturing
    [<p>Hello <b>big</b> world</p>] with a timeout of 100 ms on a clock that
    advances by a second at every read. *)
Lemma overdue_capture_rejected_witness :
  exists reason,
    fst (Index.toSvg (hostWith (steadyClock 1000 1000) [paragraph]) 1 paragraph
           (cooperativeOptions false None (Some 100) None) Index.initialWorld)
    = Aborted reason.
Proof.
  apply (@overdue_capture_rejected (hostWith (steadyClock 1000 1000) [paragraph]) 0
           paragraph (cooperativeOptions false None (Some 100) None)
           (text 2) [element 3 "B" [text 4]; text 5] 100).
  - reflexivity.
  - reflexivity.
  - discriminate.
  - intros (cap & E & _). discriminate E.
  - reflexivity.
  - reflexivity.
  - reflexivity.
  - vm_compute. discriminate.
  - vm_compute. discriminate.
Defined.


(* ================================================================== *)
(** * The shape of a clone *)
(* ================================================================== *)

Lemma bind_ret {A B} (a : A) (k : A -> M B) (w : World) : bind (ret a) k w = k a w.
Proof. reflexivity. Qed.

Lemma bind_ret_l {A B} (a : A) (k : A -> M B) : bind (ret a) k = k a.
Proof. reflexivity. Qed.

Lemma bind_ok {A B} {m : M A} (k : A -> M B) {w w1 : World} {a : A} :
  m w = (Ok a, w1) -> bind m k w = k a w1.
Proof. intros H. unfold bind. rewrite H. reflexivity. Qed.

Lemma rejected_spec (options : Options) (n : Node) (isRoot : bool) :
  negb isRoot && match filter options with
                 | Some f => negb (f n)
                 | None => false
                 end = negb (isRoot || passes options n).
Proof.
  unfold passes. destruct isRoot; [reflexivity|].
  destruct (filter options); reflexivity.
Qed.

(** ** Descendants and [use] elements *)

Lemma descendants_children (c : CNode) :
  CloneNode.descendants c =
  flat_map (fun k => k :: CloneNode.descendants k) (cchildNodes c).
Proof. destruct c. reflexivity. Qed.

Lemma selector_finds_nothing (c : CNode) :
  Forall (fun d => isUse d = false) (CloneNode.descendants c) ->
  CloneNode.querySelectorAll_use c = [].
Proof.
  unfold CloneNode.querySelectorAll_use.
  induction 1 as [|d l Hd _ IH]; [reflexivity|].
  cbn [List.filter]. unfold isUse in Hd. rewrite Hd. exact IH.
Qed.

Section NoUse.

Let noUse (d : CNode) : Prop := isUse d = false.

Lemma noUse_setStyle (c : CNode) (st : option Style) :
  CloneNode.descendants (setStyle c st) = CloneNode.descendants c.
Proof. destruct c. reflexivity. Qed.

Lemma noUse_setAttribute (c : CNode) (name value : string) :
  CloneNode.descendants (setAttribute c name value) = CloneNode.descendants c.
Proof. destruct c. reflexivity. Qed.

Lemma isUse_setAttribute (c : CNode) (name value : string) :
  isUse (setAttribute c name value) = isUse c.
Proof. destruct c. reflexivity. Qed.

Lemma descendants_setChildNodes (c : CNode) (kids : list CNode) :
  CloneNode.descendants (setChildNodes c kids) =
  flat_map (fun k => k :: CloneNode.descendants k) kids.
Proof. destruct c. reflexivity. Qed.

Lemma descendants_appendChild (c k : CNode) :
  CloneNode.descendants (appendChild c k) =
  (CloneNode.descendants c ++ k :: CloneNode.descendants k)%list.
Proof.
  unfold appendChild. rewrite descendants_setChildNodes, flat_map_app.
  rewrite <- descendants_children. cbn [flat_map]. rewrite app_nil_r. reflexivity.
Qed.

Lemma noUse_selectOption (value : string) (kids : list CNode) :
  Forall noUse (flat_map (fun k => k :: CloneNode.descendants k) kids) ->
  Forall noUse (flat_map (fun k => k :: CloneNode.descendants k)
                         (CloneNode.selectOption value kids)).
Proof.
  induction kids as [|k rest IH]; intros H; [exact H|].
  cbn [flat_map] in H. apply Forall_app in H. destruct H as [Hk Hrest].
  cbn [CloneNode.selectOption].
  destruct (isElement k && _); cbn [flat_map]; apply Forall_app; split.
  - inversion Hk; subst. constructor.
    + unfold noUse. rewrite isUse_setAttribute. assumption.
    + rewrite noUse_setAttribute. assumption.
  - exact Hrest.
  - exact Hk.
  - apply IH. exact Hrest.
Qed.

Lemma noUse_decorate (host : Host) (n : Node) (c : CNode) (options : Options) :
  literalContent n ->
  Forall noUse (CloneNode.descendants c) ->
  Forall noUse (CloneNode.descendants (CloneNode.decorate host n c options)).
Proof.
  intros Hplain H. unfold CloneNode.decorate. destruct (isElement c); [|exact H].
  assert (H1 : Forall noUse (CloneNode.descendants
                               (CloneNode.cloneCSSStyle host n c options))).
  { unfold CloneNode.cloneCSSStyle. destruct (cstyle c); [|exact H].
    destruct (nonEmpty _); rewrite noUse_setStyle; exact H. }
  set (c1 := CloneNode.cloneCSSStyle host n c options) in *.
  assert (H2 : Forall noUse (CloneNode.descendants
                               (CloneNode.clonePseudoElements host n c1 options))).
  { unfold CloneNode.clonePseudoElements. destruct (hasPseudoElements host n); [|exact H1].
    rewrite descendants_appendChild. apply Forall_app. split; [exact H1|].
    constructor; [reflexivity | constructor]. }
  set (c2 := CloneNode.clonePseudoElements host n c1 options) in *.
  assert (H3 : Forall noUse (CloneNode.descendants (CloneNode.cloneInputValue host n c2))).
  { unfold CloneNode.cloneInputValue. destruct (iface n) eqn:Hi; try exact H2.
    - rewrite descendants_setChildNodes. unfold CloneNode.innerHTML.
      rewrite (Hplain value Hi).
      destruct (nonEmpty value); cbn [flat_map].
      + constructor; [reflexivity | constructor].
      + constructor.
    - rewrite noUse_setAttribute. exact H2. }
  set (c3 := CloneNode.cloneInputValue host n c2) in *.
  unfold CloneNode.cloneSelectValue. destruct (iface n); try exact H3.
  rewrite descendants_setChildNodes. apply noUse_selectOption.
  rewrite <- descendants_children. exact H3.
Qed.

End NoUse.

Lemma ctagName_decorate (host : Host) (n : Node) (c : CNode) (options : Options) :
  ctagName (CloneNode.decorate host n c options) = ctagName c /\
  ciface (CloneNode.decorate host n c options) = ciface c.
Proof.
  unfold CloneNode.decorate. destruct (isElement c); [|split; reflexivity].
  unfold CloneNode.cloneSelectValue, CloneNode.cloneInputValue,
    CloneNode.clonePseudoElements, CloneNode.cloneCSSStyle.
  destruct (iface n); destruct (hasPseudoElements host n); destruct (cstyle c);
    try destruct (nonEmpty (cssText (computedStyle n))); destruct c; split; reflexivity.
Qed.

Lemma ensureSVGSymbols_nothing (host : Host)
      (rec : Node -> Options -> bool -> M (option CNode))
      (c : CNode) (options : Options) :
  Forall (fun d => isUse d = false) (CloneNode.descendants c) ->
  CloneNode.ensureSVGSymbols host rec c options = ret c.
Proof.
  intros H. unfold CloneNode.ensureSVGSymbols.
  rewrite selector_finds_nothing by exact H. reflexivity.
Qed.

(** ** One level of the clone, in blocking mode *)

Section Blocking.

Variable host : Host.
Variable options : Options.
Hypothesis blocking : nonBlocking options = false.

Lemma cloneChildrenLoop_blocking
      (rec : Node -> Options -> bool -> M (option CNode)) (copies : Node -> CNode)
      (kids : list Node) :
  Forall (fun k => forall w,
              rec k options false w =
              (Ok (if passes options k then Some (copies k) else None), w)) kids ->
  forall c w,
    CloneNode.cloneChildrenLoop host rec options kids c w =
    (Ok (setChildNodes c
           (cchildNodes c ++
            flat_map (fun k => if passes options k then [copies k] else []) kids)), w).
Proof.
  induction 1 as [|k rest Hk _ IH]; intros c w.
  - cbn [CloneNode.cloneChildrenLoop flat_map]. rewrite app_nil_r.
    destruct c; reflexivity.
  - cbn [CloneNode.cloneChildrenLoop flat_map].
    destruct (tick_disabled host options w (or_introl blocking)) as [Htick _].
    rewrite (bind_ok _ Htick), (bind_ok _ (Hk w)), IH.
    destruct (passes options k); cbn [app].
    + unfold appendChild. destruct c; simpl.
      rewrite <- app_assoc. reflexivity.
    + reflexivity.
Qed.

Lemma cloneChildren_is_loop (rec : Node -> Options -> bool -> M (option CNode))
      (n : Node) (c : CNode) :
  CloneNode.isSVGElement (ctagName c) = false ->
  CloneNode.isVideo n = false ->
  CloneNode.cloneChildren host rec n c options =
  CloneNode.cloneChildrenLoop host rec options (CloneNode.childrenOf n) c.
Proof.
  intros Hsvg Hvideo. unfold CloneNode.cloneChildren. rewrite Hsvg, Hvideo.
  destruct (CloneNode.childrenOf n); reflexivity.
Qed.

(** The steps of [cloneNode] after the single-node copy [c], over children
    whose clones are known. *)
Lemma cloneNode_tail (rec : Node -> Options -> bool -> M (option CNode))
      (copies : Node -> CNode) (n : Node) (c : CNode) (w : World) :
  literalContent n ->
  CloneNode.isSVGElement (ctagName c) = false ->
  CloneNode.isVideo n = false ->
  Forall (fun d => isUse d = false) (CloneNode.descendants c) ->
  Forall (fun k => forall w,
              rec k options false w =
              (Ok (if passes options k then Some (copies k) else None), w))
         (CloneNode.childrenOf n) ->
  Forall (fun k => passes options k = true ->
                   Forall (fun d => isUse d = false)
                          (copies k :: CloneNode.descendants (copies k)))
         (CloneNode.childrenOf n) ->
  (clonedNode <- CloneNode.cloneChildren host rec n c options ;;
   let clonedNode := CloneNode.decorate host n clonedNode options in
   clonedNode <- CloneNode.ensureSVGSymbols host rec clonedNode options ;;
   ret (Some clonedNode)) w =
  (Ok (Some (CloneNode.decorate host n
               (setChildNodes c
                  (cchildNodes c ++
                   flat_map (fun k => if passes options k then [copies k] else [])
                            (CloneNode.childrenOf n)))
               options)), w).
Proof.
  intros Hliteral Hsvg Hvideo Hc Hkids Huse.
  rewrite (cloneChildren_is_loop rec n c Hsvg Hvideo).
  rewrite (bind_ok _ (cloneChildrenLoop_blocking rec copies Hkids c w)).
  cbv zeta. rewrite ensureSVGSymbols_nothing; [reflexivity|].
  apply noUse_decorate; [exact Hliteral|].
  rewrite descendants_setChildNodes, flat_map_app, <- descendants_children.
  apply Forall_app. split; [exact Hc|].
  apply Forall_flat_map, Forall_flat_map.
  eapply Forall_impl; [|exact Huse]. intros k Hk.
  cbv beta in Hk. destruct (passes options k); [|constructor].
  constructor; [apply Hk; reflexivity | constructor].
Qed.

Lemma cloneNode_level (copies : Node -> CNode) (n : Node) (fuel : nat) (isRoot : bool)
      (w : World) :
  literalContent n ->
  copiedShallow n = true ->
  Forall (fun k => forall w,
              CloneNode.cloneNode host fuel k options false w =
              (Ok (if passes options k then Some (copies k) else None), w))
         (CloneNode.childrenOf n) ->
  Forall (fun k => passes options k = true ->
                   Forall (fun d => isUse d = false)
                          (copies k :: CloneNode.descendants (copies k)))
         (CloneNode.childrenOf n) ->
  CloneNode.cloneNode host (S fuel) n options isRoot w =
  (Ok (if isRoot || passes options n
       then Some (CloneNode.decorate host n
                    (setChildNodes (CloneNode.shallowClone n)
                       (flat_map (fun k => if passes options k then [copies k] else [])
                                 (CloneNode.childrenOf n)))
                    options)
       else None), w).
Proof.
  intros Hliteral Hshape Hkids Huse.
  unfold copiedShallow in Hshape. apply andb_prop in Hshape.
  destruct Hshape as [Hiface Hsvg]. apply negb_true_iff in Hsvg.
  cbn [CloneNode.cloneNode]. rewrite rejected_spec.
  destruct (isRoot || passes options n); cbn [negb]; [|reflexivity].
  assert (Hsingle : CloneNode.cloneSingleNode host (CloneNode.cloneNode host fuel) n options w
                    = (Ok (Some (CloneNode.shallowClone n)), w)).
  { unfold CloneNode.cloneSingleNode.
    destruct (iface n); try discriminate Hiface; rewrite Hsvg; reflexivity. }
  rewrite (bind_ok _ Hsingle).
  assert (Hvideo : CloneNode.isVideo n = false).
  { unfold CloneNode.isVideo. destruct (iface n); try discriminate Hiface; reflexivity. }
  apply (@cloneNode_tail (CloneNode.cloneNode host fuel) copies n
           (CloneNode.shallowClone n) w Hliteral Hsvg Hvideo (Forall_nil _) Hkids Huse).
Qed.

End Blocking.

(** ** Plain trees *)

Lemma depth_children (kids : list Node) :
  Forall (fun k => (depth k <= fold_right (fun k m => Nat.max (depth k) m) 0 kids)%nat)
         kids.
Proof.
  induction kids as [|k rest IH]; constructor; cbn [fold_right]; [lia|].
  eapply Forall_impl; [|exact IH]. cbv beta. intros a Ha. lia.
Qed.

Lemma plain_parts (id : nat) (i : Interface Node) (tag : option string)
      (attrs : list (string * string)) (st : Style) (computed : ComputedStyle)
      (kids : list Node) (shadow : option (list Node)) :
  plain (mkNode id i tag attrs st computed kids shadow) = true ->
  copiedAsIs i = true /\ CloneNode.isSVGElement tag = false /\
  CloneNode.tagIs tag "USE" = false /\ shadow = None /\ forallb plain kids = true.
Proof.
  cbn [plain]. intros H.
  repeat (apply andb_prop in H; destruct H as [H ?]).
  destruct shadow; [discriminate|].
  repeat split; try assumption; apply negb_true_iff; assumption.
Qed.

Lemma childrenOf_plain (n : Node) :
  plain n = true -> CloneNode.childrenOf n = childNodes n.
Proof.
  destruct n as [id i tag attrs st computed kids shadow]. intros H.
  apply plain_parts in H. destruct H as (Hi & _ & _ & -> & _).
  unfold CloneNode.childrenOf. destruct i; try discriminate Hi; reflexivity.
Qed.

Lemma literalContent_other (n : Node) :
  match iface n with HTMLTextAreaElement _ => False | _ => True end ->
  literalContent n.
Proof. intros H value Hi. rewrite Hi in H. destruct H. Qed.

Lemma literalContent_plain (n : Node) : plain n = true -> literalContent n.
Proof.
  destruct n as [id i tag attrs st computed kids shadow]. intros H.
  apply plain_parts in H. destruct H as (Hi & _).
  apply literalContent_other. cbn [iface]. destruct i; try discriminate Hi; exact I.
Qed.

Lemma copiedShallow_plain (n : Node) : plain n = true -> copiedShallow n = true.
Proof.
  destruct n as [id i tag attrs st computed kids shadow]. intros H.
  apply plain_parts in H. destruct H as (Hi & Hsvg & _).
  unfold copiedShallow. cbn [iface tagName]. rewrite Hsvg.
  destruct i; try discriminate Hi; reflexivity.
Qed.

Lemma mirror_level (host : Host) (options : Options) (n : Node) :
  mirror host options n =
  CloneNode.decorate host n
    (setChildNodes (CloneNode.shallowClone n)
       (flat_map (fun k => if passes options k then [mirror host options k] else [])
                 (childNodes n)))
    options.
Proof. destruct n. reflexivity. Qed.

Lemma mirror_no_use (host : Host) (options : Options) (n : Node) :
  plain n = true ->
  Forall (fun d => isUse d = false)
         (mirror host options n :: CloneNode.descendants (mirror host options n)).
Proof.
  induction n as [id i tag attrs st computed kids shadow IH] using Node_children_ind.
  intros Hplain. pose proof (plain_parts _ _ _ _ _ _ _ _ Hplain) as (_ & _ & Huse & _ & Hkids).
  rewrite mirror_level. constructor.
  - unfold isUse. destruct (ctagName_decorate host
      (mkNode id i tag attrs st computed kids shadow)
      (setChildNodes (CloneNode.shallowClone (mkNode id i tag attrs st computed kids shadow))
         (flat_map (fun k => if passes options k then [mirror host options k] else [])
                   (childNodes (mkNode id i tag attrs st computed kids shadow))))
      options) as [-> _].
    cbn [setChildNodes CloneNode.shallowClone ctagName tagName].
    rewrite Huse. apply andb_false_r.
  - apply noUse_decorate; [apply literalContent_plain; exact Hplain|].
    rewrite descendants_setChildNodes.
    apply Forall_flat_map, Forall_flat_map. cbn [childNodes].
    rewrite forallb_forall in Hkids. rewrite Forall_forall in IH.
    apply Forall_forall. intros k Hin.
    destruct (passes options k); [|constructor].
    constructor; [|constructor]. apply IH; [exact Hin | apply Hkids; exact Hin].
Qed.

Section BlockingPlain.

Variable host : Host.
Variable options : Options.
Hypothesis blocking : nonBlocking options = false.

(** Cloning a plain tree in blocking mode, with fuel for its depth. *)
Lemma cloneNode_plain (n : Node) :
  plain n = true ->
  forall fuel isRoot w,
    (depth n <= fuel)%nat ->
    CloneNode.cloneNode host fuel n options isRoot w =
    (Ok (if isRoot || passes options n then Some (mirror host options n) else None), w).
Proof.
  induction n as [id i tag attrs st computed kids shadow IH] using Node_children_ind.
  intros Hplain fuel isRoot w Hfuel.
  destruct fuel as [|fuel]; [cbn [depth] in Hfuel; lia|].
  pose proof (plain_parts _ _ _ _ _ _ _ _ Hplain) as (_ & _ & _ & _ & Hkids).
  rewrite forallb_forall in Hkids.
  rewrite mirror_level, <- (childrenOf_plain _ Hplain).
  apply cloneNode_level with (copies := mirror host options).
  - exact blocking.
  - apply literalContent_plain. exact Hplain.
  - apply copiedShallow_plain. exact Hplain.
  - rewrite (childrenOf_plain _ Hplain). cbn [childNodes].
    pose proof (depth_children kids) as Hdepth. cbn [depth] in Hfuel.
    rewrite Forall_forall in IH, Hdepth. apply Forall_forall. intros k Hin w0.
    rewrite (IH k Hin (Hkids k Hin) fuel false w0); [reflexivity|].
    specialize (Hdepth k Hin). lia.
  - rewrite (childrenOf_plain _ Hplain). cbn [childNodes].
    apply Forall_forall. intros k Hin _. apply mirror_no_use. apply Hkids. exact Hin.
Qed.

End BlockingPlain.

Lemma origins_decorate_kept (host : Host) (n : Node) (c : CNode) (options : Options) :
  match iface n with HTMLTextAreaElement _ => False | _ => True end ->
  origins (CloneNode.decorate host n c options) = origins c.
Proof.
  intros Hi. unfold CloneNode.decorate. destruct (isElement c); [|reflexivity].
  rewrite origins_cloneSelectValue.
  transitivity (origins (CloneNode.clonePseudoElements host n
                           (CloneNode.cloneCSSStyle host n c options) options)).
  - unfold CloneNode.cloneInputValue. destruct (iface n); try reflexivity.
    + contradiction.
    + apply origins_setAttribute.
  - rewrite origins_clonePseudoElements. apply origins_cloneCSSStyle.
Qed.

Lemma origins_mirror (host : Host) (options : Options) (n : Node) :
  plain n = true -> origins (mirror host options n) = keptIds options n.
Proof.
  induction n as [id i tag attrs st computed kids shadow IH] using Node_children_ind.
  intros Hplain. pose proof (plain_parts _ _ _ _ _ _ _ _ Hplain) as (Hi & _ & _ & _ & Hkids).
  cbn [mirror]. rewrite origins_decorate_kept
    by (cbn [iface]; destruct i; try discriminate Hi; exact I).
  cbn [origins keptIds app]. f_equal.
  rewrite forallb_forall in Hkids. rewrite Forall_forall in IH.
  clear Hplain. induction kids as [|k rest IHkids]; [reflexivity|].
  cbn [flat_map]. rewrite flat_map_app.
  rewrite IHkids.
  - f_equal. destruct (passes options k); [|reflexivity].
    cbn [flat_map]. rewrite app_nil_r. apply IH; [left; reflexivity|].
    apply Hkids. left. reflexivity.
  - intros x Hx. apply IH. right. exact Hx.
  - intros x Hx. apply Hkids. right. exact Hx.
Qed.

(** X8. Cloning a plain tree in blocking mode, with fuel for its depth,
    resolves without touching the world (no tick, no fetch, no clock read)
    with the structural copy of the tree: every node is the decorated
    shallow copy of its source over the copies of the children the filter
    accepts.  The nodes of the clone are the nodes reached from the root
    through accepted children, each once and in document order: excluding a
    node excludes its subtree, and nothing else is left out. *)
Theorem plain_tree_cloned_in_order (host : Host) (options : Options) (n : Node)
        (fuel : nat) (w : World) :
  nonBlocking options = false ->
  plain n = true ->
  (depth n <= fuel)%nat ->
  CloneNode.cloneNode host fuel n options true w =
    (Ok (Some (mirror host options n)), w) /\
  origins (mirror host options n) = keptIds options n.
Proof.
  intros Hnb Hplain Hfuel. split.
  - apply cloneNode_plain; assumption.
  - apply origins_mirror. exact Hplain.
Qed.

Lemma plain_tree_cloned_in_order_witness :
  CloneNode.cloneNode (hostWith (steadyClock 0 1) [article]) 3 article (excluding 2) true
                      Index.initialWorld =
    (Ok (Some (mirror (hostWith (steadyClock 0 1) [article]) (excluding 2) article)),
     Index.initialWorld) /\
  origins (mirror (hostWith (steadyClock 0 1) [article]) (excluding 2) article) =
    keptIds (excluding 2) article.
Proof.
  apply (@plain_tree_cloned_in_order (hostWith (steadyClock 0 1) [article]) (excluding 2)
           article 3 Index.initialWorld).
  - reflexivity.
  - reflexivity.
  - vm_compute. lia.
Defined.

(** ** Nodes over plain children *)

Lemma origins_copies (host : Host) (options : Options) (kids : list Node) :
  forallb plain kids = true ->
  flat_map origins
    (flat_map (fun k => if passes options k then [mirror host options k] else []) kids) =
  flat_map (fun k => if passes options k then keptIds options k else []) kids.
Proof.
  induction kids as [|k rest IH]; [reflexivity|].
  cbn [forallb]. intros H. apply andb_prop in H. destruct H as [Hk Hrest].
  cbn [flat_map]. rewrite flat_map_app, IH by exact Hrest. f_equal.
  destruct (passes options k); [|reflexivity].
  cbn [flat_map]. rewrite app_nil_r. apply origins_mirror. exact Hk.
Qed.

Lemma origins_extend (c : CNode) (more : list CNode) :
  origins (setChildNodes c (cchildNodes c ++ more)) =
  (origins c ++ flat_map origins more)%list.
Proof.
  destruct c as [o i tag attrs st kids]. simpl.
  rewrite flat_map_app, app_assoc. reflexivity.
Qed.

Section BlockingChildren.

Variable host : Host.
Variable options : Options.
Hypothesis blocking : nonBlocking options = false.

Lemma plain_children_cloned (kids : list Node) (fuel : nat) :
  forallb plain kids = true ->
  Forall (fun k => (depth k <= fuel)%nat) kids ->
  Forall (fun k => forall w,
              CloneNode.cloneNode host fuel k options false w =
              (Ok (if passes options k then Some (mirror host options k) else None), w))
         kids /\
  Forall (fun k => passes options k = true ->
                   Forall (fun d => isUse d = false)
                          (mirror host options k ::
                           CloneNode.descendants (mirror host options k)))
         kids.
Proof.
  intros Hplain Hdepth. rewrite forallb_forall in Hplain. rewrite Forall_forall in Hdepth.
  split; apply Forall_forall; intros k Hin.
  - intros w. rewrite cloneNode_plain; auto.
  - intros _. apply mirror_no_use. apply Hplain. exact Hin.
Qed.

(** A node copied by [node.cloneNode(false)] whose selected children are
    plain trees. *)
Lemma cloneNode_over_plain_children (n : Node) (fuel : nat) (w : World) :
  copiedShallow n = true ->
  match iface n with HTMLTextAreaElement _ => False | _ => True end ->
  forallb plain (CloneNode.childrenOf n) = true ->
  Forall (fun k => (depth k <= fuel)%nat) (CloneNode.childrenOf n) ->
  exists clone,
    CloneNode.cloneNode host (S fuel) n options true w = (Ok (Some clone), w) /\
    origins clone =
      nid n :: flat_map (fun k => if passes options k then keptIds options k else [])
                        (CloneNode.childrenOf n).
Proof.
  intros Hshape Hiface Hplain Hdepth.
  destruct (plain_children_cloned Hplain Hdepth) as [Hkids Huse].
  eexists. split.
  - apply cloneNode_level with (copies := mirror host options) (isRoot := true);
      try assumption.
    apply literalContent_other. exact Hiface.
  - cbn [orb]. rewrite origins_decorate_kept by exact Hiface.
    change (setChildNodes (CloneNode.shallowClone n) ?X)
      with (setChildNodes (CloneNode.shallowClone n)
              (cchildNodes (CloneNode.shallowClone n) ++ X)).
    rewrite origins_extend, origins_copies by exact Hplain. reflexivity.
Qed.

End BlockingChildren.

Lemma tagIs_exclusive (tag : option string) (a b : string) :
  CloneNode.tagIs tag a = true -> a <> b -> CloneNode.tagIs tag b = false.
Proof.
  unfold CloneNode.tagIs. destruct tag as [t|]; [|discriminate].
  intros Ha Hne. apply String.eqb_eq in Ha. subst a.
  apply String.eqb_neq. exact Hne.
Qed.



(** X10. A slot contributes the nodes assigned to it: the children cloned
    under it are its assigned nodes, not its own children (the fallback
    content). *)
Theorem slot_clones_assigned_nodes (host : Host) (options : Options) (n : Node)
        (assigned : list Node) (fuel : nat) (w : World) :
  nonBlocking options = false ->
  iface n = HTMLSlotElement assigned ->
  CloneNode.isSlotElement (tagName n) = true ->
  forallb plain assigned = true ->
  Forall (fun k => (depth k <= fuel)%nat) assigned ->
  exists clone,
    CloneNode.cloneNode host (S fuel) n options true w = (Ok (Some clone), w) /\
    origins clone =
      nid n :: flat_map (fun k => if passes options k then keptIds options k else [])
                        assigned.
Proof.
  intros Hnb Hiface Hslot Hplain Hdepth.
  assert (Hkids : CloneNode.childrenOf n = assigned).
  { unfold CloneNode.childrenOf. rewrite Hiface, Hslot. reflexivity. }
  rewrite <- Hkids in *.
  apply cloneNode_over_plain_children; try assumption.
  - unfold copiedShallow. rewrite Hiface.
    unfold CloneNode.isSVGElement.
    rewrite (@tagIs_exclusive (tagName n) "SLOT" "SVG" Hslot); [reflexivity | discriminate].
  - rewrite Hiface. exact I.
Qed.

Lemma slot_clones_assigned_nodes_witness :
  exists clone,
    CloneNode.cloneNode (hostWith (steadyClock 0 1) []) 2 slotted defaultOptions true
                        Index.initialWorld = (Ok (Some clone), Index.initialWorld) /\
    origins clone = [1; 5; 6]%nat.
Proof.
  apply (@slot_clones_assigned_nodes (hostWith (steadyClock 0 1) []) defaultOptions
           slotted [element 5 "P" []; text 6] 1 Index.initialWorld).
  - reflexivity.
  - reflexivity.
  - reflexivity.
  - reflexivity.
  - repeat constructor.
Defined.

(** ** Frames *)

Lemma cloneIFrameElement_resolved (rec : Node -> Options -> bool -> M (option CNode))
      (n b : Node) (options : Options) (w w1 : World) (c : CNode) :
  rec b options true w = (Ok (Some c), w1) ->
  CloneNode.cloneIFrameElement rec n (Some b) options w = (Ok (Some c), w1).
Proof.
  intros H. unfold CloneNode.cloneIFrameElement, tryCatch, bind. rewrite H. reflexivity.
Qed.

(** X11. A frame is replaced by the clone of the body of its document, and
    the children of that body are then cloned a second time and appended to
    it: in the clone of a frame over a plain body, the body comes once
    (the frame element itself does not appear) and every accepted subtree
    below the body comes twice. *)
Theorem frame_children_cloned_twice (host : Host) (options : Options) (n b : Node)
        (fuel : nat) (w : World) :
  nonBlocking options = false ->
  iface n = HTMLIFrameElement (Some b) ->
  plain b = true ->
  (depth b <= fuel)%nat ->
  exists clone,
    CloneNode.cloneNode host (S fuel) n options true w = (Ok (Some clone), w) /\
    origins clone =
      (keptIds options b ++
       flat_map (fun k => if passes options k then keptIds options k else [])
                (childNodes b))%list.
Proof.
  intros Hnb Hiface Hplain Hfuel.
  assert (Hbody : CloneNode.cloneNode host fuel b options true w =
                  (Ok (Some (mirror host options b)), w))
    by (rewrite cloneNode_plain by assumption; reflexivity).
  assert (Hkids : CloneNode.childrenOf n = childNodes b).
  { unfold CloneNode.childrenOf. rewrite Hiface. reflexivity. }
  assert (Hparts : forallb plain (childNodes b) = true /\
                   Forall (fun k => (depth k <= fuel)%nat) (childNodes b) /\
                   CloneNode.isSVGElement (ctagName (mirror host options b)) = false).
  { destruct b as [id i tag attrs st computed kids shadow].
    pose proof (plain_parts _ _ _ _ _ _ _ _ Hplain) as (_ & Hsvg & _ & _ & Hk).
    split; [exact Hk|]. split.
    - cbn [childNodes]. cbn [depth] in Hfuel.
      eapply Forall_impl; [|apply depth_children]. cbv beta. intros k Hle. lia.
    - rewrite mirror_level.
      match goal with
      | |- context [ ctagName (CloneNode.decorate ?h ?x ?c ?o) ] =>
          destruct (ctagName_decorate h x c o) as [-> _]
      end.
      exact Hsvg. }
  destruct Hparts as (Hplains & Hdepths & Hsvg).
  destruct (plain_children_cloned host options Hnb Hplains Hdepths) as [Hclones Huse].
  rewrite <- Hkids in Hclones, Huse.
  eexists. split.
  - cbn [CloneNode.cloneNode negb andb].
    assert (Hsingle : CloneNode.cloneSingleNode host (CloneNode.cloneNode host fuel) n
                        options w = (Ok (Some (mirror host options b)), w)).
    { unfold CloneNode.cloneSingleNode. rewrite Hiface.
      apply cloneIFrameElement_resolved. exact Hbody. }
    rewrite (bind_ok _ Hsingle).
    assert (Hliteral : literalContent n)
      by (apply literalContent_other; rewrite Hiface; exact I).
    apply (@cloneNode_tail host options Hnb (CloneNode.cloneNode host fuel)
             (mirror host options) n (mirror host options b) w Hliteral Hsvg).
    + unfold CloneNode.isVideo. rewrite Hiface. reflexivity.
    + pose proof (mirror_no_use host options b Hplain) as Hno.
      inversion Hno; assumption.
    + exact Hclones.
    + exact Huse.
  - rewrite origins_decorate_kept by (rewrite Hiface; exact I).
    rewrite origins_extend, Hkids, origins_copies by exact Hplains.
    rewrite origins_mirror by exact Hplain. reflexivity.
Qed.

Lemma frame_children_cloned_twice_witness :
  exists clone,
    CloneNode.cloneNode (hostWith (steadyClock 0 1) []) 3 framedArticle defaultOptions
                        true Index.initialWorld =
      (Ok (Some clone), Index.initialWorld) /\
    origins clone = ([2; 3; 4] ++ [3; 4])%nat%list.
Proof.
  apply (@frame_children_cloned_twice (hostWith (steadyClock 0 1) []) defaultOptions
           framedArticle (element 2 "BODY" [element 3 "P" []; text 4]) 2
           Index.initialWorld).
  - reflexivity.
  - reflexivity.
  - reflexivity.
  - vm_compute. lia.
Defined.

(** X12. Whatever the clone of the body of a nested document does, cloning
    the frame is not rejected: a [CaptureAbortedError] or any other error
    raised below the body is caught, and the frame is then copied as an
    empty shell, in the world the failed attempt left. *)
Theorem nested_document_failure_swallowed
        (rec : Node -> Options -> bool -> M (option CNode)) (n : Node)
        (body : option Node) (options : Options) (w : World) :
  (forall reason,
      fst (CloneNode.cloneIFrameElement rec n body options w) <> Aborted reason) /\
  fst (CloneNode.cloneIFrameElement rec n body options w) <> Failed /\
  (forall b w',
      body = Some b ->
      (exists reason, rec b options true w = (Aborted reason, w')) \/
      rec b options true w = (Failed, w') ->
      CloneNode.cloneIFrameElement rec n body options w =
      (Ok (Some (CloneNode.shallowClone n)), w')).
Proof.
  unfold CloneNode.cloneIFrameElement, tryCatch, bind, ret.
  split; [|split].
  - intros reason. destruct body as [b|]; [|discriminate].
    destruct (rec b options true w) as [[[c|] | r | | ] w1]; discriminate.
  - destruct body as [b|]; [|discriminate].
    destruct (rec b options true w) as [[[c|] | r | | ] w1]; discriminate.
  - intros b w' -> [[reason H] | H]; rewrite H; reflexivity.
Qed.

(** ** Subtrees copied in one step *)

Lemma descendants_deepClone (n : Node) :
  CloneNode.descendants (CloneNode.deepClone n) =
  map CloneNode.deepClone (CloneNode.nodeDescendants n).
Proof.
  induction n as [id i tag attrs st computed kids shadow IH] using Node_children_ind.
  cbn [CloneNode.deepClone CloneNode.descendants CloneNode.nodeDescendants].
  rewrite flat_map_map, map_flat_map.
  apply flat_map_ext_Forall. eapply Forall_impl; [|exact IH].
  cbv beta. intros k Hk. cbn [map]. rewrite Hk. reflexivity.
Qed.

Lemma isUse_deepClone (d : Node) :
  isUse (CloneNode.deepClone d) =
  Index.isElementNode d && CloneNode.tagIs (tagName d) "USE".
Proof. destruct d as [id i tag attrs st computed kids shadow]. destruct i; reflexivity. Qed.

Lemma deepClone_no_use (n : Node) :
  noUseBelow n = true ->
  Forall (fun d => isUse d = false) (CloneNode.descendants (CloneNode.deepClone n)).
Proof.
  unfold noUseBelow. rewrite forallb_forall, descendants_deepClone. intros H.
  apply Forall_forall. intros c Hin. apply in_map_iff in Hin.
  destruct Hin as (d & <- & Hd). rewrite isUse_deepClone.
  apply negb_true_iff. apply H. exact Hd.
Qed.

(** X13. An [svg] element is copied with its whole subtree in one step, in
    every mode: no tick is made for its descendants (the world is left as
    it is, so no progress is reported, nothing yields and no limit is
    checked below it), the filter is not consulted for them, and the clone
    holds a copy of every descendant, in document order. *)
Theorem svg_copied_whole (host : Host) (options : Options) (n : Node) (fuel : nat)
        (isRoot : bool) (w : World) :
  CloneNode.isSVGElement (tagName n) = true ->
  copiedAsIs (iface n) = true ->
  noUseBelow n = true ->
  isRoot || passes options n = true ->
  CloneNode.cloneNode host (S fuel) n options isRoot w =
    (Ok (Some (CloneNode.decorate host n (CloneNode.deepClone n) options)), w) /\
  origins (CloneNode.decorate host n (CloneNode.deepClone n) options) =
    map nid (n :: CloneNode.nodeDescendants n).
Proof.
  intros Hsvg Hiface Huse Hpass. split.
  - cbn [CloneNode.cloneNode]. rewrite rejected_spec, Hpass. cbn [negb].
    assert (Hsingle : CloneNode.cloneSingleNode host (CloneNode.cloneNode host fuel) n
                        options w = (Ok (Some (CloneNode.deepClone n)), w)).
    { unfold CloneNode.cloneSingleNode.
      destruct (iface n); try discriminate Hiface; rewrite Hsvg; reflexivity. }
    rewrite (bind_ok _ Hsingle).
    assert (Hchildren : CloneNode.cloneChildren host (CloneNode.cloneNode host fuel) n
                          (CloneNode.deepClone n) options w =
                        (Ok (CloneNode.deepClone n), w)).
    { unfold CloneNode.cloneChildren.
      replace (ctagName (CloneNode.deepClone n)) with (tagName n) by (destruct n; reflexivity).
      rewrite Hsvg. reflexivity. }
    rewrite (bind_ok _ Hchildren). cbv zeta.
    rewrite ensureSVGSymbols_nothing; [reflexivity|].
    apply noUse_decorate; [|apply deepClone_no_use; exact Huse].
    apply literalContent_other.
    destruct (iface n); try discriminate Hiface; exact I.
  - rewrite origins_decorate_kept
      by (destruct (iface n); try discriminate Hiface; exact I).
    apply origins_deepClone.
Qed.

Lemma svg_copied_whole_witness :
  CloneNode.cloneNode (hostWith (steadyClock 0 1) []) 1 picture strictOptions true
                      (mkWorld (Some (mkContext 0 (Some 0) (Some 7))) 2 []) =
    (Ok (Some (CloneNode.decorate (hostWith (steadyClock 0 1) []) picture
                 (CloneNode.deepClone picture) strictOptions)),
     mkWorld (Some (mkContext 0 (Some 0) (Some 7))) 2 []) /\
  origins (CloneNode.decorate (hostWith (steadyClock 0 1) []) picture
             (CloneNode.deepClone picture) strictOptions) = [2; 3; 4]%nat.
Proof.
  apply (@svg_copied_whole (hostWith (steadyClock 0 1) []) strictOptions picture 0 true
           (mkWorld (Some (mkContext 0 (Some 0) (Some 7))) 2 []));
    reflexivity.
Defined.

(** X14. A video is replaced by a still image and its children are not
    cloned.  When the video is playing, the image is the current frame and
    nothing else happens, in every mode (no fetch, no tick).  Otherwise the
    image is the poster, resolved by one call of the resource resolver. *)
Theorem video_replaced_by_still (host : Host) (options : Options) (n : Node)
        (currentSrc poster : string) (frame : Surface) (fuel : nat) (isRoot : bool)
        (w : World) :
  iface n = HTMLVideoElement currentSrc poster frame ->
  isRoot || passes options n = true ->
  let still url :=
    CloneNode.decorate host n
      (mkCNode (Some (nid n)) CHTMLImageElement (Some "IMG") [("src", url)] (Some []) [])
      options in
  (currentSrc <> "" ->
   imageLoads host (CloneNode.toDataURL host frame) = true ->
   CloneNode.cloneNode host (S fuel) n options isRoot w =
   (Ok (Some (still (CloneNode.toDataURL host frame))), w)) /\
  (currentSrc = "" ->
   forall dataURL,
     resourceToDataURL host poster = Some dataURL ->
     imageLoads host dataURL = true ->
     CloneNode.cloneNode host (S fuel) n options isRoot w =
     (Ok (Some (still dataURL)),
      mkWorld (_context w) (reads w) (trace w ++ [Fetch poster]))).
Proof.
  intros Hiface Hpass still.
  assert (Htail : forall url w1,
             (clonedNode <- CloneNode.cloneChildren host (CloneNode.cloneNode host fuel) n
                              (CloneNode.standsFor n
                                 (mkCNode None CHTMLImageElement (Some "IMG")
                                          [("src", url)] (Some []) [])) options ;;
              let clonedNode := CloneNode.decorate host n clonedNode options in
              clonedNode <- CloneNode.ensureSVGSymbols host (CloneNode.cloneNode host fuel)
                              clonedNode options ;;
              ret (Some clonedNode)) w1 = (Ok (Some (still url)), w1)).
  { intros url w1. unfold CloneNode.cloneChildren, CloneNode.isVideo. rewrite Hiface.
    cbn [CloneNode.standsFor ctagName].
    replace (CloneNode.isSVGElement (Some "IMG")) with false by reflexivity.
    rewrite orb_true_r. rewrite bind_ret. cbv zeta.
    rewrite ensureSVGSymbols_nothing; [reflexivity|].
    apply noUse_decorate; [|constructor].
    apply literalContent_other. rewrite Hiface. exact I. }
  split.
  - intros Hsrc Hload.
    cbn [CloneNode.cloneNode]. rewrite rejected_spec, Hpass. cbn [negb].
    assert (Hsingle : CloneNode.cloneSingleNode host (CloneNode.cloneNode host fuel) n
                        options w =
                      (Ok (Some (CloneNode.standsFor n
                                   (mkCNode None CHTMLImageElement (Some "IMG")
                                      [("src", CloneNode.toDataURL host frame)]
                                      (Some []) []))), w)).
    { unfold CloneNode.cloneSingleNode. rewrite Hiface.
      unfold CloneNode.cloneVideoElement, nonEmpty.
      apply String.eqb_neq in Hsrc. rewrite Hsrc. cbn [negb].
      unfold CloneNode.createImage. rewrite Hload. reflexivity. }
    rewrite (bind_ok _ Hsingle). apply Htail.
  - intros Hsrc dataURL Hfetch Hload.
    cbn [CloneNode.cloneNode]. rewrite rejected_spec, Hpass. cbn [negb].
    assert (Hsingle : CloneNode.cloneSingleNode host (CloneNode.cloneNode host fuel) n
                        options w =
                      (Ok (Some (CloneNode.standsFor n
                                   (mkCNode None CHTMLImageElement (Some "IMG")
                                      [("src", dataURL)] (Some []) []))),
                       mkWorld (_context w) (reads w) (trace w ++ [Fetch poster]))).
    { unfold CloneNode.cloneSingleNode. rewrite Hiface.
      unfold CloneNode.cloneVideoElement, nonEmpty. rewrite Hsrc. cbn [String.eqb negb].
      unfold fetchResource, bind, emit, ret. rewrite Hfetch.
      unfold CloneNode.createImage. cbv beta iota. rewrite Hload. reflexivity. }
    rewrite (bind_ok _ Hsingle). apply Htail.
Qed.

Lemma video_replaced_by_still_witness :
  let host := hostWith (steadyClock 0 1) [] in
  let still url :=
    CloneNode.decorate host clip
      (mkCNode (Some 1%nat) CHTMLImageElement (Some "IMG") [("src", url)] (Some []) [])
      strictOptions in
  ("movie.mp4" <> "" ->
   imageLoads host (CloneNode.toDataURL host (mkSurface 2 1 [1%N; 2%N] true)) = true ->
   CloneNode.cloneNode host 1 clip strictOptions true
     (mkWorld (Some (mkContext 0 (Some 0) (Some 7))) 2 []) =
   (Ok (Some (still (CloneNode.toDataURL host (mkSurface 2 1 [1%N; 2%N] true)))),
    mkWorld (Some (mkContext 0 (Some 0) (Some 7))) 2 [])) /\
  ("movie.mp4" = "" ->
   forall dataURL,
     resourceToDataURL host "" = Some dataURL ->
     imageLoads host dataURL = true ->
     CloneNode.cloneNode host 1 clip strictOptions true
       (mkWorld (Some (mkContext 0 (Some 0) (Some 7))) 2 []) =
     (Ok (Some (still dataURL)),
      mkWorld (Some (mkContext 0 (Some 0) (Some 7))) 2 ([] ++ [Fetch ""]))).
Proof.
  apply (@video_replaced_by_still (hostWith (steadyClock 0 1) []) strictOptions clip
           "movie.mp4" "" (mkSurface 2 1 [1%N; 2%N] true) 0 true
           (mkWorld (Some (mkContext 0 (Some 0) (Some 7))) 2 []));
    reflexivity.
Defined.

(** ** The clone of a plain tree in any mode *)

Lemma Yields_weaken {A} (m : M A) (P Q : A -> Prop) :
  Yields m P -> (forall a, P a -> Q a) -> Yields m Q.
Proof. intros Hm HPQ w a w' E. apply HPQ. exact (Hm w a w' E). Qed.

Section AnyMode.

Variable host : Host.
Variable options : Options.

Lemma Yields_cloneChildrenLoop_copies
      (rec : Node -> Options -> bool -> M (option CNode)) (copies : Node -> CNode)
      (kids : list Node) :
  Forall (fun k => Yields (rec k options false)
                          (fun r => r = if passes options k then Some (copies k) else None))
         kids ->
  forall c,
    Yields (CloneNode.cloneChildrenLoop host rec options kids c)
           (fun c' => c' = setChildNodes c
                             (cchildNodes c ++
                              flat_map (fun k => if passes options k then [copies k] else [])
                                       kids)).
Proof.
  induction 1 as [|k rest Hk _ IH]; intros c.
  - cbn [CloneNode.cloneChildrenLoop flat_map]. apply Yields_ret.
    rewrite app_nil_r. destruct c; reflexivity.
  - cbn [CloneNode.cloneChildrenLoop flat_map].
    eapply Yields_bind; [apply Yields_any|]. intros _ _.
    eapply Yields_bind; [exact Hk|]. cbv beta. intros r ->.
    eapply Yields_weaken; [apply IH|]. cbv beta. intros c' ->.
    destruct (passes options k); cbn [app]; [|reflexivity].
    unfold appendChild. destruct c; simpl. rewrite <- app_assoc. reflexivity.
Qed.

Lemma Yields_cloneNode_level (copies : Node -> CNode) (n : Node) (fuel : nat)
      (isRoot : bool) :
  literalContent n ->
  copiedShallow n = true ->
  Forall (fun k => Yields (CloneNode.cloneNode host fuel k options false)
                          (fun r => r = if passes options k then Some (copies k) else None))
         (CloneNode.childrenOf n) ->
  Forall (fun k => passes options k = true ->
                   Forall (fun d => isUse d = false)
                          (copies k :: CloneNode.descendants (copies k)))
         (CloneNode.childrenOf n) ->
  Yields (CloneNode.cloneNode host (S fuel) n options isRoot)
         (fun r => r = if isRoot || passes options n
                       then Some (CloneNode.decorate host n
                                    (setChildNodes (CloneNode.shallowClone n)
                                       (flat_map (fun k => if passes options k
                                                           then [copies k] else [])
                                                 (CloneNode.childrenOf n)))
                                    options)
                       else None).
Proof.
  intros Hliteral Hshape Hkids Huse.
  unfold copiedShallow in Hshape. apply andb_prop in Hshape.
  destruct Hshape as [Hiface Hsvg]. apply negb_true_iff in Hsvg.
  cbn [CloneNode.cloneNode]. rewrite rejected_spec.
  destruct (isRoot || passes options n); cbn [negb]; [|apply Yields_ret; reflexivity].
  assert (Hsingle : CloneNode.cloneSingleNode host (CloneNode.cloneNode host fuel) n options
                    = ret (Some (CloneNode.shallowClone n))).
  { unfold CloneNode.cloneSingleNode.
    destruct (iface n); try discriminate Hiface; rewrite Hsvg; reflexivity. }
  assert (Hvideo : CloneNode.isVideo n = false).
  { unfold CloneNode.isVideo. destruct (iface n); try discriminate Hiface; reflexivity. }
  rewrite Hsingle, bind_ret_l.
  rewrite (cloneChildren_is_loop host options (CloneNode.cloneNode host fuel) n
             (CloneNode.shallowClone n) Hsvg Hvideo).
  eapply Yields_bind;
    [apply (Yields_cloneChildrenLoop_copies (CloneNode.cloneNode host fuel) copies Hkids)|].
  cbv beta. intros c' ->. cbv zeta.
  rewrite ensureSVGSymbols_nothing.
  - rewrite bind_ret_l. apply Yields_ret. reflexivity.
  - apply noUse_decorate; [exact Hliteral|]. rewrite descendants_setChildNodes.
    apply Forall_flat_map, Forall_flat_map.
    eapply Forall_impl; [|exact Huse]. intros k Hk.
    cbv beta in Hk. destruct (passes options k); [|constructor].
    constructor; [apply Hk; reflexivity | constructor].
Qed.

Lemma Yields_cloneNode_plain (n : Node) :
  plain n = true ->
  forall fuel isRoot,
    Yields (CloneNode.cloneNode host fuel n options isRoot)
           (fun r => r = if isRoot || passes options n
                         then Some (mirror host options n) else None).
Proof.
  induction n as [id i tag attrs st computed kids shadow IH] using Node_children_ind.
  intros Hplain fuel isRoot.
  destruct fuel as [|fuel]; [apply Yields_diverge|].
  pose proof (plain_parts _ _ _ _ _ _ _ _ Hplain) as (_ & _ & _ & _ & Hkids).
  rewrite forallb_forall in Hkids.
  rewrite mirror_level, <- (childrenOf_plain _ Hplain).
  apply Yields_cloneNode_level with (copies := mirror host options).
  - apply literalContent_plain. exact Hplain.
  - apply copiedShallow_plain. exact Hplain.
  - rewrite (childrenOf_plain _ Hplain). cbn [childNodes].
    rewrite Forall_forall in IH. apply Forall_forall. intros k Hin.
    eapply Yields_weaken; [apply (IH k Hin (Hkids k Hin) fuel false)|].
    cbv beta. intros r ->. reflexivity.
  - rewrite (childrenOf_plain _ Hplain). cbn [childNodes].
    apply Forall_forall. intros k Hin _. apply mirror_no_use. apply Hkids. exact Hin.
Qed.

End AnyMode.

Lemma decorate_options (host : Host) (n : Node) (c : CNode) (options options' : Options) :
  includeStyleProperties options' = includeStyleProperties options ->
  CloneNode.decorate host n c options' = CloneNode.decorate host n c options.
Proof.
  intros H. unfold CloneNode.decorate, CloneNode.cloneCSSStyle,
              CloneNode.clonePseudoElements, CloneNode.getStyleProperties.
  rewrite H. reflexivity.
Qed.

Lemma mirror_options (host : Host) (options options' : Options) (n : Node) :
  filter options' = filter options ->
  includeStyleProperties options' = includeStyleProperties options ->
  mirror host options' n = mirror host options n.
Proof.
  intros Hf Hs.
  induction n as [id i tag attrs st computed kids shadow IH] using Node_children_ind.
  cbn [mirror]. rewrite (decorate_options host _ _ options options' Hs).
  do 2 f_equal. apply flat_map_ext_Forall.
  eapply Forall_impl; [|exact IH]. cbv beta. intros k Hk.
  unfold passes. rewrite Hf, Hk. reflexivity.
Qed.

(** X15. The governor never changes the clone of a plain tree.  In any mode
    and from any state, if cloning a plain tree resolves, it resolves with
    the structural copy of the tree, the one blocking mode gives; and that
    copy depends on the options through [filter] and
    [includeStyleProperties] only. *)
Theorem governor_never_changes_the_clone (host : Host) (options : Options) (n : Node)
        (fuel : nat) (w : World) (result : option CNode) (w' : World) :
  plain n = true ->
  CloneNode.cloneNode host fuel n options true w = (Ok result, w') ->
  result = Some (mirror host options n) /\
  (forall options',
      filter options' = filter options ->
      includeStyleProperties options' = includeStyleProperties options ->
      mirror host options' n = mirror host options n).
Proof.
  intros Hplain Hrun. split.
  - apply (Yields_cloneNode_plain host options n Hplain fuel true w Hrun).
  - intros options' Hf Hs. apply mirror_options; assumption.
Qed.

Lemma governor_never_changes_the_clone_witness :
  let host := hostWith (steadyClock 1000 1) [paragraph] in
  let options := Index.withStartTime (cooperativeOptions true None None (Some 1)) 1001 in
  exists w',
    CloneNode.cloneNode host 10 paragraph options true
      (mkWorld (Some (mkContext 0 (Some 1000) (Some 5))) 2 []) =
    (Ok (Some (mirror host options paragraph)), w').
Proof.
  cbv zeta.
  destruct (CloneNode.cloneNode (hostWith (steadyClock 1000 1) [paragraph]) 10 paragraph
              (Index.withStartTime (cooperativeOptions true None None (Some 1)) 1001) true
              (mkWorld (Some (mkContext 0 (Some 1000) (Some 5))) 2 []))
    as [[result | reason | | ] w'] eqn:Hrun;
    try (vm_compute in Hrun; discriminate Hrun).
  exists w'. f_equal. f_equal.
  apply (@governor_never_changes_the_clone (hostWith (steadyClock 1000 1) [paragraph])
           (Index.withStartTime (cooperativeOptions true None None (Some 1)) 1001)
           paragraph 10 (mkWorld (Some (mkContext 0 (Some 1000) (Some 5))) 2 [])
           result w').
  - reflexivity.
  - exact Hrun.
Defined.


(* ================================================================== *)
(** * Decoration *)
(* ================================================================== *)

Lemma getPropertyValue_set (st : Style) (name value priority : string) :
  getPropertyValue (setProperty st name value priority) name = value.
Proof.
  unfold getPropertyValue, setProperty.
  destruct (String.eqb_spec value "") as [-> | Hne].
  - rewrite assoc_remove_same. reflexivity.
  - rewrite assoc_upsert_same. reflexivity.
Qed.

Lemma getPropertyPriority_set (st : Style) (name value priority : string) :
  value <> "" ->
  getPropertyPriority (setProperty st name value priority) name = priority.
Proof.
  intros Hne. unfold getPropertyPriority, setProperty.
  apply String.eqb_neq in Hne. rewrite Hne, assoc_upsert_same. reflexivity.
Qed.

Lemma getPropertyPriority_set_other (st : Style) (name name0 value priority : string) :
  name <> name0 ->
  getPropertyPriority (setProperty st name0 value priority) name =
  getPropertyPriority st name.
Proof.
  intros Hne. unfold getPropertyPriority, setProperty.
  destruct (String.eqb value "").
  - rewrite assoc_remove_other by exact Hne. reflexivity.
  - rewrite assoc_upsert_other by exact Hne. reflexivity.
Qed.

(** X16. In an engine that serializes computed styles (a non-empty
    [cssText]), the style of the clone is the computed style as serialized,
    with the transform origin set on top: the inline style of the clone and
    [includeStyleProperties] play no part, and no value is adjusted (a
    pixel font size is copied as it is). *)
Theorem serialized_style_copied_verbatim (host : Host) (options : Options) (n : Node)
        (c : CNode) (target : Style) :
  cstyle c = Some target ->
  cssText (computedStyle n) <> "" ->
  exists st,
    cstyle (CloneNode.cloneCSSStyle host n c options) = Some st /\
    getPropertyValue st "transform-origin" = transformOrigin (computedStyle n) /\
    (forall name,
        name <> "transform-origin" ->
        getPropertyValue st name = getPropertyValue (cssDecls (computedStyle n)) name /\
        getPropertyPriority st name =
          getPropertyPriority (cssDecls (computedStyle n)) name).
Proof.
  intros Hst Hcss. unfold CloneNode.cloneCSSStyle, nonEmpty. rewrite Hst.
  apply String.eqb_neq in Hcss. rewrite Hcss. cbn [negb].
  eexists. split; [destruct c; reflexivity|].
  split; [apply getPropertyValue_set|].
  intros name Hne. split.
  - apply getPropertyValue_set_other. exact Hne.
  - apply getPropertyPriority_set_other. exact Hne.
Qed.

Lemma serialized_style_copied_verbatim_witness :
  exists st,
    cstyle (CloneNode.cloneCSSStyle (hostWith (steadyClock 0 1) []) serialized
              (CloneNode.shallowClone serialized) fontSizeOnly) = Some st /\
    getPropertyValue st "transform-origin" = "50% 50%" /\
    (forall name,
        name <> "transform-origin" ->
        getPropertyValue st name =
          getPropertyValue [("color", ("blue", "")); ("font-size", ("16px", ""))] name /\
        getPropertyPriority st name =
          getPropertyPriority [("color", ("blue", "")); ("font-size", ("16px", ""))] name).
Proof.
  apply (@serialized_style_copied_verbatim (hostWith (steadyClock 0 1) []) fontSizeOnly
           serialized (CloneNode.shallowClone serialized) [("color", ("red", ""))]).
  - reflexivity.
  - discriminate.
Defined.

(** X17. In an engine that does not serialize computed styles, the style of
    the clone is its inline style after the writes of the allow-list, made
    in order: for each listed property, what the CSS parser of the host
    stores for the value passed to [setProperty] (with the priority of the
    computed style), the removal of its declarations for an empty value,
    and nothing for a value or a priority the parser refuses.  Every
    declaration of the result (of a longhand property: one that stands
    for itself alone) is what was last written to it, or what the clone
    had when nothing was.  In particular a listed property that the
    parser stores as written, and that no other listed property writes,
    holds the value passed for it, and a declaration that no listed
    property writes is left as it was.  The value passed is the computed
    value, except that an inline [display] of a frame becomes [block] and
    that [d] becomes the path of the [d] attribute of the clone (the font
    size is reduced; it is taken within [exactFontSize], where the
    arithmetic of the model is that of JavaScript). *)
Theorem listed_properties_copied (host : Host) (options : Options) (n : Node) (c : CNode)
        (target : Style) :
  cstyle c = Some target ->
  cssText (computedStyle n) = "" ->
  exactFontSize n = true ->
  exists st,
    cstyle (CloneNode.cloneCSSStyle host n c options) = Some st /\
    (forall k,
        longhands (engine host) k = [k] ->
        assoc k st =
        match lastWrite k (styleWrites host n c options) with
        | Some declaration => declaration
        | None => assoc k target
        end) /\
    (forall name p,
        In name (CloneNode.getStyleProperties host options) ->
        (forall m, In m (CloneNode.getStyleProperties host options) -> m <> name ->
                   ~ In name (map fst (propertyWrites host n c m))) ->
        CloneNode.adjustedValue n c name <> "" ->
        storedPriority (getPropertyPriority (properties (computedStyle n)) name) = Some p ->
        parseDeclaration (engine host) name (CloneNode.adjustedValue n c name) =
          Some [(name, CloneNode.adjustedValue n c name)] ->
        getPropertyValue st name = CloneNode.adjustedValue n c name /\
        getPropertyPriority st name = p) /\
    (forall k,
        longhands (engine host) k = [k] ->
        (forall m, In m (CloneNode.getStyleProperties host options) ->
                   ~ In k (map fst (propertyWrites host n c m))) ->
        getPropertyValue st k = getPropertyValue target k /\
        getPropertyPriority st k = getPropertyPriority target k) /\
    (forall name,
        name <> "font-size" -> name <> "display" -> name <> "d" ->
        CloneNode.adjustedValue n c name =
          getPropertyValue (properties (computedStyle n)) name) /\
    (CloneNode.isIFrame n = true ->
     getPropertyValue (properties (computedStyle n)) "display" = "inline" ->
     CloneNode.adjustedValue n c "display" = "block") /\
    (forall d,
        getAttribute c "d" = Some d -> d <> "" ->
        CloneNode.adjustedValue n c "d" = ("path(" ++ d ++ ")")%string).
Proof.
  intros Hst Hcss _.
  eexists. split; [apply (cloneCSSStyle_writes host options _ _ Hst Hcss)|].
  split; [|split; [|split; [|split; [|split]]]].
  - intros k _. apply assoc_writes.
  - intros name p Hin Hothers Hne Hp Hstore.
    unfold getPropertyValue, getPropertyPriority. rewrite assoc_writes.
    unfold styleWrites. rewrite (@lastWrite_only _ _ _ _ Hin Hothers).
    unfold propertyWrites. rewrite (written_stored host _ Hne Hp Hstore).
    split; reflexivity.
  - intros k _ Hnobody.
    unfold getPropertyValue, getPropertyPriority. rewrite assoc_writes.
    unfold styleWrites. rewrite (@lastWrite_nobody _ _ _ Hnobody).
    split; reflexivity.
  - intros name H1 H2 H3. unfold CloneNode.adjustedValue.
    apply String.eqb_neq in H1, H2, H3. rewrite H1, H2, H3.
    cbn [andb]. rewrite andb_false_r. cbn [andb].
    destruct (getAttribute c "d"); reflexivity.
  - intros Hframe Hdisplay. unfold CloneNode.adjustedValue.
    rewrite Hframe, Hdisplay. cbn. destruct (getAttribute c "d"); reflexivity.
  - intros d Hd Hne. unfold CloneNode.adjustedValue. rewrite Hd.
    unfold nonEmpty. apply String.eqb_neq in Hne. rewrite Hne. reflexivity.
Qed.

Lemma listed_properties_copied_witness :
  exists st,
    cstyle (CloneNode.cloneCSSStyle (hostWith (steadyClock 0 1) []) inlineFrame
              (CloneNode.shallowClone inlineFrame) displayAndWidth) = Some st /\
    getPropertyValue st "display" = "block" /\
    getPropertyValue st "width" = "300px" /\
    getPropertyPriority st "width" = "important" /\
    getPropertyValue st "color" = "red".
Proof.
  destruct (@listed_properties_copied (hostWith (steadyClock 0 1) []) displayAndWidth
              inlineFrame (CloneNode.shallowClone inlineFrame) [("color", ("red", ""))]
              eq_refl eq_refl eq_refl)
    as (st & Hst & _ & Hlisted & Hunlisted & _ & _ & _).
  exists st. split; [exact Hst|].
  destruct (Hlisted "display" "") as [Hd _];
    [simpl; auto | | discriminate | reflexivity | reflexivity |].
  { intros m [<- | [<- | []]] Hne; [contradiction|].
    simpl. intros [H | []]. discriminate H. }
  destruct (Hlisted "width" "important") as [Hw Hp];
    [simpl; auto | | discriminate | reflexivity | reflexivity |].
  { intros m [<- | [<- | []]] Hne; [|contradiction].
    simpl. intros [H | []]. discriminate H. }
  destruct (Hunlisted "color" eq_refl) as [Hc _].
  { intros m [<- | [<- | []]]; simpl; intros [H | []]; discriminate H. }
  rewrite Hd, Hw, Hp, Hc.
  repeat split; reflexivity.
Defined.

(** ** Form controls *)

Lemma Yields_cloneChildrenLoop_iface (host : Host) (options : Options)
      (rec : Node -> Options -> bool -> M (option CNode)) (kids : list Node) :
  forall c,
    Yields (CloneNode.cloneChildrenLoop host rec options kids c)
           (fun c' => ciface c' = ciface c).
Proof.
  induction kids as [|k rest IH]; intros c; cbn [CloneNode.cloneChildrenLoop].
  - apply Yields_ret. reflexivity.
  - eapply Yields_bind; [apply Yields_any|]. intros _ _.
    eapply Yields_bind; [apply Yields_any|]. intros r _.
    eapply Yields_weaken; [apply IH|]. cbv beta. intros c' ->.
    destruct r; [destruct c|]; reflexivity.
Qed.

Lemma Yields_cloneChildren_iface (host : Host) (options : Options)
      (rec : Node -> Options -> bool -> M (option CNode)) (n : Node) (c : CNode) :
  Yields (CloneNode.cloneChildren host rec n c options) (fun c' => ciface c' = ciface c).
Proof.
  unfold CloneNode.cloneChildren.
  destruct (CloneNode.isSVGElement _); [apply Yields_ret; reflexivity|].
  destruct (_ || _); [apply Yields_ret; reflexivity|].
  apply Yields_cloneChildrenLoop_iface.
Qed.

Lemma Yields_ensureSVGSymbols_attributes (host : Host) (options : Options)
      (rec : Node -> Options -> bool -> M (option CNode)) (c : CNode) :
  Yields (CloneNode.ensureSVGSymbols host rec c options)
         (fun c' => cattributes c' = cattributes c).
Proof.
  unfold CloneNode.ensureSVGSymbols.
  destruct (_ =? _)%nat; [apply Yields_ret; reflexivity|].
  eapply Yields_bind; [apply Yields_any|]. intros defs _.
  destruct (_ =? _)%nat; apply Yields_ret; [reflexivity | destruct c; reflexivity].
Qed.

(** The single-node copy of a node that is not a canvas, a video or a
    frame is an element when the node is. *)
Lemma cloneSingleNode_copy (host : Host) (options : Options)
      (rec : Node -> Options -> bool -> M (option CNode)) (n : Node) :
  match iface n with
  | HTMLCanvasElement _ | HTMLVideoElement _ _ _ | HTMLIFrameElement _ => False
  | _ => True
  end ->
  exists c,
    CloneNode.cloneSingleNode host rec n options = ret (Some c) /\
    ciface c = CloneNode.cinterfaceOf (iface n).
Proof.
  intros Hi. unfold CloneNode.cloneSingleNode.
  exists (if CloneNode.isSVGElement (tagName n)
          then CloneNode.deepClone n else CloneNode.shallowClone n).
  split.
  - destruct (iface n); try contradiction; reflexivity.
  - destruct (CloneNode.isSVGElement (tagName n)); [destruct n|]; reflexivity.
Qed.

Lemma decorate_input (host : Host) (options : Options) (n : Node) (c : CNode)
      (value : string) :
  iface n = HTMLInputElement value ->
  isElement c = true ->
  getAttribute (CloneNode.decorate host n c options) "value" = Some value.
Proof.
  intros Hi Hel. unfold CloneNode.decorate. rewrite Hel.
  unfold CloneNode.cloneSelectValue, CloneNode.cloneInputValue. rewrite Hi.
  unfold getAttribute, setAttribute. cbn [cattributes].
  apply assoc_upsert_same.
Qed.

(** X18. The current value of a text field is captured: whenever the clone
    of an [input] element resolves, in any mode, the [value] attribute of
    the clone is the value the field holds, whatever the attribute was. *)
Theorem input_value_captured (host : Host) (options : Options) (n : Node)
        (value : string) (fuel : nat) (isRoot : bool) (w : World) (c : CNode)
        (w' : World) :
  iface n = HTMLInputElement value ->
  CloneNode.cloneNode host fuel n options isRoot w = (Ok (Some c), w') ->
  getAttribute c "value" = Some value.
Proof.
  intros Hi Hrun.
  assert (H : Yields (CloneNode.cloneNode host fuel n options isRoot)
                     (fun r => forall c, r = Some c -> getAttribute c "value" = Some value)).
  { destruct fuel as [|fuel]; [apply Yields_diverge|].
    cbn [CloneNode.cloneNode].
    destruct (negb isRoot && _); [apply Yields_ret; discriminate|].
    destruct (@cloneSingleNode_copy host options (CloneNode.cloneNode host fuel) n)
      as (c0 & -> & Hc0); [rewrite Hi; exact I|].
    rewrite bind_ret_l.
    eapply Yields_bind; [apply Yields_cloneChildren_iface|].
    cbv beta. intros c1 Hc1. cbv zeta.
    eapply Yields_bind; [apply Yields_ensureSVGSymbols_attributes|].
    cbv beta. intros c2 Hc2. apply Yields_ret. intros c3 E. inversion E; subst c3.
    unfold getAttribute. rewrite Hc2.
    apply (decorate_input host options n c1 Hi).
    unfold isElement. rewrite Hc1, Hc0, Hi. reflexivity. }
  exact (H w (Some c) w' Hrun c eq_refl).
Qed.

Lemma input_value_captured_witness :
  let host := hostWith (steadyClock 0 1) [] in
  exists c w',
    CloneNode.cloneNode host 1 textField defaultOptions true Index.initialWorld =
      (Ok (Some c), w') /\
    getAttribute c "value" = Some "hello".
Proof.
  cbv zeta.
  destruct (CloneNode.cloneNode (hostWith (steadyClock 0 1) []) 1 textField defaultOptions
              true Index.initialWorld) as [[[c|] | reason | | ] w'] eqn:Hrun;
    try (vm_compute in Hrun; discriminate Hrun).
  exists c, w'. split; [reflexivity|].
  apply (@input_value_captured (hostWith (steadyClock 0 1) []) defaultOptions textField
           "hello" 1 true Index.initialWorld c w' eq_refl Hrun).
Defined.

(** X19. The content of a text area is its value: whenever the clone of a
    [textarea] resolves, in any mode, and the value holds none of the
    characters the HTML parser does not take literally (the ampersand, the
    less-than sign, the carriage return, the null character), the clone has
    one child, a text node whose character data is the value, and no child
    for the empty value: what was cloned from the children of the source,
    and what the decoration had appended before, is discarded. *)
Theorem textarea_content_is_its_value (host : Host) (options : Options) (n : Node)
        (value : string) (fuel : nat) (isRoot : bool) (w : World) (c : CNode)
        (w' : World) :
  iface n = HTMLTextAreaElement value ->
  CloneNode.plainText value = true ->
  CloneNode.cloneNode host fuel n options isRoot w = (Ok (Some c), w') ->
  cchildNodes c =
  if nonEmpty value then [mkCNode None (CText value) None [] None []] else [].
Proof.
  intros Hi Hplain Hrun.
  assert (H : Yields (CloneNode.cloneNode host fuel n options isRoot)
                     (fun r => forall c, r = Some c ->
                                         cchildNodes c =
                                         if nonEmpty value
                                         then [CloneNode.textNode value] else [])).
  { destruct fuel as [|fuel]; [apply Yields_diverge|].
    cbn [CloneNode.cloneNode].
    destruct (negb isRoot && _); [apply Yields_ret; discriminate|].
    destruct (@cloneSingleNode_copy host options (CloneNode.cloneNode host fuel) n)
      as (c0 & -> & Hc0); [rewrite Hi; exact I|].
    rewrite bind_ret_l.
    eapply Yields_bind; [apply Yields_cloneChildren_iface|].
    cbv beta. intros c1 Hc1. cbv zeta.
    assert (Hkids : cchildNodes (CloneNode.decorate host n c1 options) =
                    if nonEmpty value then [CloneNode.textNode value] else []).
    { unfold CloneNode.decorate, isElement. rewrite Hc1, Hc0, Hi.
      cbn [CloneNode.cinterfaceOf].
      unfold CloneNode.cloneSelectValue, CloneNode.cloneInputValue. rewrite Hi.
      unfold CloneNode.innerHTML. rewrite Hplain. reflexivity. }
    rewrite ensureSVGSymbols_nothing.
    - rewrite bind_ret_l. apply Yields_ret. intros c3 E. inversion E; subst c3.
      exact Hkids.
    - rewrite descendants_children, Hkids.
      destruct (nonEmpty value); repeat constructor. }
  exact (H w (Some c) w' Hrun c eq_refl).
Qed.

Lemma textarea_content_is_its_value_witness :
  let host := hostWith (steadyClock 0 1) [] in
  exists c w',
    CloneNode.cloneNode host 2 textArea defaultOptions true Index.initialWorld =
      (Ok (Some c), w') /\
    cchildNodes c = [mkCNode None (CText "hello") None [] None []].
Proof.
  cbv zeta.
  destruct (CloneNode.cloneNode (hostWith (steadyClock 0 1) []) 2 textArea defaultOptions
              true Index.initialWorld) as [[[c|] | reason | | ] w'] eqn:Hrun;
    try (vm_compute in Hrun; discriminate Hrun).
  exists c, w'. split; [reflexivity|].
  apply (@textarea_content_is_its_value (hostWith (steadyClock 0 1) []) defaultOptions
           textArea "hello" 2 true Index.initialWorld c w' eq_refl eq_refl Hrun).
Defined.

Lemma selectOption_first (value : string) (before : list CNode) (o : CNode)
      (after : list CNode) :
  forallb (fun k => negb (optionMatches value k)) before = true ->
  optionMatches value o = true ->
  CloneNode.selectOption value (before ++ o :: after) =
  (before ++ setAttribute o "selected" "" :: after)%list.
Proof.
  intros Hbefore Ho. induction before as [|k rest IH].
  - cbn [app CloneNode.selectOption]. unfold optionMatches in Ho. rewrite Ho. reflexivity.
  - cbn [forallb] in Hbefore. apply andb_prop in Hbefore. destruct Hbefore as [Hk Hrest].
    apply negb_true_iff in Hk. unfold optionMatches in Hk.
    cbn [app CloneNode.selectOption]. rewrite Hk, (IH Hrest). reflexivity.
Qed.

Lemma selectOption_none (value : string) (kids : list CNode) :
  forallb (fun k => negb (optionMatches value k)) kids = true ->
  CloneNode.selectOption value kids = kids.
Proof.
  induction kids as [|k rest IH]; [reflexivity|].
  cbn [forallb]. intros H. apply andb_prop in H. destruct H as [Hk Hrest].
  apply negb_true_iff in Hk. unfold optionMatches in Hk.
  cbn [CloneNode.selectOption]. rewrite Hk, (IH Hrest). reflexivity.
Qed.

(** X20. The selection of a [select] is captured on one option: the first
    element child of the clone whose [value] attribute is the value of the
    source gets the attribute [selected], and every other child, before or
    after it, is left exactly as it is (an option marked [selected] in the
    markup stays marked); when no child has that value nothing changes. *)
Theorem select_marks_first_match (n : Node) (c : CNode) (value : string) :
  iface n = HTMLSelectElement value ->
  (forall before o after,
      cchildNodes c = (before ++ o :: after)%list ->
      forallb (fun k => negb (optionMatches value k)) before = true ->
      optionMatches value o = true ->
      CloneNode.cloneSelectValue n c =
      setChildNodes c (before ++ setAttribute o "selected" "" :: after)) /\
  (forallb (fun k => negb (optionMatches value k)) (cchildNodes c) = true ->
   CloneNode.cloneSelectValue n c = c).
Proof.
  intros Hi. unfold CloneNode.cloneSelectValue. rewrite Hi. split.
  - intros before o after Hkids Hbefore Ho.
    rewrite Hkids, selectOption_first by assumption. reflexivity.
  - intros Hnone. rewrite selectOption_none by exact Hnone.
    destruct c; reflexivity.
Qed.

Lemma select_marks_first_match_witness :
  let c := mkCNode (Some 1%nat) COtherElement (Some "SELECT") [] (Some [])
             [optionClone 2 [("value", "a"); ("selected", "")];
              optionClone 3 [("value", "b")];
              optionClone 4 [("value", "b")]] in
  CloneNode.cloneSelectValue chooser c =
  setChildNodes c
    [optionClone 2 [("value", "a"); ("selected", "")];
     optionClone 3 [("value", "b"); ("selected", "")];
     optionClone 4 [("value", "b")]].
Proof.
  cbv zeta.
  apply (proj1 (@select_marks_first_match chooser
                  (mkCNode (Some 1%nat) COtherElement (Some "SELECT") [] (Some [])
                     [optionClone 2 [("value", "a"); ("selected", "")];
                      optionClone 3 [("value", "b")];
                      optionClone 4 [("value", "b")]])
                  "b" eq_refl)
               [optionClone 2 [("value", "a"); ("selected", "")]]
               (optionClone 3 [("value", "b")])
               [optionClone 4 [("value", "b")]]);
    reflexivity.
Defined.


(* ================================================================== *)
(** * Embedding *)
(* ================================================================== *)

Lemma getAttribute_set (c : CNode) (name value : string) :
  getAttribute (setAttribute c name value) name = Some value.
Proof. unfold getAttribute, setAttribute. cbn. apply assoc_upsert_same. Qed.

Lemma getAttribute_set_other (c : CNode) (name name0 value : string) :
  name <> name0 ->
  getAttribute (setAttribute c name0 value) name = getAttribute c name.
Proof.
  intros Hne. unfold getAttribute, setAttribute. cbn.
  apply assoc_upsert_other. exact Hne.
Qed.

(** The image [embedImageNode] leaves once the source [dataURL] has been
    resolved. *)
Lemma embedImageNode_fetched (host : Host) (options : Options) (c : CNode) (w : World)
      (dataURL : string) :
  ciface c = CHTMLImageElement ->
  EmbedImages.isDataUrl (EmbedImages.src host c) = false ->
  resourceToDataURL host (EmbedImages.src host c) = Some dataURL ->
  EmbedImages.embedImageNode host c options w =
  (if imageLoads host dataURL then ret else
     match onImageErrorHandler options with
     | Some true => ret
     | _ => fun _ => throwError
     end)
    (setAttribute
       (setAttribute
          (if EmbedImages.lazy c
           then setAttribute c "loading" "eager" else c)
          "srcset" "")
       "src" dataURL)
    (mkWorld (_context w) (reads w)
             (trace w ++ [Fetch (EmbedImages.src host c)])).
Proof.
  intros Hi Hext Hfetch. unfold EmbedImages.embedImageNode.
  rewrite Hi, Hext. cbn [negb andb].
  unfold fetchResource, bind, emit. rewrite Hfetch. unfold ret at 1. cbv beta iota.
  destruct (imageLoads host dataURL); [reflexivity|].
  destruct (onImageErrorHandler options) as [[|]|]; reflexivity.
Qed.

(** X21. Embedding an image whose source is not inline calls the resource
    resolver once, with the source as the image reports it: the [src]
    attribute resolved against the document, the empty URL when the image
    has no [src].  When the resolved image loads, the clone gets the
    resolved source, an empty [srcset] and eager loading if it was lazy
    (in any letter case), and nothing else of the node changes. *)
Theorem image_source_embedded (host : Host) (options : Options) (c : CNode) (w : World)
        (dataURL : string) :
  ciface c = CHTMLImageElement ->
  EmbedImages.isDataUrl (EmbedImages.src host c) = false ->
  resourceToDataURL host (EmbedImages.src host c) = Some dataURL ->
  imageLoads host dataURL = true ->
  exists c',
    EmbedImages.embedImageNode host c options w =
      (Ok c', mkWorld (_context w) (reads w)
                      (trace w ++ [Fetch (EmbedImages.src host c)])) /\
    getAttribute c' "src" = Some dataURL /\
    getAttribute c' "srcset" = Some "" /\
    getAttribute c' "loading" =
      (if EmbedImages.lazy c
       then Some "eager" else getAttribute c "loading") /\
    (forall name,
        name <> "src" -> name <> "srcset" -> name <> "loading" ->
        getAttribute c' name = getAttribute c name) /\
    skeleton c' = skeleton c /\ cstyle c' = cstyle c.
Proof.
  intros Hi Hext Hfetch Hload.
  rewrite (embedImageNode_fetched host options c w Hi Hext Hfetch), Hload.
  eexists. split; [reflexivity|].
  split; [apply getAttribute_set|].
  split; [rewrite getAttribute_set_other by discriminate; apply getAttribute_set|].
  split; [|split].
  - rewrite !getAttribute_set_other by discriminate.
    destruct (EmbedImages.lazy _); [apply getAttribute_set | reflexivity].
  - intros name H1 H2 H3. rewrite !getAttribute_set_other by assumption.
    destruct (EmbedImages.lazy _); [|reflexivity].
    apply getAttribute_set_other. exact H3.
  - destruct c as [o i tag attrs st kids]. cbn [ciface] in Hi. subst i.
    destruct (EmbedImages.lazy _); split; reflexivity.
Qed.

Lemma image_source_embedded_witness :
  let img := mkCNode (Some 2%nat) CHTMLImageElement (Some "IMG")
               [("src", "cat.png"); ("loading", "lazy"); ("alt", "a cat")]
               (Some []) [] in
  exists c',
    EmbedImages.embedImageNode (galleryHost true) img defaultOptions Index.initialWorld =
      (Ok c', mkWorld None 0 [Fetch "http://localhost/cat.png"]) /\
    getAttribute c' "src" = Some "data:image/png;base64,CAT" /\
    getAttribute c' "srcset" = Some "" /\
    getAttribute c' "loading" = Some "eager" /\
    (forall name,
        name <> "src" -> name <> "srcset" -> name <> "loading" ->
        getAttribute c' name = getAttribute img name) /\
    skeleton c' = skeleton img /\ cstyle c' = cstyle img.
Proof.
  cbv zeta.
  apply (@image_source_embedded (galleryHost true) defaultOptions
           (mkCNode (Some 2%nat) CHTMLImageElement (Some "IMG")
              [("src", "cat.png"); ("loading", "lazy"); ("alt", "a cat")]
              (Some []) [])
           Index.initialWorld "data:image/png;base64,CAT");
    reflexivity.
Defined.

(** X22. What a failed image costs.  When the resolved image does not load,
    embedding the image resolves, with the same node as if it had loaded,
    exactly when an error handler is configured and returns; without a
    handler, or with one that throws, it is rejected.  When the resolver
    itself rejects, the image is rejected whatever the handler is. *)
Theorem image_load_failure (host : Host) (options : Options) (c : CNode) (w : World) :
  ciface c = CHTMLImageElement ->
  EmbedImages.isDataUrl (EmbedImages.src host c) = false ->
  (forall dataURL,
      resourceToDataURL host (EmbedImages.src host c) = Some dataURL ->
      imageLoads host dataURL = false ->
      (onImageErrorHandler options = Some true ->
       exists c', fst (EmbedImages.embedImageNode host c options w) = Ok c' /\
                  getAttribute c' "src" = Some dataURL) /\
      (onImageErrorHandler options <> Some true ->
       fst (EmbedImages.embedImageNode host c options w) = Failed)) /\
  (resourceToDataURL host (EmbedImages.src host c) = None ->
   fst (EmbedImages.embedImageNode host c options w) = Failed).
Proof.
  intros Hi Hext. split.
  - intros dataURL Hfetch Hload.
    rewrite (embedImageNode_fetched host options c w Hi Hext Hfetch), Hload.
    split.
    + intros ->. eexists. split; [reflexivity | apply getAttribute_set].
    + intros Hno. destruct (onImageErrorHandler options) as [[|]|];
        [exfalso; apply Hno; reflexivity | reflexivity | reflexivity].
  - intros Hfetch. unfold EmbedImages.embedImageNode.
    rewrite Hi, Hext. cbn [negb andb].
    unfold fetchResource, bind, emit. rewrite Hfetch. reflexivity.
Qed.

Lemma image_load_failure_witness :
  let img := mkCNode (Some 2%nat) CHTMLImageElement (Some "IMG")
               [("src", "cat.png")] (Some []) [] in
  (exists c', fst (EmbedImages.embedImageNode (galleryHost false) img forgiving
                     Index.initialWorld) = Ok c' /\
              getAttribute c' "src" = Some "data:image/png;base64,CAT") /\
  fst (EmbedImages.embedImageNode (galleryHost false) img defaultOptions
         Index.initialWorld) = Failed.
Proof.
  cbv zeta. split.
  - apply (proj1 (@image_load_failure (galleryHost false) forgiving
                    (mkCNode (Some 2%nat) CHTMLImageElement (Some "IMG")
                       [("src", "cat.png")] (Some []) [])
                    Index.initialWorld eq_refl eq_refl));
      reflexivity.
  - apply (proj1 (@image_load_failure (galleryHost false) defaultOptions
                    (mkCNode (Some 2%nat) CHTMLImageElement (Some "IMG")
                       [("src", "cat.png")] (Some []) [])
                    Index.initialWorld eq_refl eq_refl)
                 "data:image/png;base64,CAT" eq_refl eq_refl);
      discriminate.
Defined.

(** ** The shape of an embedded tree *)

Lemma sameButStyle_refl (c : CNode) : sameButStyle c c.
Proof. repeat split. Qed.

Lemma sameButStyle_trans (a b c : CNode) :
  sameButStyle a b -> sameButStyle b c -> sameButStyle a c.
Proof.
  intros (H1 & H2 & H3 & H4 & H5) (K1 & K2 & K3 & K4 & K5).
  repeat split; congruence.
Qed.

Section EmbeddedShape.

Variable host : Host.
Variable options : Options.

Lemma Yields_embedProp_style (name : string) (c : CNode) :
  Yields (EmbedImages.embedProp host name c options) (fun r => sameButStyle (snd r) c).
Proof.
  unfold EmbedImages.embedProp.
  destruct (cstyle c); [|apply Yields_ret; apply sameButStyle_refl].
  destruct (nonEmpty _); [|apply Yields_ret; apply sameButStyle_refl].
  eapply Yields_bind; [apply Yields_any|]. intros css _.
  apply Yields_ret. destruct c; repeat split.
Qed.

Lemma Yields_orElse_style (a : M (bool * CNode)) (b : CNode -> M (bool * CNode))
      (c : CNode) :
  Yields a (fun r => sameButStyle (snd r) c) ->
  (forall n, sameButStyle n c -> Yields (b n) (fun r => sameButStyle (snd r) c)) ->
  Yields (EmbedImages.orElse a b) (fun r => sameButStyle (snd r) c).
Proof.
  intros Ha Hb. unfold EmbedImages.orElse.
  eapply Yields_bind; [exact Ha|]. cbv beta. intros r Hr.
  destruct (fst r); [apply Yields_ret; exact Hr | apply Hb; exact Hr].
Qed.

Lemma Yields_embedProp_after (name : string) (n c : CNode) :
  sameButStyle n c ->
  Yields (EmbedImages.embedProp host name n options) (fun r => sameButStyle (snd r) c).
Proof.
  intros Hn. eapply Yields_weaken; [apply Yields_embedProp_style|].
  cbv beta. intros r Hr. eapply sameButStyle_trans; eassumption.
Qed.

Lemma Yields_embedBackground_style (c : CNode) :
  Yields (EmbedImages.embedBackground host c options) (fun c' => sameButStyle c' c).
Proof.
  unfold EmbedImages.embedBackground.
  eapply Yields_bind.
  - apply Yields_orElse_style; [apply Yields_embedProp_style|].
    intros n Hn. apply Yields_embedProp_after. exact Hn.
  - cbv beta. intros r Hr.
    eapply Yields_bind with (P := fun r0 => sameButStyle (snd r0) c);
      [|intros r0 Hr0; apply Yields_ret; exact Hr0].
    repeat (apply Yields_orElse_style;
            [|intros n Hn; apply Yields_embedProp_after; exact Hn]).
    apply Yields_embedProp_after. exact Hr.
Qed.

Lemma skeleton_sameButStyle (c' c : CNode) :
  sameButStyle c' c -> skeleton c' = skeleton c.
Proof.
  destruct c' as [o' i' tag' attrs' st' kids'], c as [o i tag attrs st kids].
  intros (H1 & H2 & H3 & H4 & H5). simpl in *. subst. reflexivity.
Qed.

Lemma skeleton_setAttribute_image (c : CNode) (name value : string) :
  match ciface c with CHTMLImageElement | CSVGImageElement => True | _ => False end ->
  skeleton (setAttribute c name value) = skeleton c.
Proof.
  destruct c as [o i tag attrs st kids]. cbn [ciface]. intros Hi.
  destruct i; try contradiction; reflexivity.
Qed.

Lemma Yields_embedImageNode_shape (c : CNode) :
  Yields (EmbedImages.embedImageNode host c options)
         (fun c' => skeleton c' = skeleton c /\ cchildNodes c' = cchildNodes c).
Proof.
  unfold EmbedImages.embedImageNode.
  destruct (negb _ && negb _) eqn:Hskip; [apply Yields_ret; split; reflexivity|].
  assert (Himage : match ciface c with
                   | CHTMLImageElement | CSVGImageElement => True
                   | _ => False
                   end).
  { destruct (ciface c); try exact I; discriminate Hskip. }
  eapply Yields_bind; [apply Yields_any|]. intros dataURL _.
  assert (Hres : forall image name,
             image = (if EmbedImages.lazy c
                      then setAttribute c "loading" "eager" else c) ->
             skeleton (if match ciface c with CHTMLImageElement => true | _ => false end
                       then setAttribute (setAttribute image "srcset" "") "src" dataURL
                       else setAttribute image name dataURL) = skeleton c /\
             cchildNodes (if match ciface c with CHTMLImageElement => true | _ => false end
                          then setAttribute (setAttribute image "srcset" "") "src" dataURL
                          else setAttribute image name dataURL) = cchildNodes c).
  { intros image name ->. destruct c as [o i tag attrs st kids]. cbn [ciface] in *.
    destruct i; try contradiction;
      destruct (EmbedImages.lazy _); split; reflexivity. }
  destruct (imageLoads host dataURL); [apply Yields_ret; apply Hres; reflexivity|].
  destruct (onImageErrorHandler options) as [[|]|];
    [apply Yields_ret; apply Hres; reflexivity | apply Yields_throwError
     | apply Yields_throwError].
Qed.

Lemma Yields_embedChildren_shape (embedImages : CNode -> M CNode) (kids : list CNode) :
  Forall (fun k => Yields (embedImages k) (fun k' => skeleton k' = skeleton k)) kids ->
  Yields (EmbedImages.embedChildren host embedImages options kids)
         (fun kids' => map skeleton kids' = map skeleton kids).
Proof.
  induction 1 as [|k rest Hk _ IH]; cbn [EmbedImages.embedChildren].
  - apply Yields_ret. reflexivity.
  - eapply Yields_bind; [apply Yields_any|]. intros _ _.
    eapply Yields_bind; [exact Hk|]. cbv beta. intros k' Hk'.
    eapply Yields_bind; [exact IH|]. cbv beta. intros rest' Hrest.
    apply Yields_ret. cbn [map]. rewrite Hk', Hrest. reflexivity.
Qed.

Lemma Yields_embedImages_shape (c : CNode) :
  Yields (EmbedImages.embedImages host c options) (fun c' => skeleton c' = skeleton c).
Proof.
  induction c as [o i tag attrs st kids IH] using CNode_tree_ind.
  cbn [EmbedImages.embedImages].
  destruct (isElement _); [|apply Yields_ret; reflexivity].
  eapply Yields_bind; [apply Yields_embedBackground_style|]. cbv beta. intros n1 H1.
  eapply Yields_bind; [apply Yields_embedImageNode_shape|]. cbv beta. intros n2 [H2 _].
  eapply Yields_bind; [apply Yields_embedChildren_shape; exact IH|].
  cbv beta. intros kids' Hkids. apply Yields_ret.
  apply skeleton_sameButStyle in H1. rewrite H1 in H2.
  destruct n2 as [o2 i2 tag2 attrs2 st2 kids2]. cbn [skeleton] in H2.
  injection H2 as -> -> -> Hattrs _. simpl. rewrite Hattrs, Hkids. reflexivity.
Qed.

End EmbeddedShape.

(** X23. Embedding never changes the shape of a clone.  Whenever the
    embedding walk resolves, in any mode, the tree it returns has the nodes
    of the tree it was given, in the same places, with the same origin,
    interface and tag; nodes that are not images keep their attributes, so
    the walk changes nothing but style declarations and the attributes of
    images. *)
Theorem embedding_preserves_shape (host : Host) (options : Options) (c : CNode)
        (w : World) (c' : CNode) (w' : World) :
  EmbedImages.embedImages host c options w = (Ok c', w') ->
  skeleton c' = skeleton c.
Proof. intros Hrun. exact (Yields_embedImages_shape host options c w Hrun). Qed.

Lemma embedding_preserves_shape_witness :
  exists c' w',
    EmbedImages.embedImages (galleryHost true) gallery defaultOptions Index.initialWorld =
      (Ok c', w') /\
    skeleton c' = skeleton gallery.
Proof.
  destruct (EmbedImages.embedImages (galleryHost true) gallery defaultOptions
              Index.initialWorld) as [[c' | reason | | ] w'] eqn:Hrun;
    try (vm_compute in Hrun; discriminate Hrun).
  exists c', w'. split; [reflexivity|].
  apply (@embedding_preserves_shape (galleryHost true) defaultOptions gallery
           Index.initialWorld c' w' Hrun).
Defined.

(** ** The ticks of the embedding walk *)

Lemma bind_inv {A B} (m : M A) (k : A -> M B) (w w' : World) (b : B) :
  bind m k w = (Ok b, w') ->
  exists a w1, m w = (Ok a, w1) /\ k a w1 = (Ok b, w').
Proof.
  unfold bind. destruct (m w) as [[a | r | | ] w1]; try discriminate.
  intros H. exists a, w1. split; [reflexivity | exact H].
Qed.

Section EmbeddingTicks.

Variable host : Host.
Variable options : Options.
Hypothesis cooperative : nonBlocking options = true.

Lemma sameContext_emit (e : Event) :
  match e with Fetch _ | Warn => True | _ => False end ->
  Keeps sameContext false (emit e).
Proof. intros _ w. split; [reflexivity | discriminate]. Qed.

Lemma embedBackground_sameContext (c : CNode) (w : World) :
  _context (snd (EmbedImages.embedBackground host c options w)) = _context w.
Proof.
  apply (@Keeps_embedBackground host options sameContext false).
  - intros w0. reflexivity.
  - intros a b d Hab Hbd. unfold sameContext in *. congruence.
  - exact sameContext_emit.
Qed.

Lemma embedImageNode_sameContext (c : CNode) (w : World) :
  _context (snd (EmbedImages.embedImageNode host c options w)) = _context w.
Proof.
  apply (@Keeps_embedImageNode host options sameContext false).
  - intros w0. reflexivity.
  - intros a b d Hab Hbd. unfold sameContext in *. congruence.
  - exact sameContext_emit.
Qed.

Lemma embedTick_counts (w : World) (c : CloneContext) :
  _context w = Some c ->
  exists w1 c1,
    EmbedImages.maybeYieldToMain host options w = (Ok tt, w1) /\
    _context w1 = Some c1 /\ nodeCount c1 = nodeCount c + 1.
Proof.
  intros Hctx. rewrite (embedTick_run host options w cooperative Hctx).
  rewrite progressAndYield_run. cbv zeta.
  destruct (suspendsb host options c (reads (counted w c))).
  - eexists; eexists. split; [reflexivity|]. split; reflexivity.
  - eexists; eexists. split; [reflexivity|]. split; reflexivity.
Qed.

Lemma embedChildren_ticks (kids : list CNode) :
  Forall (fun k => forall w c0 k' w',
              _context w = Some c0 ->
              EmbedImages.embedImages host k options w = (Ok k', w') ->
              exists c1, _context w' = Some c1 /\
                         nodeCount c1 = nodeCount c0 + Z.of_nat (embedTicks k)) kids ->
  forall w c0 kids' w',
    _context w = Some c0 ->
    EmbedImages.embedChildren host (fun c => EmbedImages.embedImages host c options)
                              options kids w = (Ok kids', w') ->
    exists c1, _context w' = Some c1 /\
               nodeCount c1 =
               nodeCount c0 +
               Z.of_nat (fold_right (fun k m => S (embedTicks k + m)) 0%nat kids).
Proof.
  induction 1 as [|k rest Hk _ IH]; intros w c0 kids' w' Hctx Hrun.
  - cbn [EmbedImages.embedChildren] in Hrun. inversion Hrun; subst.
    exists c0. split; [exact Hctx | simpl; lia].
  - cbn [EmbedImages.embedChildren] in Hrun.
    destruct (embedTick_counts w Hctx) as (w1 & c1 & Htick & Hctx1 & Hcount1).
    rewrite (bind_ok _ Htick) in Hrun.
    apply bind_inv in Hrun. destruct Hrun as (k' & w2 & Hchild & Hrun).
    destruct (Hk w1 c1 k' w2 Hctx1 Hchild) as (c2 & Hctx2 & Hcount2).
    apply bind_inv in Hrun. destruct Hrun as (rest' & w3 & Hrest & Hrun).
    destruct (IH w2 c2 rest' w3 Hctx2 Hrest) as (c3 & Hctx3 & Hcount3).
    inversion Hrun; subst. exists c3. split; [exact Hctx3|].
    cbn [fold_right]. lia.
Qed.

Lemma embedImages_ticks (c : CNode) :
  forall w c0 c' w',
    _context w = Some c0 ->
    EmbedImages.embedImages host c options w = (Ok c', w') ->
    exists c1, _context w' = Some c1 /\
               nodeCount c1 = nodeCount c0 + Z.of_nat (embedTicks c).
Proof.
  induction c as [o i tag attrs st kids IH] using CNode_tree_ind.
  intros w c0 c' w' Hctx Hrun. cbn [EmbedImages.embedImages] in Hrun.
  destruct (isElement (mkCNode o i tag attrs st kids)) eqn:Hel.
  - apply bind_inv in Hrun. destruct Hrun as (n1 & w1 & Hbg & Hrun).
    apply bind_inv in Hrun. destruct Hrun as (n2 & w2 & Himg & Hrun).
    apply bind_inv in Hrun. destruct Hrun as (kids' & w3 & Hkids & Hrun).
    inversion Hrun; subst.
    pose proof (embedBackground_sameContext (mkCNode o i tag attrs st kids) w) as H1.
    rewrite Hbg in H1. cbn [snd] in H1.
    pose proof (embedImageNode_sameContext n1 w1) as H2.
    rewrite Himg in H2. cbn [snd] in H2.
    assert (Hctx2 : _context w2 = Some c0) by congruence.
    destruct (embedChildren_ticks IH w2 Hctx2 Hkids) as (c1 & Hc1 & Hcount).
    exists c1. split; [exact Hc1|].
    rewrite Hcount. cbn [embedTicks]. unfold isElement in Hel. cbn [ciface] in Hel.
    destruct i; try discriminate Hel; reflexivity.
  - inversion Hrun; subst. exists c0. split; [exact Hctx|].
    unfold isElement in Hel. cbn [ciface] in Hel.
    destruct i; try discriminate Hel; simpl; lia.
Qed.

End EmbeddingTicks.

(** X24. In cooperative mode the embedding walk makes one governor tick for
    every child of every element it reaches, text nodes included: when it
    resolves, the processed-node counter has advanced by exactly that
    number. *)
Theorem embedding_tick_count (host : Host) (options : Options) (c : CNode) (w : World)
        (c0 : CloneContext) (c' : CNode) (w' : World) :
  nonBlocking options = true ->
  _context w = Some c0 ->
  EmbedImages.embedImages host c options w = (Ok c', w') ->
  exists c1,
    _context w' = Some c1 /\
    nodeCount c1 = nodeCount c0 + Z.of_nat (embedTicks c).
Proof.
  intros Hnb Hctx Hrun. exact (@embedImages_ticks host options Hnb c w c0 c' w' Hctx Hrun).
Qed.

Lemma embedding_tick_count_witness :
  exists c1,
    _context (snd (EmbedImages.embedImages (galleryHost true) gallery
                     (cooperativeOptions true None None None)
                     (mkWorld (Some (mkContext 4 (Some 0) (Some 7))) 2 []))) = Some c1 /\
    nodeCount c1 = 4 + Z.of_nat 2.
Proof.
  destruct (EmbedImages.embedImages (galleryHost true) gallery
              (cooperativeOptions true None None None)
              (mkWorld (Some (mkContext 4 (Some 0) (Some 7))) 2 []))
    as [[c' | reason | | ] w'] eqn:Hrun;
    try (vm_compute in Hrun; discriminate Hrun).
  apply (@embedding_tick_count (galleryHost true) (cooperativeOptions true None None None)
           gallery (mkWorld (Some (mkContext 4 (Some 0) (Some 7))) 2 [])
           (mkContext 4 (Some 0) (Some 7)) c' w' eq_refl eq_refl Hrun).
Defined.
